From Stdlib Require Import String Ascii ZArith List Lia Permutation Bool Sorted.
From stdpp Require Import base option list gmap sets fin_sets fin_maps strings relations pretty.
Import ListNotations.
Local Open Scope string_scope.
Local Open Scope Z_scope.
Local Open Scope list_scope.


(** * Migration planning core: dependency graphs and balanced batching

    A shallow embedding of the dependency-graph engine and of the balanced
    batch partitioner of the fabric-migration-assistant tools, followed by
    the properties of the specification that were checked against it.

    Conventions of the embedding.
    - A Python [str] is a [string] whose characters are read as code points
      below 256; [int] is [Z]; [len] results and list indices are [nat].
    - A [set] of strings is a [gset string], a [dict] keyed by strings a
      [gmap string _]; [dict.get(k, default)] is [default d (m !! k)].
    - A raised exception is the [Raised] outcome; a [while] loop is a
      [Fixpoint] on a fuel argument, and [OutOfFuel] is shown unreachable
      for the fuel each caller supplies.
    - [sorted] is a stable insertion sort, which computes what any stable
      sort does on a total preorder. *)

(** ** Python strings *)

(** [str.isspace] on one code point below 256. *)
Definition py_isspace (c : ascii) : bool :=
  let n := nat_of_ascii c in
  ((9 <=? n) && (n <=? 13) || (28 <=? n) && (n <=? 32)
   || (n =? 133) || (n =? 160))%nat.

Fixpoint lstrip (s : string) : string :=
  match s with
  | EmptyString => EmptyString
  | String c s' => if py_isspace c then lstrip s' else s
  end.

Fixpoint rstrip (s : string) : string :=
  match s with
  | EmptyString => EmptyString
  | String c s' =>
      match rstrip s' with
      | EmptyString => if py_isspace c then EmptyString else String c EmptyString
      | r => String c r
      end
  end.

(** [s.strip()] *)
Definition strip (s : string) : string := rstrip (lstrip s).

(** [str.lower] on one code point below 256: A-Z and the Latin-1 capitals
    (0xC0-0xDE without the multiplication sign 0xD7) move up by 32. *)
Definition lower_char (c : ascii) : ascii :=
  let n := nat_of_ascii c in
  if ((65 <=? n) && (n <=? 90)
      || (192 <=? n) && (n <=? 222) && negb (n =? 215))%nat
  then ascii_of_nat (n + 32) else c.

Fixpoint lower (s : string) : string :=
  match s with
  | EmptyString => EmptyString
  | String c s' => String (lower_char c) (lower s')
  end.

(** [str.upper] restricted to a-z.  It is only used to compare a status
    with an upper-case ASCII word, and no other code point upper-cases to an
    ASCII letter of such a word. *)
Definition upper_char (c : ascii) : ascii :=
  let n := nat_of_ascii c in
  if ((97 <=? n) && (n <=? 122))%nat then ascii_of_nat (n - 32) else c.

Fixpoint upper (s : string) : string :=
  match s with
  | EmptyString => EmptyString
  | String c s' => String (upper_char c) (upper s')
  end.

(** ["." in s] *)
Fixpoint has_dot (s : string) : bool :=
  match s with
  | EmptyString => false
  | String c s' => if Ascii.eqb c "."%char then true else has_dot s'
  end.

(** [s.split(".", 1)[1] if "." in s else s] *)
Fixpoint after_first_dot_opt (s : string) : option string :=
  match s with
  | EmptyString => None
  | String c s' => if Ascii.eqb c "."%char then Some s' else after_first_dot_opt s'
  end.

Definition after_first_dot (s : string) : string :=
  default s (after_first_dot_opt s).

(** [sub in s] for strings *)
Fixpoint is_substring (sub s : string) : bool :=
  if String.prefix sub s then true
  else match s with
       | EmptyString => false
       | String _ s' => is_substring sub s'
       end.

(** [sep.join(l)] *)
Fixpoint join (sep : string) (l : list string) : string :=
  match l with
  | [] => EmptyString
  | [x] => x
  | x :: l' => String.append x (String.append sep (join sep l'))
  end.

(** ** [sorted] *)

Fixpoint insert_by {A : Type} (le : A → A → bool) (x : A) (l : list A) : list A :=
  match l with
  | [] => [x]
  | y :: l' => if le x y then x :: l else y :: insert_by le x l'
  end.

(** [sorted(l, key=...)], with [le a b] the comparison [key a <= key b]. *)
Definition sorted_by {A : Type} (le : A → A → bool) (l : list A) : list A :=
  foldr (insert_by le) [] l.

(** [sorted(l)] on strings: code-point lexicographic order. *)
Definition sorted (l : list string) : list string := sorted_by String.leb l.
Arguments sorted : simpl never.

(** ** Exceptions and outcomes *)

Inductive exn : Type :=
| KeyError (key : string)
| IndexError
| ValueError_not_in_list
| ValueError_topological_sort (count : nat) (unresolved : list string)
| ValueError_circular (msg : string).

Inductive outcome (A : Type) : Type :=
| Returned (a : A)
| Raised (e : exn)
| OutOfFuel.
Arguments Returned {A} a.
Arguments Raised {A} e.
Arguments OutOfFuel {A}.

#[global] Instance outcome_ret : MRet outcome := λ A a, Returned a.
#[global] Instance outcome_bind : MBind outcome := λ A B f m,
  match m with
  | Returned a => f a
  | Raised e => Raised e
  | OutOfFuel => OutOfFuel
  end.

(** A [for] loop whose body may raise. *)
Fixpoint for_each {S A : Type} (body : S → A → outcome S) (l : list A) (s : S)
  : outcome S :=
  match l with
  | [] => Returned s
  | x :: l' => s' ← body s x; for_each body l' s'
  end.

(** ** batch-grouping/modules/models.py *)

Inductive ObjectType : Type :=
| SCHEMA | TABLE | VIEW | STORED_PROCEDURE | FUNCTION | STATISTICS
| EXTERNAL_TABLE | EXTERNAL_DATA_SOURCE | EXTERNAL_FILE_FORMAT | SECURITY.

#[global] Instance ObjectType_eq_dec : EqDecision ObjectType.
Proof. solve_decision. Defined.

Record DatabaseObject : Type := {
  name : string;
  object_type : ObjectType;
  schema_name : string;
  status : string;
  failure_reason : string;
  dependencies : list string;
  failure_category : string;
  impact_score : Z
}.

#[global] Instance DatabaseObject_eq_dec : EqDecision DatabaseObject.
Proof. solve_decision. Defined.

(** [f"{self.schema_name}.{self.name}"] *)
Definition qualified_name (o : DatabaseObject) : string :=
  String.append (schema_name o) (String "."%char (name o)).

(** [self.status.lower() == "passed"] *)
Definition passed (o : DatabaseObject) : bool :=
  String.eqb (lower (status o)) "passed".


(** ** batch-grouping/modules/dependency_graph.py *)

Module DependencyGraph.

(** The four attributes set by [__init__]. *)
Record t : Type := mk {
  _depends_on : gmap string (gset string);
  _depended_by : gmap string (gset string);
  _nodes : gset string;
  _object_map : gmap string DatabaseObject
}.

(** [adj.get(node, set())] *)
Definition get_set (adj : gmap string (gset string)) (node : string) : gset string :=
  default ∅ (adj !! node).

(** [adj[key].add(v)] on a [defaultdict(set)] *)
Definition add_to (adj : gmap string (gset string)) (key v : string)
  : gmap string (gset string) :=
  <[key := get_set adj key ∪ {[v]}]> adj.

(** Body of the inner loop of [build]: one declared dependency of [qname]. *)
Definition build_dep (qname : string) (g : t) (dep : string) : t :=
  let dep_clean := strip dep in
  if decide (dep_clean = EmptyString) then g
  else {| _nodes := _nodes g ∪ {[dep_clean]};
          _depends_on := add_to (_depends_on g) qname dep_clean;
          _depended_by := add_to (_depended_by g) dep_clean qname;
          _object_map := _object_map g |}.

(** Body of the outer loop of [build]. *)
Definition build_obj (g : t) (obj : DatabaseObject) : t :=
  let qname := qualified_name obj in
  fold_left (build_dep qname) (dependencies obj)
    {| _nodes := _nodes g ∪ {[qname]};
       _depends_on := _depends_on g;
       _depended_by := _depended_by g;
       _object_map := _object_map g |}.

Definition build (objects : list DatabaseObject) (g : t) : t :=
  fold_left build_obj objects g.

Definition _add_edge (g : t) (from_node to_node : string) : t :=
  if decide (from_node = to_node) then g
  else {| _nodes := _nodes g ∪ {[from_node]} ∪ {[to_node]};
          _depends_on := add_to (_depends_on g) from_node to_node;
          _depended_by := add_to (_depended_by g) to_node from_node;
          _object_map := _object_map g |}.

(** [for schema_qname in schemas: schema_obj = self._object_map.get(...);
     if schema_obj and schema_obj.name == obj.schema_name: self._add_edge(...)] *)
Definition add_own_schema_edges (schemas : list string) (obj : DatabaseObject) (g : t) : t :=
  fold_left (λ g schema_qname,
      match _object_map g !! schema_qname with
      | Some schema_obj =>
          if decide (name schema_obj = schema_name obj)
          then _add_edge g (qualified_name obj) schema_qname else g
      | None => g
      end) schemas g.

(** [for other_obj in objects: if other_obj.object_type == ty: self._add_edge(...)] *)
Definition add_edges_to_type (objects : list DatabaseObject) (ty : ObjectType)
    (obj : DatabaseObject) (g : t) : t :=
  fold_left (λ g other_obj,
      if decide (object_type other_obj = ty)
      then _add_edge g (qualified_name obj) (qualified_name other_obj) else g)
    objects g.

(** [if obj.object_type == ty: ...] *)
Definition when_type (ty : ObjectType) (obj : DatabaseObject) (body : t → t) (g : t) : t :=
  if decide (object_type obj = ty) then body g else g.

(** [for schema_qname in schemas: self._add_edge(qname, schema_qname)] *)
Definition add_all_schema_edges (schemas : list string) (obj : DatabaseObject) (g : t) : t :=
  fold_left (λ g schema_qname, _add_edge g (qualified_name obj) schema_qname) schemas g.

(** Body of the second loop of [add_implicit_edges]: the six [if]s of the
    source, the first of them innermost. *)
Definition add_implicit_obj (objects : list DatabaseObject) (schemas : list string)
    (g : t) (obj : DatabaseObject) : t :=
  when_type FUNCTION obj (add_own_schema_edges schemas obj)
    (when_type SECURITY obj (add_all_schema_edges schemas obj)
       (when_type EXTERNAL_TABLE obj
          (λ g, add_edges_to_type objects EXTERNAL_FILE_FORMAT obj
                  (add_edges_to_type objects EXTERNAL_DATA_SOURCE obj g))
          (when_type STORED_PROCEDURE obj (add_own_schema_edges schemas obj)
             (when_type VIEW obj (add_own_schema_edges schemas obj)
                (when_type TABLE obj (add_own_schema_edges schemas obj) g))))).

(** The lists [security], [functions] and [tables] collected by the first
    loop are never read; only [schemas] is. *)
Definition add_implicit_edges (objects : list DatabaseObject) (g : t) : t :=
  let schemas :=
    qualified_name <$> filter (λ obj, object_type obj = SCHEMA) objects in
  fold_left (add_implicit_obj objects schemas) objects g.

(** [DependencyGraph(objects)] *)
Definition __init__ (objects : list DatabaseObject) : t :=
  let object_map :=
    fold_left (λ m obj, <[qualified_name obj := obj]> m) objects ∅ in
  add_implicit_edges objects
    (build objects {| _depends_on := ∅; _depended_by := ∅; _nodes := ∅;
                      _object_map := object_map |}).

Definition get_dependencies (g : t) (node : string) : gset string :=
  get_set (_depends_on g) node.

Definition get_dependents (g : t) (node : string) : gset string :=
  get_set (_depended_by g) node.

Definition has_node (g : t) (node : string) : bool := bool_decide (node ∈ _nodes g).

(** *** Kahn's algorithm *)

(** [in_degree = {node: 0 for node in self._nodes}] followed by
    [for node in self._nodes: in_degree[node] = len(self._depends_on.get(node, set()))] *)
Definition initial_in_degree (g : t) : gmap string Z :=
  fold_left (λ in_degree node,
      <[node := Z.of_nat (size (get_set (_depends_on g) node))]> in_degree)
    (elements (_nodes g)) (gset_to_gmap 0 (_nodes g)).

(** [in_degree[dependent] -= 1; if in_degree[dependent] == 0: acc.append(dependent)] *)
Definition relax_one (st : gmap string Z * list string) (dependent : string)
  : outcome (gmap string Z * list string) :=
  match st.1 !! dependent with
  | None => Raised (KeyError dependent)
  | Some d =>
      Returned (<[dependent := d - 1]> st.1,
                if decide (d - 1 = 0) then st.2 ++ [dependent] else st.2)
  end.

(** [for dependent in sorted(self._depended_by.get(node, set())): ...] *)
Definition relax (g : t) (st : gmap string Z * list string) (node : string)
  : outcome (gmap string Z * list string) :=
  for_each relax_one (sorted (elements (get_set (_depended_by g) node))) st.

(** The nodes of [sorted(self._nodes)] whose in-degree is zero. *)
Definition zero_in_degree (g : t) (in_degree : gmap string Z) : list string :=
  filter (λ node, in_degree !! node = Some 0) (sorted (elements (_nodes g))).

(** [while queue: node = queue.popleft(); result.append(node); ...] *)
Fixpoint kahn_loop (fuel : nat) (g : t) (in_degree : gmap string Z)
    (queue result : list string) : outcome (list string) :=
  match queue with
  | [] => Returned result
  | node :: queue' =>
      match fuel with
      | O => OutOfFuel
      | S fuel' =>
          st ← relax g (in_degree, queue') node;
          kahn_loop fuel' g st.1 st.2 (result ++ [node])
      end
  end.

(** The [ValueError] carries the count and the first ten unresolved nodes
    of the message; the cycle listing appended to the message (a call of
    [detect_cycles] that changes no state) is not part of the payload. *)
Definition topological_sort (g : t) : outcome (list string) :=
  let in_degree := initial_in_degree g in
  result ← kahn_loop (size (_nodes g)) g in_degree (zero_in_degree g in_degree) [];
  if (length result <? size (_nodes g))%nat then
    let remaining := _nodes g ∖ list_to_set result in
    Raised (ValueError_topological_sort (size remaining)
              (take 10 (sorted (elements remaining))))
  else Returned result.

(** *** Layers *)

(** [for node in current_layer_nodes: for dependent in sorted(...): ...] *)
Definition next_layer (g : t) (in_degree : gmap string Z) (current : list string)
  : outcome (gmap string Z * list string) :=
  for_each (relax g) current (in_degree, []).

(** [while current_layer_nodes: ...].  The dictionary [node_layer] that the
    source fills alongside is never read and is left out. *)
Fixpoint layers_loop (fuel : nat) (g : t) (in_degree : gmap string Z)
    (current_layer_nodes : list string) (layers : list (list string))
  : outcome (list (list string)) :=
  match current_layer_nodes with
  | [] => Returned layers
  | _ :: _ =>
      match fuel with
      | O => OutOfFuel
      | S fuel' =>
          st ← next_layer g in_degree current_layer_nodes;
          layers_loop fuel' g st.1 st.2
            (match st.2 with
             | [] => layers
             | _ :: _ => layers ++ [sorted st.2]
             end)
      end
  end.

Definition get_layers (g : t) : outcome (list (list string)) :=
  let in_degree := initial_in_degree g in
  let current_layer_nodes := zero_in_degree g in_degree in
  layers_loop (size (_nodes g)) g in_degree current_layer_nodes
    (match current_layer_nodes with
     | [] => []
     | _ :: _ => [sorted current_layer_nodes]
     end).

(** [for i, layer in enumerate(layers): if node in layer: return i] and
    [return -1] after the loop; [i] counts from [start]. *)
Fixpoint find_layer (node : string) (layers : list (list string)) (start : Z) : Z :=
  match layers with
  | [] => -1
  | layer :: layers' =>
      if decide (node ∈ layer) then start else find_layer node layers' (start + 1)
  end.

Definition get_node_layer (g : t) (node : string) : outcome Z :=
  layers ← get_layers g;
  Returned (find_layer node layers 0).

(** *** Tarjan's strongly connected components *)

(** [d[key]], which raises [KeyError] on a missing key. *)
Definition getitem {V : Type} (d : gmap string V) (key : string) : outcome V :=
  match d !! key with
  | Some v => Returned v
  | None => Raised (KeyError key)
  end.

(** The closure variables of [detect_cycles]; [stack] has its top first. *)
Record tarjan_state : Type := {
  index_counter : Z;
  stack : list string;
  on_stack : gset string;
  indices : gmap string Z;
  lowlinks : gmap string Z;
  sccs : list (list string)
}.

Definition set_lowlink (st : tarjan_state) (node : string) (v : Z) : tarjan_state :=
  {| index_counter := index_counter st; stack := stack st; on_stack := on_stack st;
     indices := indices st; lowlinks := <[node := v]> (lowlinks st); sccs := sccs st |}.

(** [while True: w = stack.pop(); on_stack.discard(w); scc.append(w);
     if w == node: break] *)
Fixpoint pop_scc (node : string) (stack : list string) (on_stack : gset string)
    (scc : list string) : outcome (list string * list string * gset string) :=
  match stack with
  | [] => Raised IndexError
  | w :: stack' =>
      if decide (w = node) then Returned (scc ++ [w], stack', on_stack ∖ {[w]})
      else pop_scc node stack' (on_stack ∖ {[w]}) (scc ++ [w])
  end.

Section iteration_order.

(** The order in which a [for] loop visits a [set] of strings.  CPython
    derives it from string hashes that are salted per process, so it is an
    input of the model. *)
Variable set_iter : gset string → list string.

(** The nested function [strongconnect]; each recursive call spends one
    unit of [fuel].  The interpreter's recursion limit is no part of the
    model: a run in which the nesting of these calls reaches it ends in
    [RecursionError], and the model describes the other runs. *)
Fixpoint strongconnect (fuel : nat) (g : t) (node : string) (st : tarjan_state)
  : outcome tarjan_state :=
  match fuel with
  | O => OutOfFuel
  | S fuel' =>
      let st :=
        {| index_counter := index_counter st + 1;
           stack := node :: stack st;
           on_stack := on_stack st ∪ {[node]};
           indices := <[node := index_counter st]> (indices st);
           lowlinks := <[node := index_counter st]> (lowlinks st);
           sccs := sccs st |} in
      st ← for_each (λ st successor,
              match indices st !! successor with
              | None =>
                  st ← strongconnect fuel' g successor st;
                  low_node ← getitem (lowlinks st) node;
                  low_succ ← getitem (lowlinks st) successor;
                  Returned (set_lowlink st node (Z.min low_node low_succ))
              | Some index_succ =>
                  if decide (successor ∈ on_stack st) then
                    low_node ← getitem (lowlinks st) node;
                    Returned (set_lowlink st node (Z.min low_node index_succ))
                  else Returned st
              end)
            (set_iter (get_set (_depends_on g) node)) st;
      low_node ← getitem (lowlinks st) node;
      index_node ← getitem (indices st) node;
      if decide (low_node = index_node) then
        popped ← pop_scc node (stack st) (on_stack st) [];
        Returned
          {| index_counter := index_counter st;
             stack := popped.1.2;
             on_stack := popped.2;
             indices := indices st;
             lowlinks := lowlinks st;
             sccs := if (1 <? length popped.1.1)%nat
                     then sccs st ++ [popped.1.1] else sccs st |}
      else Returned st
  end.

(** A chain of nested calls visits distinct nodes, so [size nodes] units of
    fuel let every call return. *)
Definition detect_cycles (g : t) : outcome (list (list string)) :=
  st ← for_each (λ st node,
          match indices st !! node with
          | None => strongconnect (size (_nodes g)) g node st
          | Some _ => Returned st
          end)
        (set_iter (_nodes g))
        {| index_counter := 0; stack := []; on_stack := ∅; indices := ∅;
           lowlinks := ∅; sccs := [] |};
  Returned (sccs st).

(** [sum(len(deps) for deps in self._depends_on.values())] *)
Definition edge_count (g : t) : nat :=
  map_fold (λ _ deps acc, (size deps + acc)%nat) 0%nat (_depends_on g).

(** The dictionary returned by [summary], one field per key. *)
Record Summary : Type := {
  total_nodes : nat;
  total_edges : nat;
  num_layers : nat;
  cycle_count : nat;
  cycles : list (list string);
  max_chain_depth : Z;
  root_nodes : nat;
  leaf_nodes : nat
}.

Definition summary (g : t) : outcome Summary :=
  layers ← get_layers g;
  cycles ← detect_cycles g;
  Returned
    {| total_nodes := size (_nodes g);
       total_edges := edge_count g;
       num_layers := length layers;
       cycle_count := length cycles;
       cycles := cycles;
       max_chain_depth := Z.max (Z.of_nat (length layers) - 1) 0;
       root_nodes :=
         length (filter (λ node, get_set (_depends_on g) node = ∅) (elements (_nodes g)));
       leaf_nodes :=
         length (filter (λ node, get_set (_depended_by g) node = ∅) (elements (_nodes g))) |}.

End iteration_order.

(** *** Transitive dependencies and dependents *)

Section traversal.

Variable set_iter : gset string → list string.

(** [while queue: current = queue.popleft(); if current in visited: continue;
     visited.add(current); for dep in adj.get(current, set()):
     if dep not in visited: queue.append(dep)], shared by [get_ancestors]
    ([adj] is [_depends_on]) and [get_descendants] ([_depended_by]). *)
Fixpoint closure_loop (fuel : nat) (adj : gmap string (gset string))
    (visited : gset string) (queue : list string) : outcome (gset string) :=
  match queue with
  | [] => Returned visited
  | current :: queue' =>
      match fuel with
      | O => OutOfFuel
      | S fuel' =>
          if decide (current ∈ visited)
          then closure_loop fuel' adj visited queue'
          else
            let visited := visited ∪ {[current]} in
            closure_loop fuel' adj visited
              (queue' ++ filter (λ dep, dep ∉ visited)
                           (set_iter (get_set adj current)))
      end
  end.

(** A name enters the queue once for the start and once for every edge
    that leaves a visited name. *)
Definition closure_fuel (adj : gmap string (gset string)) (node : string) : nat :=
  size (get_set adj node)
  + sum_list_with (λ kv : string * gset string, size kv.2) (map_to_list adj).

Definition get_ancestors (g : t) (node : string) : outcome (gset string) :=
  closure_loop (closure_fuel (_depends_on g) node) (_depends_on g) ∅
    (set_iter (get_set (_depends_on g) node)).

Definition get_descendants (g : t) (node : string) : outcome (gset string) :=
  closure_loop (closure_fuel (_depended_by g) node) (_depended_by g) ∅
    (set_iter (get_set (_depended_by g) node)).

End traversal.

(** *** Vocabulary of the specification *)

(** [edge g a b]: [a] depends on [b]. *)
Definition edge (g : t) (a b : string) : Prop := b ∈ get_set (_depends_on g) a.

(** The graph contains a cycle: some node reaches itself along one or more
    edges. *)
Definition cyclic (g : t) : Prop := ∃ n, tc (edge g) n n.

Definition on_cycle (g : t) (n : string) : Prop := tc (edge g) n n.

(** [b] occurs strictly before [a] in [l]. *)
Definition before (l : list string) (b a : string) : Prop :=
  ∃ i j, l !! i = Some b ∧ l !! j = Some a ∧ (i < j)%nat.

(** Class invariant: the two adjacency maps mirror each other and every
    edge joins two members of [_nodes]. *)
Record wf (g : t) : Prop := {
  wf_mirror : ∀ a b, b ∈ get_set (_depends_on g) a ↔ a ∈ get_set (_depended_by g) b;
  wf_closed : ∀ a b, b ∈ get_set (_depends_on g) a → a ∈ _nodes g ∧ b ∈ _nodes g
}.

(** Invariant of the in-degree reduction shared by [topological_sort] and
    [get_layers]: [done] are the nodes already relaxed, [pending] those
    waiting in the queue (or in the rest of the current layer followed by
    the layer being collected). *)
Record kahn_inv (g : t) (in_degree : gmap string Z) (done pending : list string)
  : Prop := {
  ki_nodup : NoDup (done ++ pending);
  ki_nodes : ∀ n, n ∈ done ++ pending → n ∈ _nodes g;
  ki_degree : ∀ n, n ∈ _nodes g →
      in_degree !! n
      = Some (Z.of_nat (size (get_set (_depends_on g) n ∖ list_to_set done)));
  ki_ready : ∀ n, n ∈ _nodes g →
      (n ∈ done ++ pending ↔ get_set (_depends_on g) n ⊆ list_to_set done);
  ki_order : ∀ l1 n l2, done = l1 ++ n :: l2 →
      get_set (_depends_on g) n ⊆ list_to_set l1
}.

End DependencyGraph.


(** ** batch-grouping/modules/models.py: batches and plans *)

(** [ObjectType.value] *)
Definition ObjectType_value (ty : ObjectType) : string :=
  match ty with
  | SCHEMA => "SCHEMA" | TABLE => "TABLE" | VIEW => "VIEW"
  | STORED_PROCEDURE => "STORED_PROCEDURE" | FUNCTION => "FUNCTION"
  | STATISTICS => "STATISTICS" | EXTERNAL_TABLE => "EXTERNAL_TABLE"
  | EXTERNAL_DATA_SOURCE => "EXTERNAL_DATA_SOURCE"
  | EXTERNAL_FILE_FORMAT => "EXTERNAL_FILE_FORMAT" | SECURITY => "SECURITY"
  end.

(** *** [ObjectType.from_string] *)

(** The code points of a string. *)
Definition code_points (s : string) : list N :=
  (λ c, N_of_ascii c) <$> list_ascii_of_string s.

(** [str.upper] on one code point below 256, as code points: a-z and the
    Latin-1 small letters (0xE0-0xFE without the division sign 0xF7) move
    down by 32, the sharp s becomes two letters, and the capitals of the
    micro sign and of y with diaeresis lie above 255. *)
Definition upper_point (c : ascii) : list N :=
  let n := N_of_ascii c in
  if ((97 <=? n) && (n <=? 122) || (224 <=? n) && (n <=? 254) && negb (n =? 247))%N
  then [(n - 32)%N]
  else if (n =? 223)%N then [83%N; 83%N]
  else if (n =? 181)%N then [924%N]
  else if (n =? 255)%N then [376%N]
  else [n].

(** [s.upper()] *)
Definition upper_points (s : string) : list N :=
  c ← list_ascii_of_string s; upper_point c.

(** [.replace(" ", "_").replace("-", "_")] *)
Definition underscored (l : list N) : list N :=
  (λ n, if ((n =? 32) || (n =? 45))%N then 95%N else n) <$> l.

(** The dictionary [aliases]. *)
Definition aliases : list (string * string) :=
  [("PROC", "STORED_PROCEDURE"); ("PROCEDURE", "STORED_PROCEDURE");
   ("SP", "STORED_PROCEDURE"); ("STORED_PROC", "STORED_PROCEDURE");
   ("UDF", "FUNCTION"); ("USER_DEFINED_FUNCTION", "FUNCTION");
   ("SCALAR_FUNCTION", "FUNCTION"); ("TABLE_VALUED_FUNCTION", "FUNCTION");
   ("EXT_TABLE", "EXTERNAL_TABLE"); ("EXT_DATA_SOURCE", "EXTERNAL_DATA_SOURCE");
   ("EXT_FILE_FORMAT", "EXTERNAL_FILE_FORMAT"); ("STATS", "STATISTICS");
   ("ROLE", "SECURITY"); ("USER", "SECURITY"); ("PERMISSION", "SECURITY");
   ("DATABASE_ROLE", "SECURITY")].

(** The members of the enumeration, in the order of their declaration. *)
Definition ObjectType_members : list ObjectType :=
  [SCHEMA; TABLE; VIEW; STORED_PROCEDURE; FUNCTION; STATISTICS; EXTERNAL_TABLE;
   EXTERNAL_DATA_SOURCE; EXTERNAL_FILE_FORMAT; SECURITY].

(** [ObjectType.from_string(value)]; [None] is the [ValueError] raised for
    an unknown type. *)
Definition ObjectType_from_string (value : string) : option ObjectType :=
  let normalized := underscored (upper_points (strip value)) in
  let resolved :=
    match find (λ kv, bool_decide (code_points kv.1 = normalized)) aliases with
    | Some kv => code_points kv.2
    | None => normalized
    end in
  find (λ ty, bool_decide (code_points (ObjectType_value ty) = resolved))
    ObjectType_members.

Module Batch.

Record t : Type := {
  batch_id : Z;
  batch_name : string;
  sprint_number : Z;
  object_type_group : string;
  objects : list DatabaseObject;
  dependencies : list Z
}.

Definition total_objects (b : t) : nat := length (objects b).

(** [sum(1 for obj in self.objects if obj.passed)] and
    [sum(1 for obj in self.objects if not obj.passed)] *)
Definition passed_count (b : t) : nat :=
  length (filter (λ obj, passed obj = true) (objects b)).
Definition failed_count (b : t) : nat :=
  length (filter (λ obj, passed obj = false) (objects b)).

End Batch.

(** An entry of the plan's [warnings] list.  The balance warning prints a
    float ([{imbalance:.1f}]) and is kept as the data it is printed from;
    every other warning is the text the source builds. *)
Inductive warning : Type :=
| Text (message : string)
| BalanceWarning (group_name : string) (min_size max_size : nat) (sizes : list nat).

Module BatchPlan.

Record t : Type := {
  engagement_name : string;
  created_at : string;
  total_objects : nat;
  total_batches : nat;
  total_sprints : nat;
  batches : list Batch.t;
  dependency_summary : DependencyGraph.Summary;
  warnings : list warning
}.

End BatchPlan.

(** ** batch-grouping/modules/balanced_strategy.py *)

Module BalancedBatchingStrategy.

Definition FOUNDATION_TYPES : list ObjectType := [SCHEMA; SECURITY; FUNCTION].
Definition TABLE_TYPES : list ObjectType := [TABLE].
Definition VIEW_TYPES : list ObjectType := [VIEW].
Definition PROCEDURE_TYPES : list ObjectType := [STORED_PROCEDURE].
Definition CLEANUP_TYPES : list ObjectType :=
  [STATISTICS; EXTERNAL_TABLE; EXTERNAL_DATA_SOURCE; EXTERNAL_FILE_FORMAT].

(** The [sprint_mapping] dictionary; a key may be absent. *)
Record SprintMapping : Type := {
  foundation : option Z;
  table_batches : option (list Z);
  view_batches : option (list Z);
  procedures : option Z;
  cleanup : option Z
}.

(** The attributes set by [__init__]. *)
Record t : Type := {
  _table_batch_count : Z;
  _view_batch_count : Z;
  _balance_tolerance : Z;
  _min_batch_size : Z;
  _sprint_mapping : SprintMapping;
  _circular_resolution : string
}.

(** The strategy [__init__] builds from an empty configuration. *)
Definition defaults : t :=
  {| _table_batch_count := 4;
     _view_batch_count := 2;
     _balance_tolerance := 20;
     _min_batch_size := 3;
     _sprint_mapping :=
       {| foundation := Some 1; table_batches := Some [2; 3; 4; 5];
          view_batches := Some [6; 7]; procedures := Some 8; cleanup := Some 9 |};
     _circular_resolution := "warn" |}.

(** An f-string: the concatenation of its pieces. *)
Definition fstring (pieces : list string) : string :=
  fold_right String.append EmptyString pieces.

(** [while count > 1 and len(objects) / count < self._min_batch_size: count -= 1],
    with [count] the successor of the structural argument.  The quotient is
    compared exactly, as [len < min * count]. *)
Fixpoint reduce_count (len min_batch_size : Z) (count_pred : nat) : Z :=
  match count_pred with
  | O => 1
  | S count_pred' =>
      if len <? min_batch_size * Z.of_nat (S count_pred)
      then reduce_count len min_batch_size count_pred'
      else Z.of_nat (S count_pred)
  end.

Definition _determine_batch_count (self : t) (objects : list DatabaseObject)
    (desired_count : Z) : Z :=
  match objects with
  | [] => 0
  | _ :: _ =>
      if desired_count <=? 1 then 1
      else Z.max (reduce_count (Z.of_nat (length objects)) (_min_batch_size self)
                    (Z.to_nat desired_count - 1)) 1
  end.

(** [for layer_idx, layer_nodes in enumerate(all_layers):
       for node in layer_nodes: node_to_layer[node] = layer_idx] *)
Definition node_to_layer_of (all_layers : list (list string)) : gmap string nat :=
  fold_left (λ m il,
      fold_left (λ m node, <[node := il.1]> m) il.2 m)
    (imap pair all_layers) ∅.

(** [node_to_layer.get(o.qualified_name, 999)] *)
Definition layer_key (node_to_layer : gmap string nat) (o : DatabaseObject) : Z :=
  default 999 (Z.of_nat <$> node_to_layer !! qualified_name o).

(** [key a <= key b] for the key [(layer, -impact_score, qualified_name)]. *)
Definition placement_le (node_to_layer : gmap string nat) (a b : DatabaseObject) : bool :=
  let la := layer_key node_to_layer a in
  let lb := layer_key node_to_layer b in
  (la <? lb)
  || (la =? lb)
     && ((- impact_score a <? - impact_score b)
         || (- impact_score a =? - impact_score b)
            && String.leb (qualified_name a) (qualified_name b)).

(** [for dep_name in obj.dependencies: if dep_name in obj_to_batch:
       min_batch = max(min_batch, obj_to_batch[dep_name])] *)
Definition min_batch_for (obj_to_batch : gmap string nat) (obj : DatabaseObject) : nat :=
  fold_left (λ min_batch dep_name,
      match obj_to_batch !! dep_name with
      | Some b => Nat.max min_batch b
      | None => min_batch
      end) (dependencies obj) 0%nat.

(** [len(partitions[bi]) < best_size], with [None] for [float("inf")]. *)
Definition smaller_than (size : nat) (best_size : option nat) : bool :=
  match best_size with
  | Some s => (size <? s)%nat
  | None => true
  end.

(** The scan [for bi in range(min_batch, num_batches)].  Every index read is
    below [num_batches], the length of [partitions]. *)
Definition best_batch_for (partitions : list (list DatabaseObject))
    (min_batch num_batches : nat) : nat :=
  (fold_left (λ best bi,
       let size := length (partitions !!! bi) in
       if smaller_than size best.2 then (bi, Some size) else best)
     (seq min_batch (num_batches - min_batch))
     (min_batch,
      if (min_batch <? num_batches)%nat
      then Some (length (partitions !!! min_batch)) else None)).1.

(** Body of the placement loop: [partitions[best_batch].append(obj)] and
    [obj_to_batch[obj.qualified_name] = best_batch]. *)
Definition place (num_batches : nat)
    (st : list (list DatabaseObject) * gmap string nat) (obj : DatabaseObject)
  : outcome (list (list DatabaseObject) * gmap string nat) :=
  let min_batch := min_batch_for st.2 obj in
  let best_batch := best_batch_for st.1 min_batch num_batches in
  if (best_batch <? length st.1)%nat
  then Returned (alter (λ p, p ++ [obj]) best_batch st.1,
                 <[qualified_name obj := best_batch]> st.2)
  else Raised IndexError.

(** [max(sizes)] and [min(sizes)] of a non-empty list. *)
Definition list_max (l : list nat) : nat := fold_right Nat.max 0%nat l.
Definition list_min (l : list nat) : nat :=
  match l with
  | [] => 0%nat
  | x :: l' => fold_left Nat.min l' x
  end.

(** [l.index(x)] for an [x] that occurs in [l]. *)
Fixpoint index_of (x : nat) (l : list nat) : nat :=
  match l with
  | [] => 0%nat
  | y :: l' => if decide (y = x) then 0%nat else S (index_of x l')
  end.

(** [l.remove(x)]: the first element equal to [x] goes. *)
Fixpoint remove_first (x : DatabaseObject) (l : list DatabaseObject)
  : list DatabaseObject :=
  match l with
  | [] => []
  | y :: l' => if decide (y = x) then l' else y :: remove_first x l'
  end.

(** [key a <= key b] for the key [(impact_score, qualified_name)]. *)
Definition candidate_le (a b : DatabaseObject) : bool :=
  (impact_score a <? impact_score b)
  || (impact_score a =? impact_score b)
     && String.leb (qualified_name a) (qualified_name b).

Section environment.

(** Iteration order of sets, see [DependencyGraph.detect_cycles]. *)
Variable set_iter : gset string → list string.

(** [imbalance_le max_size min_size total num_batches tolerance] is the
    floating-point test [((max_size - min_size) / (total / num_batches)) * 100
    <= tolerance].  Binary64 rounding decides it at the boundary, so the
    test is an input of the model. *)
Variable imbalance_le : nat → nat → nat → nat → Z → bool.

(** The reading of the clock, [datetime.now(timezone.utc).isoformat()]. *)
Variable now : string.

(** The two guarded checks on a [candidate] of the largest batch. *)
Definition can_move (graph : DependencyGraph.t) (obj_to_batch : gmap string nat)
    (num_batches largest_idx smallest_idx : nat) (candidate : DatabaseObject) : bool :=
  (if (smallest_idx <? largest_idx)%nat then
     forallb (λ dep_name,
         let dep_batch := default (-1) (Z.of_nat <$> obj_to_batch !! dep_name) in
         negb (Z.of_nat smallest_idx <? dep_batch))
       (dependencies candidate)
   else true)
  && (if (largest_idx <? smallest_idx)%nat then
        forallb (λ dependent_name,
            let dep_batch :=
              default (Z.of_nat num_batches) (Z.of_nat <$> obj_to_batch !! dependent_name) in
            negb (dep_batch <? Z.of_nat smallest_idx))
          (elements (DependencyGraph.get_dependents graph (qualified_name candidate)))
      else true).

(** One iteration of the loop of [_rebalance]; [None] is a [break]. *)
Definition rebalance_step (self : t) (graph : DependencyGraph.t) (total : nat)
    (st : list (list DatabaseObject) * gmap string nat)
  : option (list (list DatabaseObject) * gmap string nat) :=
  let partitions := st.1 in
  let num_batches := length partitions in
  let sizes := length <$> partitions in
  let max_size := list_max sizes in
  let min_size := list_min sizes in
  if imbalance_le max_size min_size total num_batches (_balance_tolerance self)
  then None
  else
    let largest_idx := index_of max_size sizes in
    let smallest_idx := index_of min_size sizes in
    if decide (largest_idx = smallest_idx) then None
    else
      let candidates := sorted_by candidate_le (partitions !!! largest_idx) in
      match find (can_move graph st.2 num_batches largest_idx smallest_idx) candidates with
      | Some candidate =>
          Some (alter (λ p, p ++ [candidate]) smallest_idx
                  (alter (remove_first candidate) largest_idx partitions),
                <[qualified_name candidate := smallest_idx]> st.2)
      | None => None
      end.

(** [for _ in range(max_iterations)] *)
Fixpoint rebalance_loop (self : t) (graph : DependencyGraph.t) (total : nat)
    (iterations : nat) (st : list (list DatabaseObject) * gmap string nat)
  : list (list DatabaseObject) * gmap string nat :=
  match iterations with
  | O => st
  | S iterations' =>
      match rebalance_step self graph total st with
      | None => st
      | Some st' => rebalance_loop self graph total iterations' st'
      end
  end.

(** The early returns test an empty list and a zero total; the quotient
    [total / num_batches] is zero only when [total] is. *)
Definition _rebalance (self : t) (partitions : list (list DatabaseObject))
    (obj_to_batch : gmap string nat) (graph : DependencyGraph.t)
  : list (list DatabaseObject) :=
  let total := length (concat partitions) in
  match partitions, total with
  | [], _ => partitions
  | _, O => partitions
  | _, _ => (rebalance_loop self graph total total (partitions, obj_to_batch)).1
  end.

(** The state of [_partition_balanced] when the placement loop ends. *)
Definition greedy_placement (objects : list DatabaseObject) (num_batches : nat)
    (all_layers : list (list string))
  : outcome (list (list DatabaseObject) * gmap string nat) :=
  let node_to_layer := node_to_layer_of all_layers in
  let sorted_objs := sorted_by (placement_le node_to_layer) objects in
  for_each (place num_batches) sorted_objs (replicate num_batches [], ∅).

Definition _partition_balanced (self : t) (objects : list DatabaseObject)
    (num_batches : Z) (graph : DependencyGraph.t)
  : outcome (list (list DatabaseObject)) :=
  if num_batches <=? 0 then Returned []
  else if num_batches =? 1 then Returned [objects]
  else
    all_layers ← DependencyGraph.get_layers graph;
    st ← greedy_placement objects (Z.to_nat num_batches) all_layers;
    Returned (_rebalance self st.1 st.2 graph).

(** *** Validation *)

Definition batch_name_of (batches : list Batch.t) (id : Z) : string :=
  match find (λ b, Batch.batch_id b =? id) batches with
  | Some b => Batch.batch_name b
  | None => EmptyString
  end.

Definition _validate_batch_dependencies (batches : list Batch.t)
    (graph : DependencyGraph.t) : list warning :=
  let obj_to_batch : gmap string Z :=
    fold_left (λ m batch,
        fold_left (λ m obj, <[qualified_name obj := Batch.batch_id batch]> m)
          (Batch.objects batch) m)
      batches ∅ in
  batch ← batches;
  obj ← Batch.objects batch;
  dep_name ← set_iter (DependencyGraph.get_dependencies graph (qualified_name obj));
  match obj_to_batch !! dep_name with
  | Some dep_batch_id =>
      if Batch.batch_id batch <? dep_batch_id then
        [Text (fstring
           ["Dependency violation: '"; qualified_name obj; "' in '";
            Batch.batch_name batch; "' (batch "; pretty (Batch.batch_id batch);
            ") depends on '"; dep_name; "' in '"; batch_name_of batches dep_batch_id;
            "' (batch "; pretty dep_batch_id; "). '"; dep_name;
            "' should be in an earlier batch."])]
      else []
  | None => []
  end.

(** The keys of [groups] in the order [setdefault] created them. *)
Fixpoint first_occurrences (seen l : list string) : list string :=
  match l with
  | [] => []
  | x :: l' =>
      if decide (x ∈ seen) then first_occurrences seen l'
      else x :: first_occurrences (x :: seen) l'
  end.

Definition _validate_balance (self : t) (batches : list Batch.t) : list warning :=
  group_name ← first_occurrences [] (Batch.object_type_group <$> batches);
  let group_batches :=
    filter (λ b, Batch.object_type_group b = group_name) batches in
  if (length group_batches <=? 1)%nat then []
  else
    let sizes := Batch.total_objects <$> group_batches in
    let total := fold_right Nat.add 0%nat sizes in
    if (total =? 0)%nat then []
    else
      let max_size := list_max sizes in
      let min_size := list_min sizes in
      if imbalance_le max_size min_size total (length sizes) (_balance_tolerance self)
      then []
      else [BalanceWarning group_name min_size max_size sizes].

(** *** Plan assembly *)

(** [sprint_list[i] if i < len(sprint_list)
     else sprint_list[-1] + (i - len(sprint_list) + 1)] *)
Definition sprint_at (sprint_list : list Z) (i : nat) : outcome Z :=
  match sprint_list !! i with
  | Some s => Returned s
  | None =>
      match last sprint_list with
      | Some s => Returned (s + (Z.of_nat i - Z.of_nat (length sprint_list) + 1))
      | None => Raised IndexError
      end
  end.

Definition batch_ids_of (group : string) (batches : list Batch.t) : list Z :=
  Batch.batch_id <$> filter (λ b, Batch.object_type_group b = group) batches.

(** [for i, partition in enumerate(partitions): ... batches.append(...);
     batch_id_counter += 1] *)
Definition add_split_batches (label group : string) (sprint_list : list Z)
    (deps : list Z) (partitions : list (list DatabaseObject))
    (st : list Batch.t * Z) : outcome (list Batch.t * Z) :=
  for_each (λ st ip,
      sprint_num ← sprint_at sprint_list ip.1;
      Returned
        (st.1 ++ [{| Batch.batch_id := st.2;
                     Batch.batch_name := fstring [label; pretty (ip.1 + 1)%nat];
                     Batch.sprint_number := sprint_num;
                     Batch.object_type_group := group;
                     Batch.objects := ip.2;
                     Batch.dependencies := deps |}],
         st.2 + 1))
    (imap pair partitions) st.

(** A stage that becomes one batch when it has objects. *)
Definition add_single_batch (batch_name group : string) (sprint : Z) (deps : list Z)
    (objs : list DatabaseObject) (st : list Batch.t * Z) : list Batch.t * Z :=
  match objs with
  | [] => st
  | _ :: _ =>
      (st.1 ++ [{| Batch.batch_id := st.2;
                   Batch.batch_name := batch_name;
                   Batch.sprint_number := sprint;
                   Batch.object_type_group := group;
                   Batch.objects :=
                     sorted_by (λ a b, String.leb (qualified_name a) (qualified_name b)) objs;
                   Batch.dependencies := deps |}],
       st.2 + 1)
  end.

Definition in_group (types : list ObjectType) (obj : DatabaseObject) : Prop :=
  object_type obj ∈ types.

#[global] Instance in_group_dec types obj : Decision (in_group types obj).
Proof. unfold in_group. apply _. Defined.

(** The five lists of step 1; an object of no listed type joins the cleanup
    list. *)
Definition foundation_of (objects : list DatabaseObject) : list DatabaseObject :=
  filter (in_group FOUNDATION_TYPES) objects.
Definition tables_of (objects : list DatabaseObject) : list DatabaseObject :=
  filter (λ o, ¬ in_group FOUNDATION_TYPES o ∧ in_group TABLE_TYPES o) objects.
Definition views_of (objects : list DatabaseObject) : list DatabaseObject :=
  filter (λ o, ¬ in_group FOUNDATION_TYPES o ∧ ¬ in_group TABLE_TYPES o
               ∧ in_group VIEW_TYPES o) objects.
Definition procedures_of (objects : list DatabaseObject) : list DatabaseObject :=
  filter (λ o, ¬ in_group FOUNDATION_TYPES o ∧ ¬ in_group TABLE_TYPES o
               ∧ ¬ in_group VIEW_TYPES o ∧ in_group PROCEDURE_TYPES o) objects.
Definition cleanup_of (objects : list DatabaseObject) : list DatabaseObject :=
  filter (λ o, ¬ in_group FOUNDATION_TYPES o ∧ ¬ in_group TABLE_TYPES o
               ∧ ¬ in_group VIEW_TYPES o ∧ ¬ in_group PROCEDURE_TYPES o) objects.

Definition unrecognized_warnings (objects : list DatabaseObject) : list warning :=
  (λ obj, Text (fstring ["Object '"; qualified_name obj; "' has unrecognized type '";
                         ObjectType_value (object_type obj);
                         "'; assigned to cleanup batch."]))
  <$> filter (λ o, ¬ in_group CLEANUP_TYPES o) (cleanup_of objects).

(** [f"Circular dependency detected: {' -> '.join(cycle)}"] *)
Definition cycle_message (cycle : list string) : string :=
  fstring ["Circular dependency detected: "; join " -> " cycle].

(** [for cycle in cycles: ...]: the first cycle raises under ["error"],
    every cycle is recorded under ["warn"], nothing happens otherwise. *)
Definition handle_cycles (self : t) (cycles : list (list string))
    (warnings : list warning) : outcome (list warning) :=
  for_each (λ warnings cycle,
      if decide (_circular_resolution self = "error")
      then Raised (ValueError_circular (cycle_message cycle))
      else if decide (_circular_resolution self = "warn")
      then Returned (warnings ++ [Text (cycle_message cycle)])
      else Returned warnings)
    cycles warnings.

Definition create_plan (self : t) (objects : list DatabaseObject)
    (graph : DependencyGraph.t) (engagement_name : string) : outcome BatchPlan.t :=
  let foundation_objs := foundation_of objects in
  let table_objs := tables_of objects in
  let view_objs := views_of objects in
  let procedure_objs := procedures_of objects in
  let cleanup_objs := cleanup_of objects in
  let warnings := unrecognized_warnings objects in
  cycles ← DependencyGraph.detect_cycles set_iter graph;
  warnings ← handle_cycles self cycles warnings;
  let mapping := _sprint_mapping self in
  let st := add_single_batch "Foundation" "foundation"
              (default 1 (foundation mapping)) [] foundation_objs ([], 1) in
  let warnings :=
    match foundation_objs with
    | [] => warnings
             ++ [Text "No foundation objects (schemas, security, functions) found."]
    | _ :: _ => warnings
    end in
  let foundation_batch_ids := batch_ids_of "foundation" st.1 in
  let actual_table_batch_count :=
    _determine_batch_count self table_objs (_table_batch_count self) in
  st ← match table_objs with
       | [] => Returned st
       | _ :: _ =>
           table_partitions ←
             _partition_balanced self table_objs actual_table_batch_count graph;
           add_split_batches "Table Batch " "table"
             (default [2; 3; 4; 5] (table_batches mapping))
             foundation_batch_ids table_partitions st
       end;
  let table_batch_ids := batch_ids_of "table" st.1 in
  let actual_view_batch_count :=
    _determine_batch_count self view_objs (_view_batch_count self) in
  st ← match view_objs with
       | [] => Returned st
       | _ :: _ =>
           view_partitions ←
             _partition_balanced self view_objs actual_view_batch_count graph;
           add_split_batches "View Batch " "view"
             (default [6; 7] (view_batches mapping))
             (table_batch_ids ++ foundation_batch_ids) view_partitions st
       end;
  let view_batch_ids := batch_ids_of "view" st.1 in
  let st := add_single_batch "Stored Procedures" "procedure"
              (default 8 (procedures mapping))
              (table_batch_ids ++ view_batch_ids ++ foundation_batch_ids)
              procedure_objs st in
  let procedure_batch_ids := batch_ids_of "procedure" st.1 in
  let st := add_single_batch "Cleanup & External" "cleanup"
              (default 9 (cleanup mapping))
              (foundation_batch_ids ++ table_batch_ids ++ view_batch_ids
               ++ procedure_batch_ids)
              cleanup_objs st in
  let batches := st.1 in
  let warnings := warnings ++ _validate_balance self batches in
  let warnings := warnings ++ _validate_batch_dependencies batches graph in
  dependency_summary ← DependencyGraph.summary set_iter graph;
  Returned
    {| BatchPlan.engagement_name := engagement_name;
       BatchPlan.created_at := now;
       BatchPlan.total_objects :=
         fold_right Nat.add 0%nat (Batch.total_objects <$> batches);
       BatchPlan.total_batches := length batches;
       BatchPlan.total_sprints :=
         size (list_to_set (C := gset Z) (Batch.sprint_number <$> batches));
       BatchPlan.batches := batches;
       BatchPlan.dependency_summary := dependency_summary;
       BatchPlan.warnings := warnings |}.

End environment.

(** *** [_assign_sprints] *)

Definition with_sprint (b : Batch.t) (sprint : Z) : Batch.t :=
  {| Batch.batch_id := Batch.batch_id b;
     Batch.batch_name := Batch.batch_name b;
     Batch.sprint_number := sprint;
     Batch.object_type_group := Batch.object_type_group b;
     Batch.objects := Batch.objects b;
     Batch.dependencies := Batch.dependencies b |}.

(** Body of the loop: the batches seen so far with their sprints set,
    [table_idx] and [view_idx]. *)
Definition assign_sprint (mapping : SprintMapping)
    (st : list Batch.t * nat * nat) (batch : Batch.t)
  : outcome (list Batch.t * nat * nat) :=
  let table_sprints := default [2; 3; 4; 5] (table_batches mapping) in
  let view_sprints := default [6; 7] (view_batches mapping) in
  let group := Batch.object_type_group batch in
  if decide (group = "foundation") then
    Returned (st.1.1 ++ [with_sprint batch (default 1 (foundation mapping))],
              st.1.2, st.2)
  else if decide (group = "table") then
    sprint ← sprint_at table_sprints st.1.2;
    Returned (st.1.1 ++ [with_sprint batch sprint], S st.1.2, st.2)
  else if decide (group = "view") then
    sprint ← sprint_at view_sprints st.2;
    Returned (st.1.1 ++ [with_sprint batch sprint], st.1.2, S st.2)
  else if decide (group = "procedure") then
    Returned (st.1.1 ++ [with_sprint batch (default 8 (procedures mapping))],
              st.1.2, st.2)
  else if decide (group = "cleanup") then
    Returned (st.1.1 ++ [with_sprint batch (default 9 (cleanup mapping))],
              st.1.2, st.2)
  else Returned (st.1.1 ++ [batch], st.1.2, st.2).

Definition _assign_sprints (batches : list Batch.t) (sprint_mapping : SprintMapping)
  : outcome (list Batch.t) :=
  st ← for_each (assign_sprint sprint_mapping) batches ([], 0%nat, 0%nat);
  Returned st.1.1.

(** The imbalance test evaluated exactly, without rounding. *)
Definition imbalance_le_exact (max_size min_size total num_batches : nat)
    (tolerance : Z) : bool :=
  (Z.of_nat (max_size - min_size) * Z.of_nat num_batches * 100 <=? tolerance * Z.of_nat total).

(** *** Vocabulary of the specification *)

(** [batch_of partitions o i]: object [o] sits in the batch of index [i]. *)
Definition batch_of (partitions : list (list DatabaseObject)) (o : DatabaseObject)
    (i : nat) : Prop :=
  ∃ p, partitions !! i = Some p ∧ o ∈ p.

(** No object sits in a batch before the batch of a dependency that is in
    the partition too. *)
Definition respects_dependencies (partitions : list (list DatabaseObject)) : Prop :=
  ∀ o d i j,
    batch_of partitions o i → batch_of partitions d j →
    qualified_name d ∈ dependencies o → (j ≤ i)%nat.

(** The bookkeeping dictionary agrees with where the objects are. *)
Definition tracked (partitions : list (list DatabaseObject))
    (obj_to_batch : gmap string nat) : Prop :=
  NoDup (qualified_name <$> concat partitions)
  ∧ (∀ o i, batch_of partitions o i → obj_to_batch !! qualified_name o = Some i)
  ∧ (∀ q i, obj_to_batch !! q = Some i →
       ∃ o, qualified_name o = q ∧ batch_of partitions o i).

End BalancedBatchingStrategy.


(** ** assessment-processor/modules/parser.py: the object model *)

Module AssessmentObject.

Record t : Type := {
  name : string;
  object_type : string;
  schema_name : string;
  status : string;
  failure_reason : string;
  dependencies : list string;
  impact_score : Z;
  failure_category : string
}.

Definition qualified_name (o : t) : string :=
  String.append (schema_name o) (String "."%char (name o)).

(** [self.status.upper() == "FAILED"] *)
Definition is_failed (o : t) : bool := String.eqb (upper (status o)) "FAILED".

Definition with_impact_score (o : t) (score : Z) : t :=
  {| name := name o; object_type := object_type o; schema_name := schema_name o;
     status := status o; failure_reason := failure_reason o;
     dependencies := dependencies o; impact_score := score;
     failure_category := failure_category o |}.

End AssessmentObject.

(** ** [networkx.DiGraph], as far as the analyzer uses it

    Nodes and edges are kept in insertion order, which is the order
    networkx iterates them in.  An edge is listed once; adding it again
    replaces its attribute in place. *)

Module DiGraph.

(** The keyword attributes [build_graph] stores on a node. *)
Record node_data : Type := {
  nd_name : string;
  nd_qualified_name : string;
  nd_object_type : string;
  nd_schema_name : string;
  nd_status : string;
  nd_failure_reason : string
}.

Record t : Type := {
  nodes : list (string * option node_data);
  edges : list (string * string * string)
}.

Definition empty : t := {| nodes := []; edges := [] |}.

Definition node_keys (g : t) : list string := fst <$> nodes g.

Definition has_node (g : t) (key : string) : bool := bool_decide (key ∈ node_keys g).

Definition has_edge (g : t) (u v : string) : bool :=
  bool_decide ((u, v) ∈ fst <$> edges g).

(** [graph.add_node(key, **attrs)] *)
Definition add_node (g : t) (key : string) (data : option node_data) : t :=
  if has_node g key
  then {| nodes := (λ kd, if decide (kd.1 = key) then (key, data) else kd) <$> nodes g;
          edges := edges g |}
  else {| nodes := nodes g ++ [(key, data)]; edges := edges g |}.

(** An end point that [add_edge] meets for the first time becomes a node
    without attributes. *)
Definition touch_node (g : t) (key : string) : t :=
  if has_node g key then g
  else {| nodes := nodes g ++ [(key, None)]; edges := edges g |}.

(** [graph.add_edge(u, v, edge_type=edge_type)] *)
Definition add_edge (g : t) (u v edge_type : string) : t :=
  let g := touch_node (touch_node g u) v in
  if has_edge g u v
  then {| nodes := nodes g;
          edges := (λ e, if decide (e.1 = (u, v)) then (u, v, edge_type) else e) <$> edges g |}
  else {| nodes := nodes g; edges := edges g ++ [(u, v, edge_type)] |}.

(** [graph.successors(n)] and [graph.predecessors(n)], for a node [n].  For
    a key that is no node networkx raises [NetworkXError] instead; the
    searches below ask for the neighbours of their start key and of
    neighbours found, so the start key alone can be such a key, which
    [ancestors_or_error] accounts for. *)
Definition successors (g : t) (n : string) : list string :=
  (λ e, e.1.2) <$> filter (λ e, e.1.1 = n) (edges g).

Definition predecessors (g : t) (n : string) : list string :=
  (λ e, e.1.1) <$> filter (λ e, e.1.2 = n) (edges g).

Definition number_of_nodes (g : t) : nat := length (nodes g).
Definition number_of_edges (g : t) : nat := length (edges g).

End DiGraph.

(** ** assessment-processor/modules/dependency_analyzer.py *)

Module DependencyAnalyzer.

(** What the module's [logger] is given, in order. *)
Inductive log_record : Type :=
| DependencyNotFound (dep qualified_name : string)
| ImplicitStatistics (qualified_name table_key : string)
| ImplicitExternal (qualified_name src_key : string)
| GraphBuilt (n_nodes n_edges : nat).

(** [obj.qualified_name.lower()] *)
Definition key_of (obj : AssessmentObject.t) : string :=
  lower (AssessmentObject.qualified_name obj).

Definition node_data_of (obj : AssessmentObject.t) : DiGraph.node_data :=
  {| DiGraph.nd_name := AssessmentObject.name obj;
     DiGraph.nd_qualified_name := AssessmentObject.qualified_name obj;
     DiGraph.nd_object_type := AssessmentObject.object_type obj;
     DiGraph.nd_schema_name := AssessmentObject.schema_name obj;
     DiGraph.nd_status := AssessmentObject.status obj;
     DiGraph.nd_failure_reason := AssessmentObject.failure_reason obj |}.

(** The key a declared dependency of [obj] resolves to. *)
Definition resolve (obj : AssessmentObject.t) (dep : string) : string :=
  let dep_lower := lower (strip dep) in
  if has_dot dep_lower then dep_lower
  else String.append (lower (AssessmentObject.schema_name obj))
         (String "."%char dep_lower).

(** Body of the loop over [obj.dependencies]. *)
Definition add_explicit_dep (all_keys : gset string) (obj : AssessmentObject.t)
    (st : DiGraph.t * list log_record) (dep : string) : DiGraph.t * list log_record :=
  let dep_lower := resolve obj dep in
  if decide (dep_lower ∈ all_keys)
  then (DiGraph.add_edge st.1 (key_of obj) dep_lower "explicit", st.2)
  else (st.1, st.2 ++ [DependencyNotFound dep (AssessmentObject.qualified_name obj)]).

Definition add_explicit_deps (all_keys : gset string)
    (st : DiGraph.t * list log_record) (obj : AssessmentObject.t)
  : DiGraph.t * list log_record :=
  fold_left (add_explicit_dep all_keys obj) (AssessmentObject.dependencies obj) st.

(** [graph.add_edge(u, v, edge_type="implicit")] under
    [if not graph.has_edge(u, v)], with its debug record. *)
Definition add_implicit_edge (record : log_record) (u : string)
    (st : DiGraph.t * list log_record) (v : string) : DiGraph.t * list log_record :=
  if DiGraph.has_edge st.1 u v then st
  else (DiGraph.add_edge st.1 u v "implicit", st.2 ++ [record]).

(** [if obj.object_type == "STATISTICS": ...]; [tables_by_schema.get(schema_lower, [])]
    is the list of the keys of the tables of that schema, in input order. *)
Definition statistics_rule (objects : list AssessmentObject.t)
    (obj : AssessmentObject.t) (st : DiGraph.t * list log_record)
  : DiGraph.t * list log_record :=
  if decide (AssessmentObject.object_type obj = "STATISTICS") then
    let name_lower := lower (AssessmentObject.name obj) in
    let schema_lower := lower (AssessmentObject.schema_name obj) in
    let tables :=
      key_of <$> filter (λ t, AssessmentObject.object_type t = "TABLE"
                              ∧ lower (AssessmentObject.schema_name t) = schema_lower)
                   objects in
    fold_left (λ st table_key,
        if is_substring (after_first_dot table_key) name_lower
        then add_implicit_edge
               (ImplicitStatistics (AssessmentObject.qualified_name obj) table_key)
               (key_of obj) st table_key
        else st) tables st
  else st.

(** [if obj.object_type == "EXTERNAL_TABLE": for src_key in ext_sources: ...] *)
Definition external_table_rule (ext_sources : list string)
    (obj : AssessmentObject.t) (st : DiGraph.t * list log_record)
  : DiGraph.t * list log_record :=
  if decide (AssessmentObject.object_type obj = "EXTERNAL_TABLE") then
    fold_left (λ st src_key,
        add_implicit_edge
          (ImplicitExternal (AssessmentObject.qualified_name obj) src_key)
          (key_of obj) st src_key) ext_sources st
  else st.

(** Body of the second loop of [_add_implicit_dependencies]. *)
Definition add_implicit_obj (objects : list AssessmentObject.t) (ext_sources : list string)
    (st : DiGraph.t * list log_record) (obj : AssessmentObject.t)
  : DiGraph.t * list log_record :=
  external_table_rule ext_sources obj (statistics_rule objects obj st).

Definition _add_implicit_dependencies (objects : list AssessmentObject.t)
    (st : DiGraph.t * list log_record) : DiGraph.t * list log_record :=
  let ext_sources :=
    key_of <$> filter (λ o, AssessmentObject.object_type o = "EXTERNAL_DATA_SOURCE")
                 objects in
  fold_left (add_implicit_obj objects ext_sources) objects st.

(** [build_graph], returning the graph and what was logged. *)
Definition build_graph (objects : list AssessmentObject.t) : DiGraph.t * list log_record :=
  let graph :=
    fold_left (λ g obj, DiGraph.add_node g (key_of obj) (Some (node_data_of obj)))
      objects DiGraph.empty in
  let all_keys : gset string := list_to_set (DiGraph.node_keys graph) in
  let st := fold_left (add_explicit_deps all_keys) objects (graph, []) in
  let st := _add_implicit_dependencies objects st in
  (st.1, st.2 ++ [GraphBuilt (DiGraph.number_of_nodes st.1) (DiGraph.number_of_edges st.1)]).

(** Body of [for predecessor in self.graph.predecessors(current)]. *)
Definition visit (node_key : string) (depth : Z)
    (st : gset string * list (string * Z)) (neighbour : string)
  : gset string * list (string * Z) :=
  if decide ((neighbour ∉ st.1) ∧ neighbour ≠ node_key)
  then (st.1 ∪ {[neighbour]}, st.2 ++ [(neighbour, depth + 1)])
  else st.

(** [while queue: current, depth = queue.popleft(); ...], shared by
    [_get_ancestors] ([neighbours] are successors) and [_get_descendants]
    (predecessors). *)
Fixpoint bfs (fuel : nat) (neighbours : string → list string) (node_key : string)
    (max_depth : Z) (visited : gset string) (queue : list (string * Z))
  : outcome (gset string) :=
  match queue with
  | [] => Returned visited
  | (current, depth) :: queue' =>
      match fuel with
      | O => OutOfFuel
      | S fuel' =>
          if max_depth <=? depth
          then bfs fuel' neighbours node_key max_depth visited queue'
          else
            let st := fold_left (visit node_key depth) (neighbours current)
                        (visited, queue') in
            bfs fuel' neighbours node_key max_depth st.1 st.2
      end
  end.

(** Every node enters the queue at most once, the start node apart. *)
Definition bfs_fuel (g : DiGraph.t) : nat := S (length (DiGraph.edges g)).

(** The two searches, for a start key that is a node or a depth bound that
    allows no step. *)
Definition _get_ancestors (g : DiGraph.t) (max_depth : Z) (node_key : string)
  : outcome (gset string) :=
  bfs (bfs_fuel g) (DiGraph.successors g) node_key max_depth ∅ [(node_key, 0)].

Definition _get_descendants (g : DiGraph.t) (max_depth : Z) (node_key : string)
  : outcome (gset string) :=
  bfs (bfs_fuel g) (DiGraph.predecessors g) node_key max_depth ∅ [(node_key, 0)].

(** [calculate_impact_scores]: [scores[obj_key] = len(descendants)] for
    every failed object. *)
Definition calculate_impact_scores (objects : list AssessmentObject.t)
    (g : DiGraph.t) (max_depth : Z) : outcome (gmap string Z) :=
  for_each (λ scores obj,
      if AssessmentObject.is_failed obj then
        descendants ← _get_descendants g max_depth (key_of obj);
        Returned (<[key_of obj := Z.of_nat (size descendants)]> scores)
      else Returned scores)
    objects ∅.

(** The attributes set by [__init__]. *)
Record t : Type := {
  objects : list AssessmentObject.t;
  max_depth : Z;
  enable_impact_scoring : bool;
  _object_map : gmap string AssessmentObject.t;
  graph : DiGraph.t;
  _impact_scores : gmap string Z;
  log : list log_record
}.

(** [DependencyAnalyzer(objects, max_depth, enable_impact_scoring)]; the
    scores are written back onto the objects. *)
Definition __init__ (objs : list AssessmentObject.t) (max_depth : Z)
    (enable_impact_scoring : bool) : outcome t :=
  let object_map := fold_left (λ m obj, <[key_of obj := obj]> m) objs ∅ in
  let built := build_graph objs in
  scores ← (if enable_impact_scoring
            then calculate_impact_scores objs built.1 max_depth
            else Returned ∅);
  Returned
    {| objects :=
         if enable_impact_scoring
         then (λ obj, AssessmentObject.with_impact_score obj
                        (default 0 (scores !! key_of obj))) <$> objs
         else objs;
       max_depth := max_depth;
       enable_impact_scoring := enable_impact_scoring;
       _object_map := object_map;
       graph := built.1;
       _impact_scores := scores;
       log := built.2 |}.

(** *** Primary and dependent failures *)

(** [self._object_map.get(key.lower())] *)
Definition _get_object (a : t) (key : string) : option AssessmentObject.t :=
  _object_map a !! lower key.

(** [self.graph.nodes.get(node_key, {})]: the attributes of a node, none for
    a key that is no node or a node without attributes. *)
Definition node_attributes (g : DiGraph.t) (node_key : string)
  : option DiGraph.node_data :=
  match find (λ kd, bool_decide (kd.1 = node_key)) (DiGraph.nodes g) with
  | Some kd => kd.2
  | None => None
  end.

(** [data.get("status", "").upper() == "FAILED"] *)
Definition _is_failed_node (g : DiGraph.t) (node_key : string) : bool :=
  String.eqb
    (upper (default EmptyString (DiGraph.nd_status <$> node_attributes g node_key)))
    "FAILED".

(** [self._get_ancestors(obj_key)] under [try: ... except nx.NetworkXError]:
    [graph.successors] raises for a key that is no node, which the search
    asks for its start alone and only when some depth is allowed; [None]
    is the caught exception. *)
Definition ancestors_or_error (g : DiGraph.t) (max_depth : Z) (obj_key : string)
  : outcome (option (gset string)) :=
  if (0 <? max_depth) && negb (DiGraph.has_node g obj_key) then Returned None
  else ancestors ← _get_ancestors g max_depth obj_key; Returned (Some ancestors).

(** [any(self._is_failed_node(a) for a in ancestors)], and the loop with
    [break] of [identify_primary_failures], which computes the same. *)
Definition has_failed (g : DiGraph.t) (ancestors : gset string) : bool :=
  bool_decide (∃ a, a ∈ ancestors ∧ _is_failed_node g a = true).

(** [key a <= key b] for [sort(key=lambda o: o.impact_score, reverse=True)],
    which keeps the objects of one score in their order. *)
Definition by_impact_descending (a b : AssessmentObject.t) : bool :=
  AssessmentObject.impact_score b <=? AssessmentObject.impact_score a.

Definition identify_primary_failures (a : t) : outcome (list AssessmentObject.t) :=
  primary ← for_each (λ primary obj,
      if AssessmentObject.is_failed obj then
        found ← ancestors_or_error (graph a) (max_depth a) (key_of obj);
        let has_upstream_failure :=
          match found with
          | Some ancestors => has_failed (graph a) ancestors
          | None => false
          end in
        Returned (if has_upstream_failure then primary else primary ++ [obj])
      else Returned primary)
    (objects a) [];
  Returned (sorted_by by_impact_descending primary).

Definition identify_dependent_failures (a : t) : outcome (list AssessmentObject.t) :=
  dependent ← for_each (λ dependent obj,
      if AssessmentObject.is_failed obj then
        found ← ancestors_or_error (graph a) (max_depth a) (key_of obj);
        Returned
          match found with
          | Some ancestors =>
              if has_failed (graph a) ancestors then dependent ++ [obj]
              else dependent
          | None => dependent
          end
      else Returned dependent)
    (objects a) [];
  Returned (sorted_by by_impact_descending dependent).

(** *** Vocabulary of the specification *)

(** [dependent g a b]: [b] depends on [a] directly, the edge [b -> a]. *)
Definition dependent (g : DiGraph.t) (a b : string) : Prop :=
  b ∈ DiGraph.predecessors g a.

(** [b] is reached from [a] in exactly [k] steps of [R]. *)
Fixpoint reach (R : string → string → Prop) (k : nat) (a b : string) : Prop :=
  match k with
  | O => a = b
  | S k' => ∃ c, reach R k' a c ∧ R c b
  end.

(** [n'] depends on [n] through a chain of at most [max_depth] edges. *)
Definition descendant_within (g : DiGraph.t) (max_depth : Z) (n n' : string) : Prop :=
  n' ≠ n ∧ ∃ k, (1 ≤ k)%nat ∧ Z.of_nat k ≤ max_depth ∧ reach (dependent g) k n n'.

(** [n'] transitively depends on [n]. *)
Definition descendant (g : DiGraph.t) (n n' : string) : Prop :=
  n' ≠ n ∧ tc (dependent g) n n'.

(** [n'] is reached from [n] through at most [max_depth] dependency edges. *)
Definition ancestor_within (g : DiGraph.t) (max_depth : Z) (n n' : string) : Prop :=
  n' ≠ n
  ∧ ∃ k, (1 ≤ k)%nat ∧ Z.of_nat k ≤ max_depth
         ∧ reach (λ a b, b ∈ DiGraph.successors g a) k n n'.

End DependencyAnalyzer.


(** ** Invariants and vocabulary used by the proofs *)

Module GraphInvariant.
Import DependencyGraph.

(** What one step of each loop of the constructor does to nodes, edges and
    the object map. *)
Record extends (g g' : t) : Prop := {
  ext_nodes : _nodes g ⊆ _nodes g';
  ext_edges : ∀ a b, edge g a b → edge g' a b;
  ext_map : _object_map g' = _object_map g
}.

(** A step keeps a property and extends the graph, for the loops of
    [add_implicit_edges]. *)
Definition grows (P : t → Prop) (f : t → t) : Prop :=
  ∀ g, (P g → P (f g)) ∧ extends g (f g).

(** Invariant of the loop of [get_layers]: the layers collected so far hold
    the relaxed nodes and the current wavefront, and every member of a
    layer has its dependencies in strictly earlier layers. *)
Record layers_inv (g : t) (done current : list string) (layers : list (list string))
  : Prop := {
  li_perm : concat layers ≡ₚ done ++ current;
  li_deps : ∀ i layer n d,
      layers !! i = Some layer → n ∈ layer → edge g n d →
      ∃ j layer', (j < i)%nat ∧ layers !! j = Some layer' ∧ d ∈ layer'
}.

(** A name is declared by the input when it is the qualified name of an
    object or a non-empty stripped dependency string of one. *)
Definition is_object (objects : list DatabaseObject) (n : string) : Prop :=
  ∃ o, o ∈ objects ∧ qualified_name o = n.

Definition is_declared_dependency (objects : list DatabaseObject) (n : string) : Prop :=
  ∃ o dep, o ∈ objects ∧ dep ∈ dependencies o ∧ strip dep = n ∧ n ≠ EmptyString.

(** Every node is one of the allowed names. *)
Definition nodes_within (allowed : string → Prop) (g : t) : Prop :=
  ∀ n, n ∈ _nodes g → allowed n.

End GraphInvariant.

Module AnalyzerInvariant.
Import DependencyAnalyzer.

(** The keys of the input objects. *)
Definition is_key (objects : list AssessmentObject.t) (k : string) : Prop :=
  ∃ o, o ∈ objects ∧ key_of o = k.

(** Nodes are exactly the given keys and edges join given keys. *)
Definition confined (keys : string → Prop) (g : DiGraph.t) : Prop :=
  (∀ k, k ∈ DiGraph.node_keys g ↔ keys k)
  ∧ (∀ u v, (u, v) ∈ fst <$> DiGraph.edges g → keys u ∧ keys v).

End AnalyzerInvariant.

Module BfsInvariant.
Import DependencyAnalyzer.

(** The breadth-first search of [_get_ancestors] and [_get_descendants],
    seen after any number of iterations: [processed] are the pairs already
    popped, [queue] those waiting.  The queue holds the rest of level [lo]
    followed by what was discovered of level [lo + 1]. *)
Record bfs_inv (neighbours : string → list string) (node_key : string)
    (max_depth : Z) (visited : gset string)
    (processed queue : list (string * Z)) : Prop := {
  bi_start : ∃ rest, processed ++ queue = (node_key, 0) :: rest;
  bi_nodup : NoDup ((processed ++ queue).*1);
  bi_visited : ∀ v, v ∈ visited ↔ v ≠ node_key ∧ v ∈ (processed ++ queue).*1;
  bi_sound : ∀ v d, (v, d) ∈ processed ++ queue →
      ∃ k : nat, d = Z.of_nat k
        ∧ reach (λ a b, b ∈ neighbours a) k node_key v
        ∧ (v ≠ node_key → (1 ≤ k)%nat ∧ d ≤ max_depth);
  bi_levels : ∃ lo A B,
      queue = A ++ B
      ∧ (∀ e, e ∈ A → e.2 = lo) ∧ (∀ e, e ∈ B → e.2 = lo + 1)
      ∧ (∀ e, e ∈ processed → e.2 ≤ lo);
  bi_expanded : ∀ u du w,
      (u, du) ∈ processed → du < max_depth → w ∈ neighbours u →
      w = node_key ∨ ∃ dw, (w, dw) ∈ processed ++ queue ∧ dw ≤ du + 1
}.

End BfsInvariant.

Module PartitionInvariant.
Import BalancedBatchingStrategy.

(** What holds in the placement loop of [_partition_balanced] when the
    objects of [placed] have been placed. *)
Record placement_inv (num_batches : nat) (placed : list DatabaseObject)
    (st : list (list DatabaseObject) * gmap string nat) : Prop := {
  pi_length : length st.1 = num_batches;
  pi_perm : concat st.1 ≡ₚ placed;
  pi_tracked : tracked st.1 st.2;
  pi_respects : respects_dependencies st.1
}.

(** The graph knows the dependents that sit in the partition: what the
    second check of [_rebalance] relies on when it reads
    [graph.get_dependents]. *)
Definition dependents_known (graph : DependencyGraph.t)
    (partitions : list (list DatabaseObject)) : Prop :=
  ∀ o d, o ∈ concat partitions → d ∈ concat partitions →
    qualified_name d ∈ dependencies o →
    qualified_name o ∈ DependencyGraph.get_dependents graph (qualified_name d).

End PartitionInvariant.

Module TarjanInvariant.
Import DependencyGraph.

(** The nodes [detect_cycles] has not numbered yet. *)
Definition unindexed (g : t) (st : tarjan_state) : gset string :=
  _nodes g ∖ dom (indices st).

(** [indices] and [lowlinks] have the same keys. *)
Definition numbered (st : tarjan_state) : Prop :=
  ∀ n, is_Some (lowlinks st !! n) ↔ is_Some (indices st !! n).

(** What a call of [strongconnect] leaves of the state it started from:
    the numbered nodes stay numbered and the stack below stays in place. *)
Record later (st st' : tarjan_state) : Prop := {
  lt_indices : ∀ n, is_Some (indices st !! n) → is_Some (indices st' !! n);
  lt_stack : ∃ above, stack st' = above ++ stack st
}.

End TarjanInvariant.

Module ClosureInvariant.
Import DependencyGraph.

(** The edges that leave the names not visited yet. *)
Definition unvisited_edges (adj : gmap string (gset string)) (visited : gset string)
  : nat :=
  sum_list_with (λ kv : string * gset string, size kv.2)
    (filter (λ kv, kv.1 ∉ visited) (map_to_list adj)).

(** The loop of [get_ancestors] and [get_descendants] after any number of
    iterations. *)
Record closure_inv (adj : gmap string (gset string)) (node : string)
    (visited : gset string) (queue : list string) : Prop := {
  ci_sound : ∀ v, v ∈ visited ∨ v ∈ queue →
      tc (λ a b, b ∈ get_set adj a) node v;
  ci_start : ∀ d, d ∈ get_set adj node → d ∈ visited ∨ d ∈ queue;
  ci_closed : ∀ u w, u ∈ visited → w ∈ get_set adj u → w ∈ visited ∨ w ∈ queue
}.

(** The order in which a [for] loop visits a set lists each member once. *)
Definition iterates_sets (set_iter : gset string → list string) : Prop :=
  ∀ s, set_iter s ≡ₚ elements s.

End ClosureInvariant.

Module TarjanAcyclic.
Import DependencyGraph TarjanInvariant.

(** Between two calls of [strongconnect] on an acyclic graph: numbered
    nodes have a low-link, the nodes on the stack are numbered, and every
    number is below the counter. *)
Record quiet (st : tarjan_state) : Prop := {
  qt_numbered : numbered st;
  qt_on_stack : ∀ x, x ∈ on_stack st → is_Some (indices st !! x);
  qt_counter : ∀ n i, indices st !! n = Some i → i < index_counter st
}.

(** What a call of [strongconnect] on an acyclic graph leaves as it was:
    the numbers and low-links of the nodes numbered before, the stack and
    the list of components. *)
Record unchanged (st st' : tarjan_state) : Prop := {
  un_indices : ∀ n i, indices st !! n = Some i → indices st' !! n = Some i;
  un_lowlinks : ∀ n, is_Some (indices st !! n) → lowlinks st' !! n = lowlinks st !! n;
  un_stack : stack st' = stack st;
  un_on_stack : on_stack st' = on_stack st;
  un_sccs : sccs st' = sccs st;
  un_counter : index_counter st ≤ index_counter st'
}.

End TarjanAcyclic.

Module PlanInvariant.
Import BalancedBatchingStrategy.

(** The batches assembled so far by [create_plan] and the next batch id:
    ids count from 1, the batches hold the objects [placed], every batch
    depends on earlier batches only, and the sprints are those that
    [_assign_sprints] gives, which has then counted [table_count] table
    batches and [view_count] view batches. *)
Record batches_inv (mapping : SprintMapping) (placed : list DatabaseObject)
    (table_count view_count : nat) (st : list Batch.t * Z) : Prop := {
  bi_ids : ∀ i b, st.1 !! i = Some b → Batch.batch_id b = Z.of_nat i + 1;
  bi_counter : st.2 = Z.of_nat (length st.1) + 1;
  bi_objects : concat (Batch.objects <$> st.1) ≡ₚ placed;
  bi_deps : ∀ b d, b ∈ st.1 → d ∈ Batch.dependencies b → 1 ≤ d < Batch.batch_id b;
  bi_sprints : for_each (assign_sprint mapping) st.1 ([], 0%nat, 0%nat)
               = Returned (st.1, table_count, view_count)
}.

End PlanInvariant.


(** ** batch-grouping/batch_planner.py *)

Module batch_planner.

Section environment.

Variable set_iter : gset string → list string.
Variable imbalance_le : nat → nat → nat → nat → Z → bool.
Variable now : string.


(** [max(deps, key=lambda d: len(graph.get_ancestors(d)))]: the first
    dependency, in iteration order, that no other exceeds. *)
Definition most_ancestors (graph : DependencyGraph.t) (deps : list string)
  : outcome (option (string * nat)) :=
  for_each (λ best d,
      ancestors ← DependencyGraph.get_ancestors set_iter graph d;
      Returned
        match best with
        | Some (_, best_key) =>
            if (best_key <? size ancestors)%nat then Some (d, size ancestors)
            else best
        | None => Some (d, size ancestors)
        end)
    deps None.

(** [while True: deps = graph.get_dependencies(current) - visited;
     if not deps: break; ...] of [_trace_path]; every iteration adds a node
    to [visited]. *)
Fixpoint trace_loop (fuel : nat) (graph : DependencyGraph.t) (path : list string)
    (current : string) (visited : gset string) : outcome (list string) :=
  let deps := DependencyGraph.get_dependencies graph current ∖ visited in
  if decide (deps = ∅) then Returned path
  else
    match fuel with
    | O => OutOfFuel
    | S fuel' =>
        best ← most_ancestors graph (set_iter deps);
        match best with
        | Some (best_dep, _) =>
            trace_loop fuel' graph (path ++ [best_dep]) best_dep
              (visited ∪ {[best_dep]})
        | None => Raised ValueError_not_in_list
        end
    end.

(** [_trace_path(graph, target)]; [max] of an empty sequence, which the
    test before it excludes, is the only exception. *)
Definition _trace_path (graph : DependencyGraph.t) (target : string)
  : outcome (list string) :=
  path ← trace_loop (size (DependencyGraph._nodes graph)) graph [target] target
            {[target]};
  Returned (reverse path).

End environment.


End batch_planner.

(** ** Inputs used by the examples *)

Module Examples.

(** An object of schema [dbo]. *)
Definition db_object (ty : ObjectType) (n : string) (deps : list string)
  : DatabaseObject :=
  {| name := n; object_type := ty; schema_name := "dbo"; status := "Passed";
     failure_reason := ""; dependencies := deps; failure_category := "";
     impact_score := 0 |}.

(** Four tables: [B] needs [A], and [D] needs [B] and [C]. *)
Definition layered_tables : list DatabaseObject :=
  [db_object TABLE "A" []; db_object TABLE "B" ["dbo.A"];
   db_object TABLE "C" []; db_object TABLE "D" ["dbo.B"; "dbo.C"]].

(** Two tables that need each other. *)
Definition two_cycle : list DatabaseObject :=
  [db_object TABLE "X" ["dbo.Y"]; db_object TABLE "Y" ["dbo.X"]].

(** Two separate pairs of tables that need each other. *)
Definition two_cycles : list DatabaseObject :=
  [db_object TABLE "P" ["dbo.Q"]; db_object TABLE "Q" ["dbo.P"];
   db_object TABLE "X" ["dbo.Y"]; db_object TABLE "Y" ["dbo.X"]].

(** The table [D] listed four times and a table that needs it. *)
Definition duplicated_tables : list DatabaseObject :=
  [db_object TABLE "D" []; db_object TABLE "D" []; db_object TABLE "D" [];
   db_object TABLE "D" []; db_object TABLE "O" ["dbo.D"]].

(** A table whose dependency list names the table itself. *)
Definition self_dependent : list DatabaseObject :=
  [db_object TABLE "T" ["dbo.T"]].

(** A view that names an object absent from the inventory. *)
Definition orphan_reference : list DatabaseObject :=
  [db_object VIEW "V" ["dbo.ghost"]].

(** An external table with a data source and a file format. *)
Definition external_objects : list DatabaseObject :=
  [db_object EXTERNAL_TABLE "ext" []; db_object EXTERNAL_DATA_SOURCE "src" [];
   db_object EXTERNAL_FILE_FORMAT "fmt" []].

(** The default strategy with [count] table batches and batches of one
    object allowed. *)
Definition table_batches_of (count : Z) (circular_resolution : string)
  : BalancedBatchingStrategy.t :=
  {| BalancedBatchingStrategy._table_batch_count := count;
     BalancedBatchingStrategy._view_batch_count := 2;
     BalancedBatchingStrategy._balance_tolerance := 20;
     BalancedBatchingStrategy._min_batch_size := 1;
     BalancedBatchingStrategy._sprint_mapping :=
       BalancedBatchingStrategy._sprint_mapping BalancedBatchingStrategy.defaults;
     BalancedBatchingStrategy._circular_resolution := circular_resolution |}.

(** The same with two table batches. *)
Definition two_batches (circular_resolution : string) : BalancedBatchingStrategy.t :=
  table_batches_of 2 circular_resolution.

(** The default strategy with another cycle policy. *)
Definition default_strategy (circular_resolution : string) : BalancedBatchingStrategy.t :=
  {| BalancedBatchingStrategy._table_batch_count := 4;
     BalancedBatchingStrategy._view_batch_count := 2;
     BalancedBatchingStrategy._balance_tolerance := 20;
     BalancedBatchingStrategy._min_batch_size := 3;
     BalancedBatchingStrategy._sprint_mapping :=
       BalancedBatchingStrategy._sprint_mapping BalancedBatchingStrategy.defaults;
     BalancedBatchingStrategy._circular_resolution := circular_resolution |}.

(** An assessment record of schema [dbo]. *)
Definition assessed (ty st n : string) (deps : list string) : AssessmentObject.t :=
  {| AssessmentObject.name := n; AssessmentObject.object_type := ty;
     AssessmentObject.schema_name := "dbo"; AssessmentObject.status := st;
     AssessmentObject.failure_reason := ""; AssessmentObject.dependencies := deps;
     AssessmentObject.impact_score := 0; AssessmentObject.failure_category := "" |}.

(** A failed table and a chain of eleven views, each on the one before. *)
Definition long_chain : list AssessmentObject.t :=
  [assessed "TABLE" "Failed" "n00" []; assessed "VIEW" "Passed" "n01" ["dbo.n00"];
   assessed "VIEW" "Passed" "n02" ["dbo.n01"]; assessed "VIEW" "Passed" "n03" ["dbo.n02"];
   assessed "VIEW" "Passed" "n04" ["dbo.n03"]; assessed "VIEW" "Passed" "n05" ["dbo.n04"];
   assessed "VIEW" "Passed" "n06" ["dbo.n05"]; assessed "VIEW" "Passed" "n07" ["dbo.n06"];
   assessed "VIEW" "Passed" "n08" ["dbo.n07"]; assessed "VIEW" "Passed" "n09" ["dbo.n08"];
   assessed "VIEW" "Passed" "n10" ["dbo.n09"]; assessed "VIEW" "Passed" "n11" ["dbo.n10"]].

Definition self_dependent_assessed : list AssessmentObject.t :=
  [assessed "TABLE" "Passed" "T" ["dbo.T"]].

Definition orphan_reference_assessed : list AssessmentObject.t :=
  [assessed "VIEW" "Passed" "V" ["dbo.ghost"]].

Definition external_assessed : list AssessmentObject.t :=
  [assessed "EXTERNAL_TABLE" "Passed" "ext" [];
   assessed "EXTERNAL_DATA_SOURCE" "Passed" "src" [];
   assessed "EXTERNAL_FILE_FORMAT" "Passed" "fmt" []].

(** The four layered tables in two batches, the dependencies first. *)
Definition layered_batches : list Batch.t :=
  [{| Batch.batch_id := 1; Batch.batch_name := "Table Batch 1";
      Batch.sprint_number := 2; Batch.object_type_group := "table";
      Batch.objects := [db_object TABLE "A" []; db_object TABLE "C" []];
      Batch.dependencies := [] |};
   {| Batch.batch_id := 2; Batch.batch_name := "Table Batch 2";
      Batch.sprint_number := 3; Batch.object_type_group := "table";
      Batch.objects := [db_object TABLE "B" ["dbo.A"];
                        db_object TABLE "D" ["dbo.B"; "dbo.C"]];
      Batch.dependencies := [] |}].


End Examples.


(** * Properties *)

(** ** Sorting and loops *)

Lemma insert_by_perm {A : Type} (le : A → A → bool) (x : A) (l : list A) :
  insert_by le x l ≡ₚ x :: l.
Proof.
  induction l as [|y l IH]; simpl; [done|].
  destruct (le x y); [done|].
  rewrite IH. apply Permutation_swap.
Qed.

Lemma sorted_by_perm {A : Type} (le : A → A → bool) (l : list A) :
  sorted_by le l ≡ₚ l.
Proof.
  induction l as [|x l IH]; simpl; [done|].
  unfold sorted_by in *. simpl. by rewrite insert_by_perm, IH.
Qed.

Lemma sorted_perm (l : list string) : sorted l ≡ₚ l.
Proof. apply sorted_by_perm. Qed.

Lemma elem_of_sorted (l : list string) (x : string) : x ∈ sorted l ↔ x ∈ l.
Proof. by rewrite sorted_perm. Qed.

Lemma NoDup_sorted (l : list string) : NoDup (sorted l) ↔ NoDup l.
Proof. by rewrite sorted_perm. Qed.

(** An invariant kept by every step of a [fold_left] holds at its end. *)
Lemma fold_left_invariant {S A : Type} (P : S → Prop) (f : S → A → S) (l : list A) :
  (∀ s x, x ∈ l → P s → P (f s x)) → ∀ s, P s → P (fold_left f l s).
Proof.
  induction l as [|x l IH]; simpl; intros Hstep s Hs; [done|].
  apply IH.
  - intros s' y Hy. apply Hstep. by right.
  - apply Hstep; [by left|done].
Qed.

(** ** The graph built by [DependencyGraph.__init__] *)

Module DependencyGraphFacts.
Import DependencyGraph GraphInvariant.

Lemma elem_of_get_set_add_to adj key v k x :
  x ∈ get_set (add_to adj key v) k ↔ x ∈ get_set adj k ∨ (k = key ∧ x = v).
Proof.
  unfold add_to, get_set. destruct (decide (key = k)) as [->|Hne].
  - rewrite lookup_insert_eq. simpl. set_solver.
  - rewrite lookup_insert_ne by done. naive_solver.
Qed.

(** Adding the edge [a -> b] together with its end points keeps the class
    invariant. *)
Lemma wf_insert_edge g N a b :
  wf g → _nodes g ⊆ N → a ∈ N → b ∈ N →
  wf {| _nodes := N;
        _depends_on := add_to (_depends_on g) a b;
        _depended_by := add_to (_depended_by g) b a;
        _object_map := _object_map g |}.
Proof.
  intros [Hm Hc] HN Ha Hb. split; simpl.
  - intros x y. rewrite !elem_of_get_set_add_to, Hm. naive_solver.
  - intros x y. rewrite elem_of_get_set_add_to. intros [H|[-> ->]]; [|done].
    apply Hc in H. set_solver.
Qed.

Lemma wf_more_nodes g N :
  wf g → _nodes g ⊆ N →
  wf {| _nodes := N; _depends_on := _depends_on g;
        _depended_by := _depended_by g; _object_map := _object_map g |}.
Proof.
  intros [Hm Hc] HN. split; simpl; [done|].
  intros x y H. apply Hc in H. set_solver.
Qed.

Lemma wf_empty m :
  wf {| _depends_on := ∅; _depended_by := ∅; _nodes := ∅; _object_map := m |}.
Proof.
  split; simpl; unfold get_set; intros a b; rewrite ?lookup_empty; simpl; set_solver.
Qed.

Lemma extends_refl g : extends g g.
Proof. by split. Qed.

Lemma extends_trans g1 g2 g3 : extends g1 g2 → extends g2 g3 → extends g1 g3.
Proof.
  intros [] []; split; [set_solver|naive_solver|congruence].
Qed.

Lemma build_dep_wf qname g dep :
  wf g → qname ∈ _nodes g → wf (build_dep qname g dep).
Proof.
  intros Hwf Hq. unfold build_dep. case_decide; [done|].
  apply wf_insert_edge; [done|set_solver..].
Qed.

Lemma build_dep_extends qname g dep : extends g (build_dep qname g dep).
Proof.
  unfold build_dep. case_decide; [apply extends_refl|].
  split; simpl; [set_solver| |done].
  unfold edge; simpl. intros a b. rewrite elem_of_get_set_add_to. tauto.
Qed.

Lemma build_deps_extends qname deps g :
  extends g (fold_left (build_dep qname) deps g).
Proof.
  revert g. induction deps as [|d deps IH]; intros g; simpl; [apply extends_refl|].
  eapply extends_trans; [apply build_dep_extends|apply IH].
Qed.

Lemma build_obj_extends g obj : extends g (build_obj g obj).
Proof.
  unfold build_obj.
  eapply extends_trans; [|apply build_deps_extends].
  split; simpl; [set_solver|done|done].
Qed.

Lemma build_obj_wf g obj : wf g → wf (build_obj g obj).
Proof.
  intros Hwf. unfold build_obj.
  set (g0 := {| _nodes := _nodes g ∪ {[qualified_name obj]} |}).
  assert (wf g0 ∧ qualified_name obj ∈ _nodes g0) as H0.
  { split; [apply wf_more_nodes; [done|set_solver]|simpl; set_solver]. }
  revert H0. generalize g0. clear.
  induction (dependencies obj) as [|d ds IH]; intros g0 [Hwf Hq]; simpl; [done|].
  apply IH. split; [by apply build_dep_wf|].
  by apply (ext_nodes _ _ (build_dep_extends (qualified_name obj) g0 d)).
Qed.

Lemma build_wf objects g : wf g → wf (build objects g).
Proof.
  unfold build. apply fold_left_invariant. intros. by apply build_obj_wf.
Qed.

Lemma build_extends objects g : extends g (build objects g).
Proof.
  unfold build. revert g.
  induction objects as [|o os IH]; intros g; simpl; [apply extends_refl|].
  eapply extends_trans; [apply build_obj_extends|apply IH].
Qed.

Lemma _add_edge_wf g a b : wf g → wf (_add_edge g a b).
Proof.
  intros Hwf. unfold _add_edge. case_decide; [done|].
  apply wf_insert_edge; [done|set_solver..].
Qed.

Lemma _add_edge_extends g a b : extends g (_add_edge g a b).
Proof.
  unfold _add_edge. case_decide; [apply extends_refl|].
  split; simpl; [set_solver| |done].
  unfold edge; simpl. intros x y. rewrite elem_of_get_set_add_to. tauto.
Qed.

Lemma grows_id P : grows P (λ g, g).
Proof. intros g. split; [done|apply extends_refl]. Qed.

Lemma grows_add_edge a b : grows wf (λ g, _add_edge g a b).
Proof. intros g. split; [apply _add_edge_wf|apply _add_edge_extends]. Qed.

Lemma grows_fold {A : Type} P (f : t → A → t) (l : list A) :
  (∀ x, grows P (λ g, f g x)) → grows P (λ g, fold_left f l g).
Proof.
  intros Hf. induction l as [|x l IH]; simpl; [apply grows_id|].
  intros g. destruct (Hf x g) as [H1 H2]. destruct (IH (f g x)) as [H3 H4].
  split; [auto|]. by eapply extends_trans.
Qed.

Lemma grows_comp P (f1 f2 : t → t) :
  grows P f1 → grows P f2 → grows P (λ g, f2 (f1 g)).
Proof.
  intros H1 H2 g. destruct (H1 g) as [Ha Hb]. destruct (H2 (f1 g)) as [Hc Hd].
  split; [auto|]. by eapply extends_trans.
Qed.

Lemma grows_own_schema schemas obj :
  grows wf (add_own_schema_edges schemas obj).
Proof.
  unfold add_own_schema_edges. apply (grows_fold wf). intros s g.
  destruct (_object_map g !! s); [|apply grows_id].
  case_decide; [apply grows_add_edge|apply grows_id].
Qed.

Lemma grows_edges_to_type objects ty obj :
  grows wf (add_edges_to_type objects ty obj).
Proof.
  unfold add_edges_to_type. apply (grows_fold wf). intros o g.
  case_decide; [apply grows_add_edge|apply grows_id].
Qed.

Lemma grows_all_schema schemas obj :
  grows wf (add_all_schema_edges schemas obj).
Proof.
  unfold add_all_schema_edges. apply (grows_fold wf). intros s. apply grows_add_edge.
Qed.

Lemma grows_when_type P ty obj (f : t → t) :
  grows P f → grows P (when_type ty obj f).
Proof. intros Hf g. unfold when_type. case_decide; [apply Hf|apply grows_id]. Qed.

Lemma grows_when_comp P ty obj (f inner : t → t) :
  grows P f → grows P inner → grows P (λ g, when_type ty obj f (inner g)).
Proof.
  intros Hf Hi. apply (grows_comp P inner (when_type ty obj f)); [done|].
  by apply grows_when_type.
Qed.

Lemma grows_implicit_obj objects schemas obj :
  grows wf (λ g, add_implicit_obj objects schemas g obj).
Proof.
  unfold add_implicit_obj.
  apply grows_when_comp; [apply grows_own_schema|].
  apply grows_when_comp; [apply grows_all_schema|].
  apply grows_when_comp; [apply (grows_comp wf); apply grows_edges_to_type|].
  apply grows_when_comp; [apply grows_own_schema|].
  apply grows_when_comp; [apply grows_own_schema|].
  apply grows_when_comp; [apply grows_own_schema|apply grows_id].
Qed.

Lemma grows_implicit objects : grows wf (add_implicit_edges objects).
Proof.
  unfold add_implicit_edges. apply (grows_fold wf). intros o.
  apply grows_implicit_obj.
Qed.

(** The constructor establishes the class invariant. *)
Lemma init_wf objects : wf (__init__ objects).
Proof.
  unfold __init__. apply grows_implicit, build_wf, wf_empty.
Qed.

End DependencyGraphFacts.


(** ** In-degree reduction: the invariant behind [topological_sort] and [get_layers] *)

Module KahnFacts.
Import DependencyGraph DependencyGraphFacts.

Lemma filter_ext_in {A : Type} (P Q : A → Prop) `{∀ x, Decision (P x)}
    `{∀ x, Decision (Q x)} (l : list A) :
  (∀ x, x ∈ l → (P x ↔ Q x)) → filter P l = filter Q l.
Proof.
  induction l as [|x l IH]; intros Hext; [done|].
  rewrite !filter_cons.
  assert (P x ↔ Q x) as Hx by (apply Hext; by left).
  rewrite IH by (intros y Hy; apply Hext; by right).
  destruct (decide (P x)), (decide (Q x)); tauto.
Qed.

Lemma length_le_size (l : list string) (X : gset string) :
  NoDup l → (∀ x, x ∈ l → x ∈ X) → (length l ≤ size X)%nat.
Proof.
  intros Hnd Hsub. rewrite <- (size_list_to_set (C := gset string) l) by done.
  apply subseteq_size. set_solver.
Qed.

Lemma fold_insert_lookup (f : string → Z) (l : list string) (m : gmap string Z) k :
  fold_left (λ m n, <[n := f n]> m) l m !! k
  = if decide (k ∈ l) then Some (f k) else m !! k.
Proof.
  revert m. induction l as [|x l IH]; intros m.
  - rewrite decide_False by apply not_elem_of_nil. done.
  - simpl fold_left. rewrite IH. destruct (decide (k ∈ l)) as [Hin|Hnin].
    + rewrite decide_True by set_solver. done.
    + destruct (decide (k = x)) as [->|Hne].
      * rewrite decide_True by set_solver. by rewrite lookup_insert_eq.
      * rewrite decide_False by set_solver. by rewrite lookup_insert_ne.
Qed.

Lemma initial_in_degree_lookup g n :
  n ∈ _nodes g →
  initial_in_degree g !! n = Some (Z.of_nat (size (get_set (_depends_on g) n))).
Proof.
  intros Hn. unfold initial_in_degree.
  rewrite (fold_insert_lookup (λ n, Z.of_nat (size (get_set (_depends_on g) n)))).
  rewrite decide_True; [done|]. by apply elem_of_elements.
Qed.

(** The inner loop in closed form: every listed key loses one, and the keys
    that stood at one are appended in the order of the list. *)
Lemma for_each_relax_one (l : list string) :
  ∀ (m : gmap string Z) (acc : list string),
    NoDup l → (∀ k, k ∈ l → is_Some (m !! k)) →
    ∃ m', for_each relax_one l (m, acc)
          = Returned (m', acc ++ filter (λ k, m !! k = Some 1) l)
        ∧ ∀ k, m' !! k = if decide (k ∈ l) then (λ d, d - 1) <$> m !! k else m !! k.
Proof.
  induction l as [|x l IH]; intros m acc Hnd Hkeys.
  - exists m. split; [simpl; by rewrite app_nil_r|].
    intros k. rewrite decide_False; [done|apply not_elem_of_nil].
  - apply NoDup_cons in Hnd as [Hx Hnd].
    destruct (Hkeys x) as [d Hd]; [by left|].
    destruct (IH (<[x := d - 1]> m)
                (if decide (d - 1 = 0) then acc ++ [x] else acc) Hnd)
      as (m' & Hrun & Hm').
    { intros k Hk. destruct (decide (k = x)) as [->|Hne].
      - rewrite lookup_insert_eq. eauto.
      - rewrite lookup_insert_ne by done. apply Hkeys. by right. }
    exists m'. split.
    + assert (relax_one (m, acc) x
              = Returned (<[x := d - 1]> m,
                          if decide (d - 1 = 0) then acc ++ [x] else acc)) as Hone
        by (unfold relax_one; simpl; by rewrite Hd).
      cbn [for_each]. rewrite Hone. cbn [mbind outcome_bind]. rewrite Hrun.
      f_equal. f_equal.
      rewrite (filter_ext_in (λ k, <[x := d - 1]> m !! k = Some 1)
                 (λ k, m !! k = Some 1) l).
      2: { intros k Hk. rewrite lookup_insert_ne; [done|]. intros ->. done. }
      rewrite filter_cons. rewrite Hd.
      destruct (decide (d - 1 = 0)) as [H0|H0].
      * rewrite decide_True by (f_equal; lia). by rewrite <- app_assoc.
      * rewrite decide_False; [done|]. intros [= ->]. lia.
    + intros k. rewrite Hm'. destruct (decide (k = x)) as [->|Hne].
      * rewrite decide_False by done. rewrite decide_True by (by left).
        by rewrite lookup_insert_eq, Hd.
      * rewrite lookup_insert_ne by done.
        destruct (decide (k ∈ l)).
        -- rewrite decide_True; [done|by right].
        -- rewrite decide_False; [done|]. set_solver.
Qed.

Lemma kahn_inv_initial g :
  kahn_inv g (initial_in_degree g) [] (zero_in_degree g (initial_in_degree g)).
Proof.
  assert (∀ n, n ∈ zero_in_degree g (initial_in_degree g)
               ↔ n ∈ _nodes g ∧ get_set (_depends_on g) n = ∅) as Hzero.
  { intros n. unfold zero_in_degree.
    rewrite list_elem_of_filter, elem_of_sorted, elem_of_elements.
    split.
    - intros [H0 Hn]. split; [done|].
      rewrite initial_in_degree_lookup in H0 by done.
      apply leibniz_equiv, size_empty_inv. injection H0. lia.
    - intros [Hn He]. split; [|done].
      rewrite initial_in_degree_lookup by done. rewrite He.
      by rewrite size_empty. }
  split; simpl.
  - unfold zero_in_degree. apply NoDup_filter, NoDup_sorted, NoDup_elements.
  - intros n Hn. by apply Hzero in Hn as [? _].
  - intros n Hn. rewrite initial_in_degree_lookup by done.
    do 3 f_equal. set_solver.
  - intros n Hn. rewrite Hzero. set_solver.
  - intros l1 n l2 H. by destruct l1.
Qed.

Lemma rev_case {A : Type} (l : list A) : l = [] ∨ ∃ l' y, l = l' ++ [y].
Proof.
  induction l as [|x l IH]; [by left|right].
  destruct IH as [->|(l' & y & ->)]; [by exists [], x|by exists (x :: l'), y].
Qed.

Lemma app_snoc_inv {A : Type} (l l1 l2 : list A) (x n : A) :
  l ++ [x] = l1 ++ n :: l2 →
  (l2 = [] ∧ n = x ∧ l1 = l) ∨ (∃ l2', l2 = l2' ++ [x] ∧ l = l1 ++ n :: l2').
Proof.
  destruct (rev_case l2) as [->|(l2' & y & ->)]; intros Heq.
  - left. apply app_inj_tail in Heq as [-> ->]. auto.
  - right. exists l2'.
    rewrite app_comm_cons, app_assoc in Heq.
    by apply app_inj_tail in Heq as [-> ->].
Qed.

(** One node leaves the front of the pending list: its dependents are
    relaxed and those that became ready join the end. *)
Lemma kahn_step g m done x rest acc :
  wf g → kahn_inv g m done (x :: rest ++ acc) →
  ∃ m' F, relax g (m, acc) x = Returned (m', acc ++ F)
        ∧ kahn_inv g m' (done ++ [x]) (rest ++ acc ++ F).
Proof.
  intros [Hmirror Hclosed] [Hnd Hnodes Hdeg Hready Horder].
  set (D := get_set (_depended_by g) x).
  assert (∀ k, k ∈ D → k ∈ _nodes g ∧ x ∈ get_set (_depends_on g) k) as HD.
  { intros k Hk. apply Hmirror in Hk. split; [|done]. by apply Hclosed in Hk as [? _]. }
  assert (x ∉ done) as Hx_done.
  { apply NoDup_app in Hnd as (_ & Hdisj & _). intros Hx. eapply Hdisj; [done|by left]. }
  assert (x ∈ _nodes g) as Hx_node by (apply Hnodes; set_solver).
  destruct (for_each_relax_one (sorted (elements D)) m acc) as (m' & Hrun & Hm').
  { apply NoDup_sorted, NoDup_elements. }
  { intros k Hk. apply elem_of_sorted, elem_of_elements in Hk.
    rewrite Hdeg by (by apply HD). eauto. }
  set (F := filter (λ k, m !! k = Some 1) (sorted (elements D))) in *.
  assert (∀ k, k ∈ F ↔ k ∈ D ∧ m !! k = Some 1) as HF.
  { intros k. unfold F. rewrite list_elem_of_filter, elem_of_sorted, elem_of_elements.
    tauto. }
  (* how the count of unfinished dependencies changes *)
  assert (∀ n, x ∈ get_set (_depends_on g) n →
     size (get_set (_depends_on g) n ∖ list_to_set done)
     = S (size (get_set (_depends_on g) n ∖ list_to_set (done ++ [x])))) as Hsize_in.
  { intros n Hxn.
    replace (get_set (_depends_on g) n ∖ list_to_set done)
      with ({[x]} ∪ get_set (_depends_on g) n ∖ list_to_set (done ++ [x])).
    - rewrite size_union by set_solver. by rewrite size_singleton.
    - apply set_eq. intros y. rewrite list_to_set_app_L.
      destruct (decide (y = x)) as [->|]; set_solver. }
  assert (∀ n, x ∉ get_set (_depends_on g) n →
     get_set (_depends_on g) n ∖ list_to_set (done ++ [x])
     = get_set (_depends_on g) n ∖ list_to_set done) as Hsize_out.
  { intros n Hxn. rewrite list_to_set_app_L. set_solver. }
  assert (∀ k, k ∈ F → get_set (_depends_on g) k ∖ list_to_set done = {[x]}) as HF_one.
  { intros k [Hk H1]%HF. destruct (HD k Hk) as [Hkn Hxk].
    rewrite Hdeg in H1 by done.
    assert (size (get_set (_depends_on g) k ∖ list_to_set done) = 1%nat) as Hs
      by (injection H1; lia).
    apply size_1_elem_of in Hs as [y Hy]. apply leibniz_equiv in Hy.
    rewrite Hy. assert (x ∈ get_set (_depends_on g) k ∖ list_to_set done) as Hin
      by set_solver.
    rewrite Hy in Hin. set_solver. }
  exists m', F. split; [exact Hrun|]. split.
  - (* no duplicates *)
    assert (NoDup ((done ++ [x]) ++ rest ++ acc)) as Hnd'.
    { by rewrite <- app_assoc. }
    rewrite (app_assoc rest), app_assoc. apply NoDup_app. split; [|split].
    + by rewrite <- app_assoc.
    + intros k Hk HkF. pose proof (HF_one k HkF) as Hone.
      assert (k ∈ done ++ x :: rest ++ acc) as Hold.
      { rewrite <- !app_assoc in Hk. simpl in Hk. done. }
      apply HF in HkF as [HkD _].
      apply (Hready k) in Hold; [|by apply HD]. set_solver.
    + apply NoDup_filter, NoDup_sorted, NoDup_elements.
  - intros n. rewrite (app_assoc rest), app_assoc, elem_of_app.
    intros [Hn|Hn].
    + apply Hnodes. rewrite <- !app_assoc in Hn. done.
    + apply HF in Hn as [Hn _]. by apply HD.
  - intros n Hn. rewrite Hm'. rewrite Hdeg by done. simpl.
    destruct (decide (n ∈ sorted (elements D))) as [Hin|Hnin].
    + apply elem_of_sorted, elem_of_elements, HD in Hin as [_ Hin].
      rewrite (Hsize_in n Hin). simpl. f_equal. lia.
    + rewrite Hsize_out; [done|]. intros Hxn. apply Hnin.
      apply elem_of_sorted, elem_of_elements. by apply Hmirror.
  - intros n Hn. split.
    + rewrite (app_assoc rest), app_assoc, elem_of_app. intros [Hold|HnF].
      * assert (n ∈ done ++ x :: rest ++ acc) as Hold'.
        { rewrite <- !app_assoc in Hold. done. }
        apply Hready in Hold'; [|done]. rewrite list_to_set_app_L. set_solver.
      * apply HF_one in HnF. rewrite list_to_set_app_L.
        intros y Hy. destruct (decide (y ∈ done)); set_solver.
    + intros Hsub. rewrite list_to_set_app_L in Hsub.
      destruct (decide (x ∈ get_set (_depends_on g) n)) as [Hxn|Hxn].
      * rewrite (app_assoc rest), app_assoc, elem_of_app. right.
        apply HF. split; [by apply Hmirror|].
        rewrite Hdeg by done. do 2 f_equal. rewrite (Hsize_in n Hxn).
        replace (get_set (_depends_on g) n ∖ list_to_set (done ++ [x]))
          with (∅ : gset string); [by rewrite size_empty|].
        rewrite list_to_set_app_L. set_solver.
      * assert (n ∈ done ++ x :: rest ++ acc) as Hold.
        { apply Hready; [done|]. set_solver. }
        rewrite (app_assoc rest), app_assoc, elem_of_app. left.
        rewrite <- !app_assoc. done.
  - intros l1 n l2 Heq. apply app_snoc_inv in Heq as [(-> & -> & ->)|(l2' & -> & ->)].
    + apply Hready; [done|]. set_solver.
    + by eapply Horder.
Qed.

Lemma kahn_loop_spec fuel :
  ∀ g m done q,
    wf g → kahn_inv g m done q → (size (_nodes g) ≤ fuel + length done)%nat →
    ∃ res m', kahn_loop fuel g m q done = Returned res ∧ kahn_inv g m' res [].
Proof.
  induction fuel as [|fuel IH]; intros g m done q Hwf Hinv Hfuel.
  - destruct q as [|x q]; [by exists done, m|].
    exfalso. destruct Hinv as [Hnd Hnodes _ _ _].
    apply length_le_size in Hnodes; [|done].
    rewrite length_app in Hnodes. simpl in *. lia.
  - destruct q as [|x q]; [by exists done, m|].
    destruct (kahn_step g m done x [] q Hwf Hinv) as (m' & F & Hrun & Hinv').
    simpl in Hinv'. simpl. rewrite Hrun. simpl.
    apply (IH g m'); [done|done|]. rewrite length_app. simpl. lia.
Qed.

(** *** What a finished run says about the graph *)

Section finished.
Context (g : t) (m : gmap string Z) (res : list string).
Hypothesis Hwf : wf g.
Hypothesis Hinv : kahn_inv g m res [].

Lemma finished_NoDup : NoDup res.
Proof. destruct Hinv as [Hnd _ _ _ _]. by rewrite app_nil_r in Hnd. Qed.

Lemma finished_nodes n : n ∈ res → n ∈ _nodes g.
Proof. destruct Hinv as [_ Hn _ _ _]. intros H. apply Hn. by rewrite app_nil_r. Qed.

Lemma finished_ready n :
  n ∈ _nodes g → (n ∈ res ↔ get_set (_depends_on g) n ⊆ list_to_set res).
Proof.
  destruct Hinv as [_ _ _ Hr _]. intros H. rewrite <- (Hr n H). by rewrite app_nil_r.
Qed.

(** Every dependency of an emitted node was emitted strictly earlier. *)
Lemma finished_before a b j :
  res !! j = Some a → edge g a b → ∃ i, (i < j)%nat ∧ res !! i = Some b.
Proof.
  intros Hj Hedge. destruct Hinv as [_ _ _ _ Horder].
  pose proof (take_drop_middle res j a Hj) as Hsplit.
  assert (b ∈ take j res) as Hb.
  { apply (elem_of_list_to_set (C := gset string)).
    eapply Horder; [symmetry; exact Hsplit|exact Hedge]. }
  apply list_elem_of_lookup in Hb as [i Hi].
  pose proof (lookup_lt_Some _ _ _ Hi) as Hlt. rewrite length_take in Hlt.
  exists i. split; [lia|]. rewrite lookup_take_lt in Hi by lia. done.
Qed.

Lemma finished_before_tc a b :
  tc (edge g) a b → ∀ j, res !! j = Some a → ∃ i, (i < j)%nat ∧ res !! i = Some b.
Proof.
  induction 1 as [a b Hedge|a c b Hedge _ IH]; intros j Hj.
  - by eapply finished_before.
  - destruct (finished_before a c j Hj Hedge) as (k & Hk & Hc).
    destruct (IH k Hc) as (i & Hi & Hb). exists i. split; [lia|done].
Qed.

(** No emitted node lies on a cycle. *)
Lemma finished_not_on_cycle n : n ∈ res → ¬ on_cycle g n.
Proof.
  intros Hn Hcyc. apply list_elem_of_lookup in Hn as [j Hj].
  destruct (finished_before_tc n n Hcyc j Hj) as (i & Hi & Hi').
  pose proof (NoDup_lookup _ _ _ _ finished_NoDup Hi' Hj). lia.
Qed.

Lemma on_cycle_node n : on_cycle g n → n ∈ _nodes g.
Proof.
  intros Hcyc. destruct Hwf as [_ Hclosed]. unfold on_cycle in Hcyc.
  inversion Hcyc as [? ? Hedge|? c ? Hedge _]; subst;
    by apply Hclosed in Hedge as [? _].
Qed.

(** A node that was not emitted has a dependency that was not emitted. *)
Lemma unfinished_has_unfinished_dep n :
  n ∈ _nodes g → n ∉ res →
  ∃ d, d ∈ _nodes g ∧ (d ∉ res) ∧ edge g n d.
Proof.
  intros Hn Hnres.
  assert (get_set (_depends_on g) n ∖ list_to_set res ≠ ∅) as Hne.
  { intros He. apply Hnres, finished_ready; [done|]. set_solver. }
  apply set_choose_L in Hne as [d Hd]. exists d.
  apply elem_of_difference in Hd as [Hd1 Hd2].
  destruct Hwf as [_ Hclosed]. split; [by apply Hclosed in Hd1 as [_ ?]|].
  split; [set_solver|done].
Qed.

End finished.

(** A non-empty finite set in which every member has a successor inside the
    set contains a cycle. *)
Lemma no_sink_cycle (R : string → string → Prop) (X : gset string) :
  X ≠ ∅ → (∀ n, n ∈ X → ∃ d, d ∈ X ∧ R n d) → ∃ n, tc R n n.
Proof.
  intros Hne Hsucc.
  assert (∀ k n, n ∈ X →
    (∃ c, tc R c c) ∨
    (∃ Y : gset string, Y ⊆ X ∧ (k ≤ size Y)%nat ∧ ∀ y, y ∈ Y → rtc R n y)) as Hgrow.
  { induction k as [|k IH]; intros n Hn.
    - right. exists ∅. split; [set_solver|]. split; [rewrite size_empty; lia|set_solver].
    - destruct (Hsucc n Hn) as (d & Hd & Hnd).
      destruct (IH d Hd) as [Hc|(Y & HY & Hk & Hreach)]; [by left|].
      destruct (decide (n ∈ Y)) as [HnY|HnY].
      + left. exists n. eapply tc_rtc_r; [by apply tc_once|]. by apply Hreach.
      + right. exists ({[n]} ∪ Y). split; [set_solver|]. split.
        * rewrite size_union by set_solver. rewrite size_singleton. lia.
        * intros y [->%elem_of_singleton|Hy]%elem_of_union; [done|].
          eapply rtc_l; [exact Hnd|]. by apply Hreach. }
  apply set_choose_L in Hne as [n Hn].
  destruct (Hgrow (S (size X)) n Hn) as [Hc|(Y & HY & Hk & _)]; [done|].
  apply subseteq_size in HY. lia.
Qed.

Lemma unfinished_cyclic g m res :
  wf g → kahn_inv g m res [] → (length res < size (_nodes g))%nat → cyclic g.
Proof.
  intros Hwf Hinv Hlt.
  apply (no_sink_cycle (edge g) (_nodes g ∖ list_to_set res)).
  - intros He.
    assert (_nodes g ⊆ list_to_set res) as Hsub by set_solver.
    apply subseteq_size in Hsub.
    rewrite size_list_to_set in Hsub by (by eapply finished_NoDup). lia.
  - intros n [Hn Hnres]%elem_of_difference.
    destruct (unfinished_has_unfinished_dep g m res Hwf Hinv n Hn) as (d & ? & ? & ?);
      [set_solver|].
    exists d. split; [set_solver|done].
Qed.

Lemma finished_all_or_cyclic g m res :
  wf g → kahn_inv g m res [] →
  ((size (_nodes g) ≤ length res)%nat → ∀ n, n ∈ _nodes g → n ∈ res).
Proof.
  intros Hwf Hinv Hle n Hn.
  assert (list_to_set res ≡@{gset string} _nodes g) as Heq.
  { apply set_subseteq_size_equiv.
    - intros x Hx%elem_of_list_to_set. by eapply finished_nodes.
    - rewrite size_list_to_set by (by eapply finished_NoDup). done. }
  apply (elem_of_list_to_set (C := gset string)). by apply Heq.
Qed.

(** [topological_sort] on any graph that satisfies the class invariant. *)
Lemma topological_sort_wf g :
  wf g →
  (∃ order, topological_sort g = Returned order
            ∧ NoDup order ∧ (∀ n, n ∈ order ↔ n ∈ _nodes g)
            ∧ (∀ a b, edge g a b → before order b a)
            ∧ ¬ cyclic g)
  ∨ (∃ count unresolved,
       topological_sort g = Raised (ValueError_topological_sort count unresolved)
       ∧ cyclic g).
Proof.
  intros Hwf. unfold topological_sort.
  destruct (kahn_loop_spec (size (_nodes g)) g (initial_in_degree g) []
              (zero_in_degree g (initial_in_degree g)) Hwf (kahn_inv_initial g))
    as (res & m' & Hrun & Hinv); [simpl; lia|].
  rewrite Hrun. simpl.
  destruct (length res <? size (_nodes g))%nat eqn:Hlen.
  - right. apply Nat.ltb_lt in Hlen. eexists _, _. split; [done|].
    by eapply unfinished_cyclic.
  - left. apply Nat.ltb_ge in Hlen. exists res. split; [done|].
    pose proof (finished_all_or_cyclic g m' res Hwf Hinv Hlen) as Hall.
    split; [by eapply finished_NoDup|]. split; [|split].
    + intros n. split; [by eapply finished_nodes|apply Hall].
    + intros a b Hedge.
      assert (a ∈ res) as Ha.
      { apply Hall. destruct Hwf as [_ Hc]. by apply Hc in Hedge as [? _]. }
      apply list_elem_of_lookup in Ha as [j Hj].
      destruct (finished_before g m' res Hinv a b j Hj Hedge) as (i & Hi & Hb).
      by exists i, j.
    + intros [n Hcyc].
      eapply (finished_not_on_cycle g m' res Hinv n); [|exact Hcyc].
      apply Hall. by eapply on_cycle_node.
Qed.

End KahnFacts.


(** ** Layers *)

Module LayerFacts.
Import DependencyGraph GraphInvariant DependencyGraphFacts KahnFacts.

Lemma elem_of_concat_lookup (layers : list (list string)) (n : string) :
  n ∈ concat layers ↔ ∃ i layer, layers !! i = Some layer ∧ n ∈ layer.
Proof.
  rewrite list_elem_of_In, in_concat. split.
  - intros (layer & Hl & Hn). apply list_elem_of_In, list_elem_of_lookup in Hl as [i Hi].
    exists i, layer. by rewrite list_elem_of_In.
  - intros (i & layer & Hi & Hn). exists layer.
    rewrite <- !list_elem_of_In. split; [|done]. by eapply list_elem_of_lookup_2.
Qed.

Lemma next_layer_spec g current :
  ∀ m done acc,
    wf g → kahn_inv g m done (current ++ acc) →
    ∃ m' F, for_each (relax g) current (m, acc) = Returned (m', acc ++ F)
          ∧ kahn_inv g m' (done ++ current) (acc ++ F).
Proof.
  induction current as [|x rest IH]; intros m done acc Hwf Hinv.
  - exists m, []. rewrite !app_nil_r. by split.
  - destruct (kahn_step g m done x rest acc Hwf Hinv) as (m1 & F1 & Hrun1 & Hinv1).
    destruct (IH m1 (done ++ [x]) (acc ++ F1) Hwf Hinv1) as (m' & F2 & Hrun2 & Hinv2).
    exists m', (F1 ++ F2). split.
    + cbn [for_each]. rewrite Hrun1. cbn [mbind outcome_bind].
      rewrite Hrun2. by rewrite app_assoc.
    + rewrite <- app_assoc in Hinv2. simpl in Hinv2. by rewrite app_assoc.
Qed.

Lemma layers_inv_step g m done current layers F :
  kahn_inv g m (done ++ current) F →
  layers_inv g done current layers →
  layers_inv g (done ++ current) F
    (match F with [] => layers | _ :: _ => layers ++ [sorted F] end).
Proof.
  intros Hinv [Hperm Hdeps].
  destruct F as [|f F'].
  { split; [by rewrite app_nil_r|done]. }
  set (F := f :: F') in *. split.
  - rewrite concat_app. simpl. rewrite app_nil_r. by rewrite Hperm, sorted_perm.
  - intros i layer n d Hi Hn Hedge.
    destruct (decide (i < length layers)%nat) as [Hlt|Hge].
    + rewrite lookup_app_l in Hi by done.
      destruct (Hdeps i layer n d Hi Hn Hedge) as (j & layer' & Hj & Hl & Hd).
      exists j, layer'. split; [done|]. split; [|done].
      rewrite lookup_app_l by lia. done.
    + rewrite lookup_app_r in Hi by lia.
      destruct (i - length layers)%nat as [|k] eqn:Hidx; [|by destruct k].
      simpl in Hi. injection Hi as <-. rewrite elem_of_sorted in Hn.
      assert (n ∈ (done ++ current) ++ F) as Hn' by (apply elem_of_app; by right).
      assert (n ∈ _nodes g) as Hnode by (by apply (ki_nodes _ _ _ _ Hinv)).
      assert (d ∈ done ++ current) as Hd.
      { apply (elem_of_list_to_set (C := gset string)).
        apply (ki_ready _ _ _ _ Hinv n Hnode); [exact Hn'|exact Hedge]. }
      rewrite <- Hperm in Hd. apply elem_of_concat_lookup in Hd as (j & layer' & Hj & Hd).
      exists j, layer'. pose proof (lookup_lt_Some _ _ _ Hj).
      split; [lia|]. split; [|done]. by rewrite lookup_app_l by lia.
Qed.

Lemma layers_loop_spec fuel :
  ∀ g m done current layers,
    wf g → kahn_inv g m done current → layers_inv g done current layers →
    (size (_nodes g) ≤ fuel + length done)%nat →
    ∃ res m' done',
      layers_loop fuel g m current layers = Returned res
      ∧ kahn_inv g m' done' [] ∧ layers_inv g done' [] res
      ∧ (∃ rest, res = layers ++ rest) ∧ (current = [] → res = layers).
Proof.
  induction fuel as [|fuel IH]; intros g m done current layers Hwf Hinv Hlay Hfuel.
  - destruct current as [|x current].
    { exists layers, m, done. split; [done|]. split; [done|]. split; [done|].
      split; [|done]. exists []. by rewrite app_nil_r. }
    exfalso. destruct Hinv as [Hnd Hnodes _ _ _].
    apply length_le_size in Hnodes; [|done].
    rewrite length_app in Hnodes. simpl in *. lia.
  - destruct current as [|x current].
    { exists layers, m, done. split; [done|]. split; [done|]. split; [done|].
      split; [|done]. exists []. by rewrite app_nil_r. }
    set (cur := x :: current) in *.
    assert (kahn_inv g m done (cur ++ [])) as Hinv0 by (by rewrite app_nil_r).
    destruct (next_layer_spec g cur m done [] Hwf Hinv0) as (m1 & F & Hrun & Hinv1).
    rewrite app_nil_l in Hrun, Hinv1.
    pose proof (layers_inv_step g m1 done cur layers F Hinv1 Hlay) as Hlay1.
    destruct (IH g m1 (done ++ cur) F _ Hwf Hinv1 Hlay1)
      as (res & m' & done' & Hloop & Hinv' & Hlay' & [rest Hrest] & _).
    { rewrite length_app. unfold cur. simpl. lia. }
    exists res, m', done'. split.
    + unfold cur. cbn [layers_loop]. fold cur. unfold next_layer. rewrite Hrun.
      cbn [mbind outcome_bind fst snd]. exact Hloop.
    + split; [done|]. split; [done|]. split; [|done].
      destruct F; [by exists rest|].
      exists ([sorted (s :: F)] ++ rest). by rewrite app_assoc.
Qed.

(** [get_layers] on any graph that satisfies the class invariant. *)
Lemma get_layers_wf g :
  wf g →
  ∃ layers m done,
    get_layers g = Returned layers
    ∧ kahn_inv g m done [] ∧ concat layers ≡ₚ done
    ∧ (∀ i layer n d, layers !! i = Some layer → n ∈ layer → edge g n d →
         ∃ j layer', (j < i)%nat ∧ layers !! j = Some layer' ∧ d ∈ layer')
    ∧ (∀ n, (∃ layer, layers !! 0%nat = Some layer ∧ n ∈ layer)
            ↔ n ∈ _nodes g ∧ get_set (_depends_on g) n = ∅).
Proof.
  intros Hwf. unfold get_layers.
  pose proof (kahn_inv_initial g) as Hinv0.
  set (m0 := initial_in_degree g) in *. set (roots := zero_in_degree g m0) in *.
  set (layers0 := match roots with [] => [] | _ :: _ => [sorted roots] end).
  assert (layers_inv g [] roots layers0) as Hlay0.
  { split.
    - unfold layers0. destruct roots; [done|]. simpl. by rewrite app_nil_r, sorted_perm.
    - intros i layer n d Hi Hn Hedge. exfalso.
      assert (n ∈ roots) as Hroot.
      { unfold layers0 in Hi. destruct roots as [|r roots']; [done|].
        destruct i as [|i]; [|by destruct i]. injection Hi as <-.
        by rewrite elem_of_sorted in Hn. }
      assert (n ∈ _nodes g) as Hnode by (by apply (ki_nodes _ _ _ _ Hinv0)).
      apply (ki_ready _ _ _ _ Hinv0 n Hnode) in Hroot.
      apply Hroot in Hedge. simpl in Hedge. set_solver. }
  destruct (layers_loop_spec (size (_nodes g)) g m0 [] roots layers0 Hwf Hinv0 Hlay0)
    as (res & m' & done' & Hloop & Hinv' & [Hperm Hdeps] & [rest Hrest] & Hnil);
    [simpl; lia|].
  exists res, m', done'. split; [exact Hloop|]. split; [done|].
  split; [by rewrite app_nil_r in Hperm|]. split; [exact Hdeps|].
  intros n.
  assert (n ∈ roots ↔ n ∈ _nodes g ∧ get_set (_depends_on g) n = ∅) as Hroots.
  { split.
    - intros Hr. assert (n ∈ _nodes g) as Hnode by (by apply (ki_nodes _ _ _ _ Hinv0)).
      split; [done|]. apply (ki_ready _ _ _ _ Hinv0 n Hnode) in Hr. simpl in Hr. set_solver.
    - intros [Hnode He]. apply (ki_ready _ _ _ _ Hinv0 n Hnode). rewrite He. set_solver. }
  rewrite <- Hroots. unfold layers0 in *. destruct roots as [|r roots'].
  - rewrite (Hnil eq_refl). split; [by intros (? & ? & _)|by intros ?%elem_of_nil].
  - rewrite Hrest. simpl. split.
    + intros (layer & [= <-] & Hn). by rewrite elem_of_sorted in Hn.
    + intros Hn. eexists. split; [done|]. by rewrite elem_of_sorted.
Qed.

(** [find_layer] returns the first layer that holds the node, counted from
    [start], and [-1] when no layer does. *)
Lemma find_layer_spec n layers :
  ∀ start, 0 ≤ start →
((n ∉ concat layers) ∧ find_layer n layers start = -1)
    ∨ (∃ i layer, layers !! i = Some layer ∧ n ∈ layer
         ∧ find_layer n layers start = start + Z.of_nat i
         ∧ ∀ j layer', (j < i)%nat → layers !! j = Some layer' → n ∉ layer').
Proof.
  induction layers as [|l layers IH]; intros start Hstart; simpl.
  - left. split; [apply not_elem_of_nil|done].
  - destruct (decide (n ∈ l)) as [Hin|Hnin].
    + right. exists 0%nat, l. repeat split; [done|lia|]. intros j ? Hj. lia.
    + destruct (IH (start + 1)) as [[Hno Hf]|(i & layer & Hi & Hn & Hf & Hfirst)]; [lia|..].
      * left. split; [|done]. rewrite elem_of_app. tauto.
      * right. exists (S i), layer. repeat split; [done|done|lia|].
        intros [|j] layer' Hj Hl; [by injection Hl as <-|].
        apply (Hfirst j layer'); [lia|done].
Qed.

(** What [get_layers] returns on a well-formed graph, in terms of the
    graph alone. *)
Lemma get_layers_facts g :
  wf g →
  ∃ layers,
    get_layers g = Returned layers
    ∧ NoDup (concat layers)
    ∧ (∀ n, n ∈ concat layers → n ∈ _nodes g ∧ ¬ on_cycle g n)
    ∧ (∀ i layer n d, layers !! i = Some layer → n ∈ layer → edge g n d →
         ∃ j layer', (j < i)%nat ∧ layers !! j = Some layer' ∧ d ∈ layer')
    ∧ (∀ n, (∃ layer, layers !! 0%nat = Some layer ∧ n ∈ layer)
            ↔ n ∈ _nodes g ∧ get_set (_depends_on g) n = ∅)
    ∧ ((∀ n, n ∈ _nodes g → n ∈ concat layers) ↔ ¬ cyclic g).
Proof.
  intros Hwf.
  destruct (get_layers_wf g Hwf) as (layers & m & res & Hrun & Hinv & Hperm & Hdeps & Hzero).
  exists layers. split; [done|]. split; [|split; [|split; [done|split; [done|]]]].
  - rewrite Hperm. by eapply finished_NoDup.
  - intros n Hn. rewrite Hperm in Hn. split.
    + by eapply finished_nodes.
    + by eapply finished_not_on_cycle.
  - split.
    + intros Hall [n Hcyc].
      eapply (finished_not_on_cycle g m res Hinv n); [|exact Hcyc].
      rewrite <- Hperm. apply Hall. by eapply on_cycle_node.
    + intros Hacyc n Hn. rewrite Hperm.
      apply (finished_all_or_cyclic g m res Hwf Hinv); [|done].
      destruct (decide (size (_nodes g) ≤ length res)%nat) as [|Hlt]; [done|].
      exfalso. apply Hacyc. eapply unfinished_cyclic; [done..|lia].
Qed.

End LayerFacts.


(** ** Which nodes and edges the two builders create *)

(** A property set up by the step for one member of the list and kept by
    every step holds after the loop. *)
Lemma fold_left_establish {S A : Type} (Q : S → Prop) (f : S → A → S)
    (l : list A) (x : A) :
  x ∈ l → (∀ s, Q (f s x)) → (∀ s y, Q s → Q (f s y)) →
  ∀ s, Q (fold_left f l s).
Proof.
  intros Hx Hset Hkeep. induction l as [|y l IH]; intros s; [by apply elem_of_nil in Hx|].
  simpl. apply elem_of_cons in Hx as [->|Hx].
  - apply fold_left_invariant; [|apply Hset]. intros. by apply Hkeep.
  - by apply IH.
Qed.

Module GraphMembership.
Import DependencyGraph GraphInvariant DependencyGraphFacts.

Lemma build_deps_nodes qname deps g n :
  n ∈ _nodes (fold_left (build_dep qname) deps g)
  ↔ n ∈ _nodes g ∨ ∃ dep, dep ∈ deps ∧ strip dep = n ∧ n ≠ EmptyString.
Proof.
  revert g. induction deps as [|d deps IH]; intros g; simpl.
  - setoid_rewrite elem_of_nil. naive_solver.
  - rewrite IH. unfold build_dep. case_decide as Hd; simpl.
    + setoid_rewrite elem_of_cons. naive_solver.
    + rewrite elem_of_union, elem_of_singleton. setoid_rewrite elem_of_cons.
      naive_solver.
Qed.

Lemma build_nodes objects g n :
  n ∈ _nodes (build objects g)
  ↔ n ∈ _nodes g ∨ is_object objects n ∨ is_declared_dependency objects n.
Proof.
  unfold build, is_object, is_declared_dependency. revert g.
  induction objects as [|o objects IH]; intros g; simpl.
  - setoid_rewrite elem_of_nil. naive_solver.
  - rewrite IH. unfold build_obj. rewrite build_deps_nodes. simpl.
    rewrite elem_of_union, elem_of_singleton. setoid_rewrite elem_of_cons.
    naive_solver.
Qed.

Lemma _add_edge_nodes_within allowed g a b :
  allowed a → allowed b → nodes_within allowed g → nodes_within allowed (_add_edge g a b).
Proof.
  intros Ha Hb Hg n. unfold _add_edge. case_decide; [apply Hg|]. simpl.
  rewrite !elem_of_union, !elem_of_singleton. intros [[?| ->]| ->]; auto.
Qed.

Lemma add_implicit_edges_nodes_within allowed objects g :
  (∀ o, o ∈ objects → allowed (qualified_name o)) →
  nodes_within allowed g → nodes_within allowed (add_implicit_edges objects g).
Proof.
  intros Hobj. unfold add_implicit_edges.
  set (schemas := qualified_name <$> filter (λ obj, object_type obj = SCHEMA) objects).
  assert (∀ s, s ∈ schemas → allowed s) as Hschemas.
  { intros s (o & -> & Ho%list_elem_of_filter)%list_elem_of_fmap. apply Hobj, Ho. }
  apply fold_left_invariant. intros g' obj Hin Hg'.
  assert (∀ g, nodes_within allowed g →
               nodes_within allowed (add_own_schema_edges schemas obj g)) as Hown.
  { intros g0. unfold add_own_schema_edges. apply fold_left_invariant.
    intros g1 s Hs Hg1. destruct (_object_map g1 !! s); [|done].
    case_decide; [|done]. apply _add_edge_nodes_within; auto. }
  assert (∀ ty g, nodes_within allowed g →
               nodes_within allowed (add_edges_to_type objects ty obj g)) as Hty.
  { intros ty g0. unfold add_edges_to_type. apply fold_left_invariant.
    intros g1 o Ho Hg1. case_decide; [|done]. apply _add_edge_nodes_within; auto. }
  assert (∀ g, nodes_within allowed g →
               nodes_within allowed (add_all_schema_edges schemas obj g)) as Hall.
  { intros g0. unfold add_all_schema_edges. apply fold_left_invariant.
    intros g1 s Hs Hg1. apply _add_edge_nodes_within; auto. }
  unfold add_implicit_obj, when_type.
  repeat case_decide; auto 10.
Qed.

(** The nodes of the graph [DependencyGraph(objects)]. *)
Lemma init_nodes objects n :
  n ∈ _nodes (__init__ objects)
  ↔ is_object objects n ∨ is_declared_dependency objects n.
Proof.
  unfold __init__.
  set (g0 := {| _depends_on := ∅; _depended_by := ∅; _nodes := ∅ |}).
  split.
  - intros Hn.
    apply (add_implicit_edges_nodes_within
             (λ n, is_object objects n ∨ is_declared_dependency objects n)
             objects (build objects g0)); [| |done].
    + intros o Ho. left. by exists o.
    + intros k Hk. apply build_nodes in Hk as [Hk|Hk]; [|done]. simpl in Hk. set_solver.
  - intros Hn. destruct (grows_implicit objects (build objects g0)) as [_ [Hsub _ _]].
    apply Hsub, build_nodes. by right.
Qed.

(** Every declared dependency that is not blank is an edge. *)
Lemma init_explicit_edge objects o dep :
  o ∈ objects → dep ∈ dependencies o → strip dep ≠ EmptyString →
  edge (__init__ objects) (qualified_name o) (strip dep).
Proof.
  intros Ho Hdep Hne. unfold __init__.
  set (g0 := {| _depends_on := ∅; _depended_by := ∅; _nodes := ∅ |}).
  destruct (grows_implicit objects (build objects g0)) as [_ [_ Hedges _]].
  apply Hedges. unfold build.
  apply (fold_left_establish (λ g, edge g (qualified_name o) (strip dep)) build_obj objects o);
    [done| |].
  - intros g. unfold build_obj.
    apply (fold_left_establish (λ g, edge g (qualified_name o) (strip dep))
             (build_dep (qualified_name o)) (dependencies o) dep); [done| |].
    + intros g'. unfold build_dep. rewrite decide_False by done.
      unfold edge. simpl. apply elem_of_get_set_add_to. by right.
    + intros g' d. apply (ext_edges _ _ (build_dep_extends _ g' d)).
  - intros g o'. apply (ext_edges _ _ (build_obj_extends g o')).
Qed.

(** The external-table rule of [add_implicit_edges]. *)
Lemma init_external_edge objects tbl other :
  tbl ∈ objects → other ∈ objects →
  object_type tbl = EXTERNAL_TABLE →
  object_type other = EXTERNAL_DATA_SOURCE ∨ object_type other = EXTERNAL_FILE_FORMAT →
  qualified_name tbl ≠ qualified_name other →
  edge (__init__ objects) (qualified_name tbl) (qualified_name other).
Proof.
  intros Htbl Hother Hty Hoty Hne. unfold __init__, add_implicit_edges.
  set (schemas := qualified_name <$> filter (λ obj, object_type obj = SCHEMA) objects).
  set (Q := λ g, edge g (qualified_name tbl) (qualified_name other)).
  assert (∀ ty, object_type other = ty →
            ∀ g, Q (add_edges_to_type objects ty tbl g)) as Hadd.
  { intros ty Hty' g. unfold add_edges_to_type.
    apply (fold_left_establish Q _ objects other); [done| |].
    - intros g'. rewrite decide_True by done. unfold Q, _add_edge.
      rewrite decide_False by done. unfold edge. simpl.
      apply elem_of_get_set_add_to. by right.
    - intros g' o Hq. case_decide; [|done].
      by apply (ext_edges _ _ (_add_edge_extends g' _ _)). }
  apply (fold_left_establish Q _ objects tbl); [done| |].
  - intros g. unfold add_implicit_obj.
    unfold when_type at 1. rewrite decide_False by congruence.
    unfold when_type at 1. rewrite decide_False by congruence.
    unfold when_type at 1. rewrite decide_True by done.
    destruct Hoty as [Hds|Hff].
    + destruct (grows_edges_to_type objects EXTERNAL_FILE_FORMAT tbl
                  (add_edges_to_type objects EXTERNAL_DATA_SOURCE tbl
                     (when_type STORED_PROCEDURE tbl (add_own_schema_edges schemas tbl)
                        (when_type VIEW tbl (add_own_schema_edges schemas tbl)
                           (when_type TABLE tbl (add_own_schema_edges schemas tbl) g)))))
        as [_ [_ He _]].
      apply He. by apply Hadd.
    + by apply Hadd.
  - intros g o Hq. destruct (grows_implicit_obj objects schemas o g) as [_ [_ He _]].
    by apply He.
Qed.

End GraphMembership.

Module DiGraphFacts.
Import DiGraph.

Lemma has_node_spec g k : has_node g k = true ↔ k ∈ node_keys g.
Proof. unfold has_node. apply bool_decide_eq_true. Qed.

Lemma has_edge_spec g u v : has_edge g u v = true ↔ (u, v) ∈ fst <$> edges g.
Proof. unfold has_edge. apply bool_decide_eq_true. Qed.

Lemma node_keys_add_node g key data k :
  k ∈ node_keys (add_node g key data) ↔ k ∈ node_keys g ∨ k = key.
Proof.
  unfold add_node. destruct (has_node g key) eqn:Hhas; unfold node_keys; simpl.
  - apply has_node_spec in Hhas. rewrite <- list_fmap_compose.
    rewrite !list_elem_of_fmap. split.
    + intros ([k' d] & -> & Hin). simpl. case_decide; simpl in *; [by right|left].
      exists (k', d). auto.
    + intros [([k' d] & -> & Hin)| ->].
      * exists (k', d). split; [|done]. simpl. by case_decide; simplify_eq.
      * unfold node_keys in Hhas. apply list_elem_of_fmap in Hhas as ([k' d] & -> & Hin).
        exists (k', d). split; [|done]. simpl. by rewrite decide_True.
  - rewrite fmap_app, elem_of_app. simpl. rewrite list_elem_of_singleton. done.
Qed.

Lemma node_keys_touch_node g key k :
  k ∈ node_keys (touch_node g key) ↔ k ∈ node_keys g ∨ k = key.
Proof.
  unfold touch_node. destruct (has_node g key) eqn:Hhas.
  - apply has_node_spec in Hhas. split; [by left|]. by intros [?| ->].
  - unfold node_keys. simpl. rewrite fmap_app, elem_of_app. simpl.
    by rewrite list_elem_of_singleton.
Qed.

Lemma edges_touch_node g key : edges (touch_node g key) = edges g.
Proof. unfold touch_node. by destruct (has_node g key). Qed.

Lemma node_keys_add_edge g u v ty k :
  k ∈ node_keys (add_edge g u v ty) ↔ k ∈ node_keys g ∨ k = u ∨ k = v.
Proof.
  unfold add_edge.
  assert (∀ g', node_keys {| nodes := nodes g'; edges :=
            (λ e, if decide (e.1 = (u, v)) then (u, v, ty) else e) <$> edges g' |}
          = node_keys g') as H1 by done.
  assert (∀ g', node_keys {| nodes := nodes g'; edges := edges g' ++ [(u, v, ty)] |}
          = node_keys g') as H2 by done.
  destruct (has_edge _ u v); rewrite ?H1, ?H2, !node_keys_touch_node; tauto.
Qed.

(** The pairs joined by an edge after [add_edge]. *)
Lemma edge_pairs_add_edge g u v ty a b :
  (a, b) ∈ fst <$> edges (add_edge g u v ty)
  ↔ (a, b) ∈ fst <$> edges g ∨ (a = u ∧ b = v).
Proof.
  unfold add_edge. destruct (has_edge _ u v) eqn:Hhas; simpl.
  - apply has_edge_spec in Hhas. rewrite !edges_touch_node in *.
    rewrite <- list_fmap_compose.
    assert (fst ∘ (λ e : string * string * string,
                     if decide (e.1 = (u, v)) then (u, v, ty) else e) <$> edges g
            = fst <$> edges g) as ->.
    { apply list_fmap_ext. intros i [p t] _. simpl. by case_decide. }
    split; [by left|]. by intros [?|[-> ->]].
  - rewrite !edges_touch_node, fmap_app, elem_of_app. simpl.
    rewrite list_elem_of_singleton. naive_solver.
Qed.

Lemma has_edge_add_edge g u v ty : has_edge (add_edge g u v ty) u v = true.
Proof. apply has_edge_spec, edge_pairs_add_edge. by right. Qed.

Lemma has_edge_add_edge_mono g u v ty a b :
  has_edge g a b = true → has_edge (add_edge g u v ty) a b = true.
Proof. rewrite !has_edge_spec, edge_pairs_add_edge. by left. Qed.

Lemma elem_of_predecessors g a b :
  b ∈ predecessors g a ↔ (b, a) ∈ fst <$> edges g.
Proof.
  unfold predecessors. rewrite !list_elem_of_fmap. split.
  - intros ([[x y] t] & -> & [Hy Hin]%list_elem_of_filter). simpl in *. subst.
    by exists (x, a, t).
  - intros ([[x y] t] & [= -> ->] & Hin). exists (x, y, t). split; [done|].
    by apply list_elem_of_filter.
Qed.

End DiGraphFacts.

Module AnalyzerMembership.
Import DependencyAnalyzer AnalyzerInvariant DiGraphFacts.

Lemma confined_add_edge keys g u v ty :
  keys u → keys v → confined keys g → confined keys (DiGraph.add_edge g u v ty).
Proof.
  intros Hu Hv [Hn He]. split.
  - intros k. rewrite node_keys_add_edge, Hn. split; [intros [?|[->| ->]]; auto|auto].
  - intros a b [Hab|[-> ->]]%edge_pairs_add_edge; auto.
Qed.

Lemma nodes_after_add_node objects g k :
  k ∈ DiGraph.node_keys
        (fold_left (λ g obj, DiGraph.add_node g (key_of obj) (Some (node_data_of obj)))
           objects g)
  ↔ k ∈ DiGraph.node_keys g ∨ is_key objects k.
Proof.
  revert g. induction objects as [|o objects IH]; intros g; simpl.
  - split; [by left|]. intros [?|(? & H & _)]; [done|by apply elem_of_nil in H].
  - rewrite IH, node_keys_add_node. unfold is_key. split.
    + intros [[?| ->]|(o' & ? & ?)]; [by left|right; exists o; set_solver|right].
      exists o'. set_solver.
    + intros [?|(o' & [->|?]%elem_of_cons & ?)]; [by left; left|by left; right|right].
      by exists o'.
Qed.

Lemma edges_after_add_node objects g :
  DiGraph.edges
    (fold_left (λ g obj, DiGraph.add_node g (key_of obj) (Some (node_data_of obj)))
       objects g)
  = DiGraph.edges g.
Proof.
  revert g. induction objects as [|o objects IH]; intros g; simpl; [done|].
  rewrite IH. unfold DiGraph.add_node. by destruct (DiGraph.has_node g (key_of o)).
Qed.

(** A property kept by every guarded [add_edge] is kept by the two rules. *)
Lemma statistics_rule_keep objects obj (Q : DiGraph.t * list log_record → Prop) st :
  (∀ record st t, t ∈ objects → Q st →
     Q (add_implicit_edge record (key_of obj) st (key_of t))) →
  Q st → Q (statistics_rule objects obj st).
Proof.
  intros Hkeep Hst. unfold statistics_rule. case_decide; [|done].
  apply (fold_left_invariant Q); [|done].
  intros s table_key Hin Hs. destruct (is_substring _ _); [|done].
  apply list_elem_of_fmap in Hin as (t & -> & [_ Ht]%list_elem_of_filter). by apply Hkeep.
Qed.

Lemma external_table_rule_keep ext_sources obj
    (Q : DiGraph.t * list log_record → Prop) st :
  (∀ record st s, s ∈ ext_sources → Q st →
     Q (add_implicit_edge record (key_of obj) st s)) →
  Q st → Q (external_table_rule ext_sources obj st).
Proof.
  intros Hkeep Hst. unfold external_table_rule. case_decide; [|done].
  apply (fold_left_invariant Q); [|done]. intros s k Hin Hs. by apply Hkeep.
Qed.

Section steps.
Context (objects : list AssessmentObject.t).
Let keys := is_key objects.
Let all_keys : gset string :=
  list_to_set (DiGraph.node_keys
    (fold_left (λ g obj, DiGraph.add_node g (key_of obj) (Some (node_data_of obj)))
       objects DiGraph.empty)).

Lemma all_keys_spec k : k ∈ all_keys ↔ keys k.
Proof.
  unfold all_keys. rewrite elem_of_list_to_set, nodes_after_add_node.
  unfold DiGraph.node_keys at 1. simpl. split; [|by right].
  intros [H|?]; [by apply elem_of_nil in H|done].
Qed.

Lemma confined_explicit_dep obj st dep :
  obj ∈ objects → confined keys st.1 →
  confined keys (add_explicit_dep all_keys obj st dep).1.
Proof.
  intros Hobj Hc. unfold add_explicit_dep. case_decide as Hin; [|done]. simpl.
  apply confined_add_edge; [by exists obj|by apply all_keys_spec|done].
Qed.

Lemma confined_implicit_edge record u st v :
  keys u → keys v → confined keys st.1 →
  confined keys (add_implicit_edge record u st v).1.
Proof.
  intros Hu Hv Hc. unfold add_implicit_edge.
  destruct (DiGraph.has_edge st.1 u v); [done|]. simpl. by apply confined_add_edge.
Qed.

Lemma confined_implicit_obj ext_sources st obj :
  obj ∈ objects → (∀ s, s ∈ ext_sources → keys s) → confined keys st.1 →
  confined keys (add_implicit_obj objects ext_sources st obj).1.
Proof.
  intros Hobj Hsrc Hc. unfold add_implicit_obj.
  assert (keys (key_of obj)) as Hk by (by exists obj).
  apply (external_table_rule_keep _ _ (λ st, confined keys st.1)).
  { intros record s k Hin Hs. apply confined_implicit_edge; auto. }
  apply (statistics_rule_keep _ _ (λ st, confined keys st.1)); [|done].
  intros record s t Ht Hs. apply confined_implicit_edge; [done| |done]. by exists t.
Qed.

End steps.

(** [build_graph]: the nodes are the keys of the objects and every edge
    joins two of them. *)
Lemma build_graph_confined objects :
  confined (is_key objects) (build_graph objects).1.
Proof.
  unfold build_graph. simpl. unfold _add_implicit_dependencies.
  apply (fold_left_invariant (λ st, confined (is_key objects) st.1)).
  { intros st obj Hobj Hc. apply confined_implicit_obj; [done| |done].
    intros s (o & -> & [_ Ho]%list_elem_of_filter)%list_elem_of_fmap. by exists o. }
  apply (fold_left_invariant (λ st, confined (is_key objects) st.1)).
  { intros st obj Hobj Hc. unfold add_explicit_deps.
    apply (fold_left_invariant (λ st, confined (is_key objects) st.1)); [|done].
    intros st' dep _ Hc'. by apply confined_explicit_dep. }
  simpl. split.
  - intros k. rewrite nodes_after_add_node. unfold DiGraph.node_keys at 1. simpl.
    split; [|by right]. intros [H|?]; [by apply elem_of_nil in H|done].
  - intros u v. rewrite edges_after_add_node. simpl. by intros H%elem_of_nil.
Qed.

(** A dependency that resolves to no key is logged when it is dropped. *)
Lemma build_graph_logs_dropped objects obj dep :
  obj ∈ objects → dep ∈ AssessmentObject.dependencies obj →
  ¬ is_key objects (resolve obj dep) →
  DependencyNotFound dep (AssessmentObject.qualified_name obj) ∈ (build_graph objects).2.
Proof.
  intros Hobj Hdep Hnokey. unfold build_graph. simpl. apply elem_of_app. left.
  set (R := DependencyNotFound dep (AssessmentObject.qualified_name obj)).
  assert (∀ record u st v, R ∈ st.2 → R ∈ (add_implicit_edge record u st v).2) as Himp.
  { intros record u st v Hin. unfold add_implicit_edge.
    destruct (DiGraph.has_edge st.1 u v); [done|]. simpl. apply elem_of_app. by left. }
  unfold _add_implicit_dependencies.
  apply (fold_left_invariant (λ st, R ∈ st.2)).
  { intros st o _ Hin. unfold add_implicit_obj.
    apply (external_table_rule_keep _ _ (λ st, R ∈ st.2)); [by intros; apply Himp|].
    apply (statistics_rule_keep _ _ (λ st, R ∈ st.2)); [by intros; apply Himp|done]. }
  assert (∀ keys o st d, R ∈ st.2 → R ∈ (add_explicit_dep keys o st d).2) as Hexp.
  { intros keys o st d Hin. unfold add_explicit_dep. case_decide; [done|].
    simpl. apply elem_of_app. by left. }
  apply (fold_left_establish (λ st, R ∈ st.2) _ objects obj); [done| |].
  - intros st. unfold add_explicit_deps.
    apply (fold_left_establish (λ st, R ∈ st.2) _ _ dep); [done| |].
    + intros st'. unfold add_explicit_dep. rewrite decide_False.
      * simpl. apply elem_of_app. right. by apply list_elem_of_singleton.
      * rewrite all_keys_spec. done.
    + intros st' d. apply Hexp.
  - intros st o Hin. unfold add_explicit_deps.
    apply (fold_left_invariant (λ st, R ∈ st.2)); [|done].
    intros st' d _. apply Hexp.
Qed.

(** The external-table rule of [_add_implicit_dependencies]. *)
Lemma build_graph_external_edge objects tbl src :
  tbl ∈ objects → src ∈ objects →
  AssessmentObject.object_type tbl = "EXTERNAL_TABLE" →
  AssessmentObject.object_type src = "EXTERNAL_DATA_SOURCE" →
  DiGraph.has_edge (build_graph objects).1 (key_of tbl) (key_of src) = true.
Proof.
  intros Htbl Hsrc Hty Hsty. unfold build_graph. simpl.
  set (Q := λ st : DiGraph.t * list log_record,
              DiGraph.has_edge st.1 (key_of tbl) (key_of src) = true).
  assert (∀ record u st v, Q st → Q (add_implicit_edge record u st v)) as Hkeep.
  { intros record u st v Hq. unfold add_implicit_edge.
    destruct (DiGraph.has_edge st.1 u v); [done|]. by apply has_edge_add_edge_mono. }
  unfold _add_implicit_dependencies.
  apply (fold_left_establish Q _ objects tbl); [done| |].
  - intros st. unfold add_implicit_obj, external_table_rule.
    rewrite (decide_True _ _ Hty).
    apply (fold_left_establish Q _ _ (key_of src)).
    + apply list_elem_of_fmap. exists src. split; [done|]. by apply list_elem_of_filter.
    + intros st'. unfold Q, add_implicit_edge.
      destruct (DiGraph.has_edge st'.1 (key_of tbl) (key_of src)) eqn:Hhas; [done|].
      apply has_edge_add_edge.
    + intros st' k. apply Hkeep.
  - intros st o Hq. unfold add_implicit_obj.
    apply (external_table_rule_keep _ _ Q); [by intros; apply Hkeep|].
    apply (statistics_rule_keep _ _ Q); [by intros; apply Hkeep|done].
Qed.

End AnalyzerMembership.


(** ** Bounded breadth-first search and impact scores *)

Module BfsFacts.
Import DependencyAnalyzer BfsInvariant DiGraphFacts.

Section search.
Context (neighbours : string → list string) (node_key : string) (max_depth : Z).

Local Abbreviation R := (λ a b : string, b ∈ neighbours a).

(** The loop over the neighbours of one node in closed form: [new] lists
    the neighbours met for the first time. *)
Lemma visit_fold depth ns :
  ∀ visited queue,
    ∃ new,
      fold_left (visit node_key depth) ns (visited, queue)
      = (visited ∪ list_to_set new, queue ++ ((λ w, (w, depth + 1)) <$> new))
      ∧ NoDup new
      ∧ (∀ w, w ∈ new → w ∈ ns ∧ (w ∉ visited) ∧ w ≠ node_key)
      ∧ (∀ w, w ∈ ns → w = node_key ∨ w ∈ visited ∨ w ∈ new).
Proof.
  induction ns as [|n ns IH]; intros visited queue.
  - exists []. simpl. rewrite app_nil_r, union_empty_r_L.
    split; [done|]. split; [constructor|]. split; intros w Hw; by apply elem_of_nil in Hw.
  - simpl. unfold visit at 2. simpl. case_decide as Hn.
    + destruct Hn as [Hnv Hnk].
      destruct (IH (visited ∪ {[n]}) (queue ++ [(n, depth + 1)]))
        as (new & Hrun & Hnd & Hnew & Hall).
      exists (n :: new). rewrite Hrun. split; [|split; [|split]].
      * simpl. rewrite <- app_assoc. simpl. f_equal. set_solver.
      * constructor; [|done]. intros Hin. apply Hnew in Hin. set_solver.
      * intros w [-> |Hw]%elem_of_cons; [set_solver|].
        apply Hnew in Hw. set_solver.
      * intros w [-> |Hw]%elem_of_cons; [set_solver|].
        apply Hall in Hw. set_solver.
    + destruct (IH visited queue) as (new & Hrun & Hnd & Hnew & Hall).
      exists new. rewrite Hrun. split; [done|]. split; [done|]. split.
      * intros w Hw. apply Hnew in Hw. set_solver.
      * intros w [-> |Hw]%elem_of_cons; [|by apply Hall].
        apply not_and_l in Hn as [Hn|Hn].
        -- right; left. by apply dec_stable.
        -- left. by apply dec_stable.
Qed.

Lemma bfs_inv_initial : bfs_inv neighbours node_key max_depth ∅ [] [(node_key, 0)].
Proof.
  split; simpl.
  - by exists [].
  - apply NoDup_singleton.
  - intros v. rewrite list_elem_of_singleton. set_solver.
  - intros v d [= -> ->]%list_elem_of_singleton. exists 0%nat. by repeat split.
  - exists 0, [(node_key, 0)], []. repeat split; try done.
    + by intros e ->%list_elem_of_singleton.
    + by intros e ?%elem_of_nil.
    + by intros e ?%elem_of_nil.
  - by intros u du w ?%elem_of_nil.
Qed.

(** One iteration of the [while] loop keeps the invariant. *)
Lemma bfs_step visited processed u d queue :
  bfs_inv neighbours node_key max_depth visited processed ((u, d) :: queue) →
  let st := if max_depth <=? d then (visited, queue)
            else fold_left (visit node_key d) (neighbours u) (visited, queue) in
  bfs_inv neighbours node_key max_depth st.1 (processed ++ [(u, d)]) st.2.
Proof.
  intros [Hstart Hnd Hvis Hsound Hlev Hexp].
  assert (∃ new,
    (let st := if max_depth <=? d then (visited, queue)
               else fold_left (visit node_key d) (neighbours u) (visited, queue) in
     st = (visited ∪ list_to_set new, queue ++ ((λ w, (w, d + 1)) <$> new)))
    ∧ NoDup new
    ∧ (∀ w, w ∈ new → w ∈ neighbours u ∧ (w ∉ visited) ∧ w ≠ node_key ∧ d < max_depth)
    ∧ (d < max_depth → ∀ w, w ∈ neighbours u → w = node_key ∨ w ∈ visited ∨ w ∈ new))
    as (new & Hst & Hnew_nd & Hnew & Hall).
  { destruct (max_depth <=? d) eqn:Hcmp.
    - apply Z.leb_le in Hcmp. exists []. simpl.
      rewrite app_nil_r, union_empty_r_L. split; [done|]. split; [constructor|].
      split; [by intros w ?%elem_of_nil|]. intros. lia.
    - apply Z.leb_gt in Hcmp.
      destruct (visit_fold d (neighbours u) visited queue) as (new & Hrun & ? & Hn & Ha).
      exists new. split; [done|]. split; [done|]. split; [|by intros _].
      intros w Hw. apply Hn in Hw. naive_solver. }
  simpl in Hst. intros st. subst st. rewrite Hst. simpl. clear Hst.
  set (entries := (λ w, (w, d + 1)) <$> new).
  assert ((processed ++ [(u, d)]) ++ queue ++ entries
          = (processed ++ (u, d) :: queue) ++ entries) as Hseq.
  { by rewrite <- !app_assoc. }
  assert (entries.*1 = new) as Hfst.
  { unfold entries. rewrite <- list_fmap_compose. apply list_fmap_id. }
  assert (∀ e, e ∈ entries → e.2 = d + 1) as Hdepth.
  { intros e (w & -> & _)%list_elem_of_fmap. done. }
  assert (∀ w, w ∈ (processed ++ (u, d) :: queue).*1 → w ∉ new) as Hfresh.
  { intros w Hw Hin. apply Hnew in Hin as (_ & Hnv & Hnk & _). apply Hnv, Hvis. done. }
  split.
  - destruct Hstart as [rest Hrest]. exists (rest ++ entries). by rewrite Hseq, Hrest.
  - rewrite Hseq, fmap_app, Hfst. apply NoDup_app. done.
  - intros v. rewrite Hseq, fmap_app, Hfst, elem_of_union, elem_of_app, Hvis.
    rewrite elem_of_list_to_set. split; [|tauto].
    intros [?|Hin]; [tauto|]. split; [|by right].
    by apply Hnew in Hin as (_ & _ & ? & _).
  - intros v dv. rewrite Hseq. intros [Hin|Hin]%elem_of_app; [by apply Hsound|].
    apply list_elem_of_fmap in Hin as (w & [= -> ->] & Hw).
    apply Hnew in Hw as (Hw & _ & Hnk & Hlt).
    destruct (Hsound u d) as (k & -> & Hreach & _); [set_solver|].
    exists (S k). split; [lia|]. split; [by exists u|]. intros _. lia.
  - destruct Hlev as (lo & A & B & Hq & HA & HB & Hp).
    destruct A as [|a A].
    + simpl in Hq. destruct B as [|b B]; [done|]. injection Hq as <- <-.
      assert (d = lo + 1) as Hd by (apply (HB (u, d)); by left).
      exists (lo + 1), queue, entries. split; [done|].
      split; [intros e He; apply HB; by right|].
      split; [intros e He; rewrite Hdepth by done; lia|].
      intros e [He| ->%list_elem_of_singleton]%elem_of_app; [|simpl; lia].
      apply Hp in He. lia.
    + simpl in Hq. injection Hq as <- ->.
      assert (d = lo) as Hd by (apply (HA (u, d)); by left).
      exists lo, A, (B ++ entries). split; [by rewrite app_assoc|].
      assert (∀ e, e ∈ A → e.2 = lo) as HA' by (intros e He; apply HA; by right).
      split; [intros e He; apply HA; by right|].
      split.
      * intros e [He|He]%elem_of_app; [by apply HB|]. rewrite Hdepth by done. lia.
      * intros e [He| ->%list_elem_of_singleton]%elem_of_app; [by apply Hp|simpl; lia].
  - intros x dx w [Hx|[= -> ->]%list_elem_of_singleton]%elem_of_app Hlt Hw.
    + destruct (Hexp x dx w Hx Hlt Hw) as [?|(dw & Hin & Hle)]; [by left|right].
      exists dw. split; [|done]. rewrite Hseq. apply elem_of_app. by left.
    + destruct (Hall Hlt w Hw) as [?|[Hv|Hn]]; [by left|right..].
      * apply Hvis in Hv as [_ Hv]. apply list_elem_of_fmap in Hv as ([w' dw] & -> & Hin).
        exists dw. split; [rewrite Hseq; apply elem_of_app; by left|]. simpl.
        destruct Hlev as (lo & A & B & Hq & HA & HB & Hp).
        assert (lo ≤ d) as Hlo.
        { assert ((u, d) ∈ A ++ B) as Hx by (rewrite <- Hq; by left).
          apply elem_of_app in Hx as [Hx|Hx]; [apply HA in Hx|apply HB in Hx]; simpl in *; lia. }
        apply elem_of_app in Hin as [Hin|Hin].
        -- apply Hp in Hin. simpl in Hin. lia.
        -- rewrite Hq in Hin. apply elem_of_app in Hin as [Hin|Hin];
             [apply HA in Hin|apply HB in Hin]; simpl in *; lia.
      * exists (d + 1). split; [|lia]. rewrite Hseq. apply elem_of_app. right.
        apply list_elem_of_fmap. by exists w.
Qed.

(** The search returns when the fuel covers the nodes that can enter the
    queue: the start node and the members of [universe]. *)
Lemma bfs_returns (universe : list string) fuel :
  (∀ a w, w ∈ neighbours a → w ∈ universe) →
  ∀ visited processed queue,
    bfs_inv neighbours node_key max_depth visited processed queue →
    (length universe + 1 ≤ fuel + length processed)%nat →
    ∃ visited' processed',
      bfs fuel neighbours node_key max_depth visited queue = Returned visited'
      ∧ bfs_inv neighbours node_key max_depth visited' processed' [].
Proof.
  intros Huniv. induction fuel as [|fuel IH]; intros visited processed queue Hinv Hfuel.
  - destruct queue as [|[u d] queue]; [by exists visited, processed|]. exfalso.
    assert (length (processed ++ (u, d) :: queue) ≤ S (length universe))%nat as Hlen.
    { rewrite <- (length_fmap fst).
      change (S (length universe)) with (length (node_key :: universe)).
      apply submseteq_length, NoDup_submseteq; [apply Hinv|].
      intros v Hv. destruct (decide (v = node_key)) as [-> |Hne]; [by left|right].
      apply list_elem_of_fmap in Hv as ([v' dv] & -> & Hin).
      destruct (bi_sound _ _ _ _ _ _ Hinv v' dv Hin) as (k & _ & Hreach & Hk).
      destruct (Hk Hne) as [Hk1 _]. destruct k as [|k]; [lia|].
      destruct Hreach as (c & _ & Hc). by eapply Huniv. }
    rewrite length_app in Hlen. simpl in *. lia.
  - destruct queue as [|[u d] queue]; [by exists visited, processed|].
    pose proof (bfs_step visited processed u d queue Hinv) as Hstep. simpl in Hstep.
    simpl. destruct (max_depth <=? d).
    + apply (IH _ (processed ++ [(u, d)])); [exact Hstep|].
      rewrite length_app. simpl. lia.
    + apply (IH _ (processed ++ [(u, d)])); [exact Hstep|].
      rewrite length_app. simpl. lia.
Qed.

(** What the set returned by a finished search contains. *)
Lemma bfs_inv_final visited processed v :
  bfs_inv neighbours node_key max_depth visited processed [] →
  (v ∈ visited ↔
   v ≠ node_key ∧ ∃ k, (1 ≤ k)%nat ∧ Z.of_nat k ≤ max_depth ∧ reach R k node_key v).
Proof.
  intros [Hstart Hnd Hvis Hsound Hlev Hexp]. rewrite app_nil_r in *. split.
  - intros [Hne Hin]%Hvis. split; [done|].
    apply list_elem_of_fmap in Hin as ([v' d] & -> & Hin).
    destruct (Hsound v' d Hin) as (k & -> & Hreach & Hk). destruct (Hk Hne).
    by exists k.
  - intros [Hne (k & Hk1 & Hkmax & Hreach)]. apply Hvis. split; [done|].
    assert (∀ k v, reach R k node_key v → Z.of_nat k ≤ max_depth →
              v = node_key ∨ ∃ d, (v, d) ∈ processed ∧ d ≤ Z.of_nat k) as Hcomplete.
    { clear - Hstart Hexp. induction k as [|k IH]; intros v Hreach Hmax.
      - left. by symmetry.
      - destruct Hreach as (c & Hc & Hcv).
        assert (∃ dc, (c, dc) ∈ processed ∧ dc ≤ Z.of_nat k) as (dc & Hin & Hdc).
        { destruct (IH c Hc) as [-> |?]; [lia| |done].
          exists 0. split; [|lia]. destruct Hstart as [rest ->]. by left. }
        destruct (Hexp c dc v Hin) as [?|(dv & Hv & Hdv)]; [lia|done|by left|right].
        exists dv. split; [done|lia]. }
    destruct (Hcomplete k v Hreach Hkmax) as [?|(d & Hin & _)]; [done|].
    apply list_elem_of_fmap. by exists (v, d).
Qed.

End search.

(** [_get_descendants] returns, and returns the nodes that depend on the
    start node through at most [max_depth] edges. *)
Lemma _get_descendants_spec g max_depth node_key :
  ∃ D, _get_descendants g max_depth node_key = Returned D
       ∧ ∀ v, v ∈ D ↔ descendant_within g max_depth node_key v.
Proof.
  unfold _get_descendants.
  destruct (bfs_returns (DiGraph.predecessors g) node_key max_depth
              ((λ e, e.1.1) <$> DiGraph.edges g) (bfs_fuel g)) with
    (visited := (∅ : gset string)) (processed := @nil (string * Z))
    (queue := [(node_key, 0)]) as (D & processed & Hrun & Hinv).
  - intros a w Hw. unfold DiGraph.predecessors in Hw.
    apply list_elem_of_fmap in Hw as (e & -> & [_ He]%list_elem_of_filter).
    apply list_elem_of_fmap. by exists e.
  - apply bfs_inv_initial.
  - unfold bfs_fuel. rewrite length_fmap. simpl. lia.
  - exists D. split; [done|]. intros v.
    rewrite (bfs_inv_final _ _ _ D processed v Hinv). done.
Qed.

(** Reaching a node in at least one step is the transitive closure. *)
Lemma reach_tc (R : string → string → Prop) k a b :
  (1 ≤ k)%nat → reach R k a b → tc R a b.
Proof.
  revert b. induction k as [|k IH]; intros b Hk Hreach; [lia|].
  destruct Hreach as (c & Hc & Hcb). destruct k as [|k].
  - simpl in Hc. subst. by apply tc_once.
  - eapply tc_r; [|done]. apply IH; [lia|done].
Qed.

Lemma tc_reach (R : string → string → Prop) a b :
  tc R a b → ∃ k, (1 ≤ k)%nat ∧ reach R k a b.
Proof.
  intros H. apply tc_nsteps in H as (n & Hn & Hsteps). exists n. split; [lia|].
  clear Hn. revert a b Hsteps. induction n as [|n IH]; intros a b Hsteps.
  - by inversion Hsteps.
  - apply nsteps_inv_r in Hsteps as (c & Hc & Hcb). exists c. split; [by apply IH|done].
Qed.

(** [calculate_impact_scores] returns; a key has a score exactly when a
    failed object carries it, and the score counts its descendants within
    the depth bound. *)
Lemma calculate_impact_scores_spec objects g max_depth :
  ∃ scores,
    calculate_impact_scores objects g max_depth = Returned scores
    ∧ (∀ o, o ∈ objects → AssessmentObject.is_failed o = true →
         ∃ D, _get_descendants g max_depth (key_of o) = Returned D
              ∧ scores !! key_of o = Some (Z.of_nat (size D)))
    ∧ (∀ k, (∀ o, o ∈ objects → AssessmentObject.is_failed o = true → key_of o ≠ k) →
         scores !! k = None).
Proof.
  unfold calculate_impact_scores.
  assert (∀ (scores0 : gmap string Z),
    ∃ scores,
      for_each (λ scores obj,
          if AssessmentObject.is_failed obj then
            descendants ← _get_descendants g max_depth (key_of obj);
            Returned (<[key_of obj := Z.of_nat (size descendants)]> scores)
          else Returned scores) objects scores0 = Returned scores
      ∧ (∀ o, o ∈ objects → AssessmentObject.is_failed o = true →
           ∃ D, _get_descendants g max_depth (key_of o) = Returned D
                ∧ scores !! key_of o = Some (Z.of_nat (size D)))
      ∧ (∀ k, (∀ o, o ∈ objects → AssessmentObject.is_failed o = true → key_of o ≠ k) →
           scores !! k = scores0 !! k)) as H.
  { induction objects as [|o objects IH]; intros scores0.
    - exists scores0. split; [done|]. split; [by intros o ?%elem_of_nil|done].
    - cbn [for_each]. destruct (AssessmentObject.is_failed o) eqn:Hfailed.
      + destruct (_get_descendants_spec g max_depth (key_of o)) as (D & HD & _).
        rewrite HD. cbn [mbind outcome_bind].
        destruct (IH (<[key_of o := Z.of_nat (size D)]> scores0))
          as (scores & Hrun & Hfailed_keys & Hother).
        exists scores. split; [done|]. split.
        * intros o' [-> |Ho']%elem_of_cons Hf; [|by apply Hfailed_keys].
          exists D. split; [done|].
          destruct (decide (Exists (λ o'', AssessmentObject.is_failed o'' = true
                                           ∧ key_of o'' = key_of o) objects)) as [Hex|Hno].
          -- apply Exists_exists in Hex as (o'' & ? & ? & Hk).
             destruct (Hfailed_keys o'') as (D' & HD' & Hs); [done..|].
             rewrite Hk in HD', Hs. congruence.
          -- rewrite Hother; [by rewrite lookup_insert_eq|].
             intros o'' ? ? ?. apply Hno, Exists_exists. by exists o''.
        * intros k Hk. rewrite Hother.
          -- rewrite lookup_insert_ne; [done|]. apply Hk; [by left|done].
          -- intros o' Ho'. apply Hk. by right.
      + cbn [mbind outcome_bind]. destruct (IH scores0) as (scores & Hrun & Hf & Hother).
        exists scores. split; [done|]. split.
        * intros o' [-> |Ho']%elem_of_cons Hf'; [congruence|by apply Hf].
        * intros k Hk. apply Hother. intros o' Ho'. apply Hk. by right. }
  destruct (H ∅) as (scores & Hrun & Hf & Hother). exists scores.
  split; [done|]. split; [done|]. intros k Hk. by rewrite Hother.
Qed.

End BfsFacts.


(** ** The balanced partitioner: greedy placement *)

Module PartitionFacts.
Import PartitionInvariant DependencyGraph BalancedBatchingStrategy.

(** *** Sorting by a key *)

Section sorting.
Context {A : Type} (le : A → A → bool) (key : A → Z).
Hypothesis le_total : ∀ a b, le a b = false → le b a = true.
Hypothesis le_key : ∀ a b, le a b = true → key a ≤ key b.

Local Abbreviation by_key := (λ a b : A, key a ≤ key b).

Lemma insert_by_sorted x l :
  StronglySorted by_key l → StronglySorted by_key (insert_by le x l).
Proof.
  induction 1 as [|y l Hl IH Hy]; simpl.
  - repeat constructor.
  - destruct (le x y) eqn:Hxy.
    + constructor; [by constructor|]. constructor; [by apply le_key|].
      eapply Forall_impl; [exact Hy|]. intros z Hz. simpl in *.
      apply le_key in Hxy. lia.
    + constructor; [done|]. rewrite insert_by_perm. constructor; [|done].
      by apply le_key, le_total.
Qed.

Lemma sorted_by_sorted l : StronglySorted by_key (sorted_by le l).
Proof.
  induction l as [|x l IH]; [constructor|]. by apply insert_by_sorted.
Qed.

(** In the sorted list nothing after [x] has a smaller key. *)
Lemma sorted_by_later l pre x post y :
  sorted_by le l = pre ++ x :: post → y ∈ post → key x ≤ key y.
Proof.
  intros Heq Hy. pose proof (sorted_by_sorted l) as Hs. rewrite Heq in Hs. clear Heq.
  induction pre as [|a pre IH]; simpl in Hs.
  - apply StronglySorted_inv in Hs as [_ Hall]. by apply (proj1 (Forall_forall _ _) Hall).
  - apply StronglySorted_inv in Hs as [Hs _]. by apply IH.
Qed.

End sorting.

Lemma placement_le_total ntl a b :
  placement_le ntl a b = false → placement_le ntl b a = true.
Proof.
  unfold placement_le. intros Hf.
  apply orb_false_iff in Hf as [H1 H2]. apply Z.ltb_ge in H1.
  destruct (Z.ltb_spec (layer_key ntl b) (layer_key ntl a)) as [|Hge]; [done|].
  rewrite (proj2 (Z.eqb_eq _ _)) by lia.
  rewrite (proj2 (Z.eqb_eq _ _)) in H2 by lia. simpl in *.
  apply orb_false_iff in H2 as [H3 H4]. apply Z.ltb_ge in H3.
  destruct (Z.ltb_spec (- impact_score b) (- impact_score a)) as [|Hge']; [done|].
  rewrite (proj2 (Z.eqb_eq _ _)) by lia.
  rewrite (proj2 (Z.eqb_eq _ _)) in H4 by lia. simpl in *.
  destruct (String.leb_total (qualified_name a) (qualified_name b)); [congruence|done].
Qed.

Lemma placement_le_key ntl a b :
  placement_le ntl a b = true → layer_key ntl a ≤ layer_key ntl b.
Proof.
  unfold placement_le.
  destruct (Z.ltb_spec (layer_key ntl a) (layer_key ntl b)); [lia|].
  destruct (Z.eqb_spec (layer_key ntl a) (layer_key ntl b)); [lia|done].
Qed.

(** *** The layer dictionary *)

Lemma fold_insert_const (i : nat) (l : list string) (m : gmap string nat) k :
  fold_left (λ m node, <[node := i]> m) l m !! k
  = if decide (k ∈ l) then Some i else m !! k.
Proof.
  revert m. induction l as [|x l IH]; intros m.
  - rewrite decide_False by apply not_elem_of_nil. done.
  - simpl fold_left. rewrite IH. destruct (decide (k ∈ l)) as [Hin|Hnin].
    + rewrite decide_True by set_solver. done.
    + destruct (decide (k = x)) as [->|Hne].
      * rewrite decide_True by set_solver. by rewrite lookup_insert_eq.
      * rewrite decide_False by set_solver. by rewrite lookup_insert_ne.
Qed.

Lemma node_to_layer_fold (layers : list (list string)) :
  ∀ (f : nat → nat) (m0 : gmap string nat) n,
    let m := fold_left (λ m il, fold_left (λ m node, <[node := il.1]> m) il.2 m)
               (imap (λ i l, (f i, l)) layers) m0 in
    (n ∉ concat layers → m !! n = m0 !! n)
    ∧ (n ∈ concat layers →
       ∃ i layer, layers !! i = Some layer ∧ n ∈ layer ∧ m !! n = Some (f i)).
Proof.
  induction layers as [|l layers IH]; intros f m0 n; simpl.
  - split; [done|]. by intros ?%elem_of_nil.
  - destruct (IH (f ∘ S) (fold_left (λ m node, <[node := f 0%nat]> m) l m0) n)
      as [Hout Hin].
    split.
    + intros Hn. rewrite elem_of_app in Hn. etrans; [apply Hout; tauto|].
      rewrite fold_insert_const. rewrite decide_False; [done|tauto].
    + intros Hn. destruct (decide (n ∈ concat layers)) as [Hc|Hc].
      * destruct (Hin Hc) as (i & layer & Hi & Hl & Hm). exists (S i), layer.
        split; [done|]. split; [done|]. exact Hm.
      * exists 0%nat, l. rewrite elem_of_app in Hn. destruct Hn as [Hn|?]; [|done].
        split; [done|]. split; [done|]. etrans; [apply Hout; done|].
        rewrite fold_insert_const. by rewrite decide_True.
Qed.

Lemma node_to_layer_of_spec layers n :
  (n ∉ concat layers → node_to_layer_of layers !! n = None)
  ∧ (n ∈ concat layers →
     ∃ i layer, layers !! i = Some layer ∧ n ∈ layer
                ∧ node_to_layer_of layers !! n = Some i).
Proof.
  unfold node_to_layer_of.
  destruct (node_to_layer_fold layers (λ i, i) ∅ n) as [Hout Hin]. split.
  - intros Hn. etrans; [exact (Hout Hn)|]. apply lookup_empty.
  - intros Hn. exact (Hin Hn).
Qed.

Lemma NoDup_concat_unique (layers : list (list string)) i j li lj n :
  NoDup (concat layers) → layers !! i = Some li → layers !! j = Some lj →
  n ∈ li → n ∈ lj → i = j.
Proof.
  revert i j. induction layers as [|l layers IH]; intros i j Hnd Hi Hj Hni Hnj; [done|].
  simpl in Hnd. apply NoDup_app in Hnd as (_ & Hdisj & Hnd).
  destruct i as [|i], j as [|j]; simpl in *; [done|..].
  - injection Hi as <-. exfalso. apply (Hdisj n Hni).
    rewrite list_elem_of_In, in_concat. exists lj.
    rewrite <- !list_elem_of_In. split; [by eapply list_elem_of_lookup_2|done].
  - injection Hj as <-. exfalso. apply (Hdisj n Hnj).
    rewrite list_elem_of_In, in_concat. exists li.
    rewrite <- !list_elem_of_In. split; [by eapply list_elem_of_lookup_2|done].
  - f_equal. by apply IH.
Qed.

(** *** The two choices of the placement loop *)

Lemma min_batch_for_spec obj_to_batch obj :
  (∀ dep b, dep ∈ dependencies obj → obj_to_batch !! dep = Some b →
     (b ≤ min_batch_for obj_to_batch obj)%nat)
  ∧ (min_batch_for obj_to_batch obj = 0%nat
     ∨ ∃ dep, obj_to_batch !! dep = Some (min_batch_for obj_to_batch obj)).
Proof.
  unfold min_batch_for.
  assert (∀ deps init,
    let r := fold_left (λ min_batch dep_name,
                 match obj_to_batch !! dep_name with
                 | Some b => Nat.max min_batch b
                 | None => min_batch
                 end) deps init in
    (init ≤ r)%nat
    ∧ (∀ dep b, dep ∈ deps → obj_to_batch !! dep = Some b → (b ≤ r)%nat)
    ∧ (r = init ∨ ∃ dep, obj_to_batch !! dep = Some r)) as H.
  { induction deps as [|d deps IH]; intros init; simpl.
    - split; [lia|]. split; [by intros ? ? ?%elem_of_nil|by left].
    - destruct (obj_to_batch !! d) as [b|] eqn:Hd.
      + destruct (IH (Nat.max init b)) as (Hle & Hall & Hor). split; [lia|]. split.
        * intros dep b' [->|Hin]%elem_of_cons Hb'; [|by eapply Hall].
          rewrite Hd in Hb'. injection Hb' as <-. lia.
        * destruct Hor as [Hr|?]; [|by right]. rewrite Hr.
          destruct (Nat.max_spec init b) as [[_ ->]|[_ ->]]; [right; by exists d|by left].
      + destruct (IH init) as (Hle & Hall & Hor). split; [done|]. split; [|done].
        intros dep b' [->|Hin]%elem_of_cons Hb'; [congruence|by eapply Hall]. }
  destruct (H (dependencies obj) 0%nat) as (_ & Hall & Hor). split; [exact Hall|].
  exact Hor.
Qed.

Lemma best_batch_for_range partitions min_batch num_batches :
  (min_batch ≤ best_batch_for partitions min_batch num_batches)%nat
  ∧ ((min_batch < num_batches)%nat →
     (best_batch_for partitions min_batch num_batches < num_batches)%nat).
Proof.
  unfold best_batch_for.
  set (scan := λ (best : nat * option nat) (bi : nat),
         let size := length (partitions !!! bi) in
         if smaller_than size best.2 then (bi, Some size) else best).
  assert (∀ l (init : nat * option nat),
    (∀ bi, bi ∈ l → (min_batch ≤ bi < num_batches)%nat) →
    (fold_left scan l init).1 = init.1
    ∨ (min_batch ≤ (fold_left scan l init).1 < num_batches)%nat) as H.
  { induction l as [|bi l IH]; intros init Hl; [by left|].
    cbn [fold_left].
    assert (scan init bi = (bi, Some (length (partitions !!! bi)))
            ∨ scan init bi = init) as [-> | ->].
    { unfold scan. cbv zeta. destruct (smaller_than _ _); [by left|by right]. }
    - assert (∀ bi0, bi0 ∈ l → (min_batch ≤ bi0 < num_batches)%nat) as Hl'
        by (intros; apply Hl; by right).
      destruct (IH (bi, Some (length (partitions !!! bi))) Hl') as [Heq|Hr].
      + right. rewrite Heq. simpl. apply Hl. by left.
      + by right.
    - apply IH. intros. apply Hl. by right. }
  match goal with |- context [fold_left scan ?l ?init] =>
    destruct (H l init) as [Hr|Hr] end.
  - intros bi Hbi%elem_of_seq. lia.
  - rewrite Hr. simpl. lia.
  - lia.
Qed.

(** *** Where objects are after an update of one batch *)

Lemma batch_of_lt partitions (o : DatabaseObject) i :
  batch_of partitions o i → (i < length partitions)%nat.
Proof. intros (p & Hp & _). by eapply lookup_lt_Some. Qed.

Lemma batch_of_concat partitions (o : DatabaseObject) :
  o ∈ concat partitions ↔ ∃ i, batch_of partitions o i.
Proof.
  unfold batch_of. rewrite list_elem_of_In, in_concat. split.
  - intros (p & Hp & Ho). apply list_elem_of_In, list_elem_of_lookup in Hp as [i Hi].
    exists i, p. by rewrite list_elem_of_In.
  - intros (i & p & Hi & Ho). exists p. rewrite <- !list_elem_of_In.
    split; [by eapply list_elem_of_lookup_2|done].
Qed.

Lemma batch_of_append partitions (x o : DatabaseObject) i j :
  (i < length partitions)%nat →
  (batch_of (alter (λ p, p ++ [x]) i partitions) o j
   ↔ batch_of partitions o j ∨ (o = x ∧ j = i)).
Proof.
  intros Hi. unfold batch_of. destruct (decide (i = j)) as [->|Hne].
  - rewrite list_lookup_alter_eq. destruct (lookup_lt_is_Some_2 _ _ Hi) as [p Hp].
    rewrite Hp. simpl. split.
    + intros (p' & [= <-] & [Ho|Ho%list_elem_of_singleton]%elem_of_app); [left|by right].
      by exists p.
    + intros [(p' & [= <-] & Ho)|[-> _]]; exists (p ++ [x]); (split; [done|]);
        apply elem_of_app; [by left|right; by left].
  - rewrite list_lookup_alter_ne by done. split; [by left|]. intros [?|[_ ->]]; done.
Qed.

Lemma concat_append (partitions : list (list DatabaseObject)) x i :
  (i < length partitions)%nat →
  concat (alter (λ p, p ++ [x]) i partitions) ≡ₚ x :: concat partitions.
Proof.
  revert i. induction partitions as [|p partitions IH]; intros i Hi; simpl in *; [lia|].
  destruct i as [|i]; simpl.
  - rewrite <- app_assoc. simpl. by rewrite <- Permutation_middle.
  - change (list_alter ?f i partitions) with (alter f i partitions).
    rewrite IH by lia. by rewrite Permutation_middle.
Qed.

(** *** The placement loop *)

Lemma tracked_unique partitions obj_to_batch o i j :
  tracked partitions obj_to_batch →
  batch_of partitions o i → batch_of partitions o j → i = j.
Proof.
  intros (_ & Hto & _) Hi Hj. apply Hto in Hi, Hj. congruence.
Qed.

Lemma tracked_same_name partitions obj_to_batch o o' :
  tracked partitions obj_to_batch →
  o ∈ concat partitions → o' ∈ concat partitions →
  qualified_name o = qualified_name o' → o = o'.
Proof.
  intros (Hnd & _) Ho Ho' Hq.
  apply list_elem_of_lookup in Ho as [i Hi], Ho' as [j Hj].
  assert (i = j) as ->.
  { eapply NoDup_lookup; [exact Hnd|..]; rewrite list_lookup_fmap.
    - by rewrite Hi.
    - rewrite Hj. simpl. by rewrite Hq. }
  congruence.
Qed.

Lemma place_spec num_batches placed st x :
  (0 < num_batches)%nat →
  placement_inv num_batches placed st →
  qualified_name x ∉ qualified_name <$> placed →
  (∀ o, o ∈ placed → qualified_name x ∉ dependencies o) →
  ∃ st', place num_batches st x = Returned st'
         ∧ placement_inv num_batches (placed ++ [x]) st'.
Proof.
  intros Hnb [Hlen Hperm Htracked Hresp] Hfresh Hforward.
  destruct st as [partitions obj_to_batch]. simpl in *.
  pose proof Htracked as (Hnd & Hto & Hfrom).
  destruct (min_batch_for_spec obj_to_batch x) as [Hmin_ge Hmin_or].
  set (min_batch := min_batch_for obj_to_batch x) in *.
  assert (min_batch < num_batches)%nat as Hmin_lt.
  { destruct Hmin_or as [->|(dep & Hdep)]; [done|].
    apply Hfrom in Hdep as (o & _ & Ho). apply batch_of_lt in Ho. lia. }
  destruct (best_batch_for_range partitions min_batch num_batches) as [Hbest_ge Hbest_lt].
  specialize (Hbest_lt Hmin_lt).
  set (best_batch := best_batch_for partitions min_batch num_batches) in *.
  unfold place. simpl. fold min_batch. fold best_batch.
  assert (best_batch < length partitions)%nat as Hbest by lia.
  rewrite (proj2 (Nat.ltb_lt _ _) Hbest).
  eexists. split; [done|].
  assert (∀ o, o ∈ concat partitions → qualified_name o ≠ qualified_name x) as Hother.
  { intros o Ho Hq. apply Hfresh. rewrite <- Hq. apply list_elem_of_fmap.
    exists o. split; [done|]. by rewrite <- Hperm. }
  split; simpl.
  - by rewrite length_alter.
  - rewrite concat_append by done. rewrite Hperm. by rewrite <- Permutation_cons_append.
  - split; [|split].
    + rewrite concat_append by done. rewrite fmap_cons. apply NoDup_cons. split; [|done].
      intros (o & Hq & Ho)%list_elem_of_fmap. by apply (Hother o).
    + intros o i [Ho|[-> ->]]%batch_of_append; [|by rewrite lookup_insert_eq|done].
      rewrite lookup_insert_ne; [by apply Hto|].
      intros Hq. apply (Hother o); [|done]. apply batch_of_concat. by exists i.
    + intros q i. destruct (decide (q = qualified_name x)) as [->|Hne].
      * rewrite lookup_insert_eq. intros [= <-]. exists x. split; [done|].
        apply batch_of_append; [done|]. by right.
      * rewrite lookup_insert_ne by done. intros (o & Hq & Ho)%Hfrom.
        exists o. split; [done|]. apply batch_of_append; [done|]. by left.
  - intros o d i j [Ho|[-> ->]]%batch_of_append [Hd|[-> ->]]%batch_of_append Hdep;
      try done.
    + by eapply Hresp.
    + exfalso. apply (Hforward o); [|done]. rewrite <- Hperm. apply batch_of_concat.
      by exists i.
    + pose proof (Hto d j Hd) as Hj. pose proof (Hmin_ge _ _ Hdep Hj). lia.
Qed.

Lemma placement_loop num_batches sorted_objs :
  (0 < num_batches)%nat →
  NoDup (qualified_name <$> sorted_objs) →
  (∀ pre x post o, sorted_objs = pre ++ x :: post → o ∈ pre →
     qualified_name x ∉ dependencies o) →
  ∀ rest placed st,
    sorted_objs = placed ++ rest →
    placement_inv num_batches placed st →
    ∃ st', for_each (place num_batches) rest st = Returned st'
           ∧ placement_inv num_batches sorted_objs st'.
Proof.
  intros Hnb Hnd Hforward. induction rest as [|x rest IH]; intros placed st Heq Hinv.
  - rewrite app_nil_r in Heq. subst. by exists st.
  - destruct (place_spec num_batches placed st x Hnb Hinv) as (st1 & Hplace & Hinv1).
    + rewrite Heq, fmap_app, fmap_cons in Hnd.
      apply NoDup_app in Hnd as (_ & Hdisj & _). intros Hin. apply (Hdisj _ Hin). by left.
    + intros o Ho. by eapply Hforward.
    + destruct (IH (placed ++ [x]) st1) as (st' & Hrun & Hinv').
      * by rewrite <- app_assoc.
      * done.
      * exists st'. split; [|done]. cbn [for_each]. rewrite Hplace. done.
Qed.

Lemma placement_inv_initial num_batches :
  placement_inv num_batches [] (replicate num_batches [], ∅).
Proof.
  assert (∀ o i, ¬ batch_of (replicate num_batches []) o i) as Hnone.
  { intros o i (p & Hp & Ho). apply lookup_replicate in Hp as [-> _].
    by apply elem_of_nil in Ho. }
  assert (concat (replicate num_batches (@nil DatabaseObject)) = []) as Hconcat.
  { clear Hnone. induction num_batches as [|n IH]; [done|]. simpl. done. }
  split; simpl.
  - apply length_replicate.
  - by rewrite Hconcat.
  - split; [|split].
    + rewrite Hconcat. constructor.
    + intros o i Ho. by apply Hnone in Ho.
    + intros q i Hq. by rewrite lookup_empty in Hq.
  - intros o d i j Ho. by apply Hnone in Ho.
Qed.

End PartitionFacts.


(** ** The balanced partitioner: rebalancing and the whole of
    [_partition_balanced] *)

Module RebalanceFacts.
Import PartitionInvariant DependencyGraph DependencyGraphFacts.
Import BalancedBatchingStrategy PartitionFacts.

(** *** [list.remove], [list.index], [max] and [min] *)

Lemma elem_of_remove_first c l o :
  NoDup l → o ∈ remove_first c l ↔ o ∈ l ∧ o ≠ c.
Proof.
  induction l as [|y l IH]; intros Hnd; simpl.
  - split; [by intros ?%elem_of_nil|by intros [?%elem_of_nil _]].
  - apply NoDup_cons in Hnd as [Hy Hnd]. destruct (decide (y = c)) as [->|Hne].
    + split.
      * intros Ho. split; [by right|]. by intros ->.
      * by intros [[->|Ho]%elem_of_cons Hoc].
    + rewrite !elem_of_cons, IH by done. split.
      * intros [->|[Ho Hoc]]; [split; [by left|done]|split; [by right|done]].
      * intros [[->|Ho] Hoc]; [by left|by right].
Qed.

Lemma remove_first_perm c l : c ∈ l → l ≡ₚ c :: remove_first c l.
Proof.
  induction l as [|y l IH]; simpl; [by intros ?%elem_of_nil|].
  destruct (decide (y = c)) as [->|Hne]; [done|].
  intros [->|Hc]%elem_of_cons; [done|].
  etrans; [apply Permutation_cons; [done|exact (IH Hc)]|]. apply perm_swap.
Qed.

Lemma index_of_lt x l : x ∈ l → (index_of x l < length l)%nat.
Proof.
  induction l as [|y l IH]; simpl; [by intros ?%elem_of_nil|].
  destruct (decide (y = x)) as [->|Hne]; [lia|].
  intros [->|Hx]%elem_of_cons; [done|]. specialize (IH Hx). lia.
Qed.

Lemma list_max_elem l : l ≠ [] → list_max l ∈ l.
Proof.
  induction l as [|x l IH]; [done|]. intros _. unfold list_max in *. simpl.
  destruct l as [|y l].
  - simpl. rewrite Nat.max_0_r. by left.
  - destruct (Nat.max_spec x (fold_right Nat.max 0%nat (y :: l))) as [[_ ->]|[_ ->]].
    + right. by apply IH.
    + by left.
Qed.

Lemma list_min_elem l : l ≠ [] → list_min l ∈ l.
Proof.
  destruct l as [|x l]; [done|]. intros _. unfold list_min.
  assert (∀ l acc, fold_left Nat.min l acc = acc ∨ fold_left Nat.min l acc ∈ l) as H.
  { clear. induction l as [|y l IH]; intros acc; simpl; [by left|].
    destruct (IH (Nat.min acc y)) as [Heq|Hin]; [|right; by right].
    rewrite Heq. destruct (Nat.min_spec acc y) as [[_ ->]|[_ ->]]; [by left|].
    right. by left. }
  destruct (H l x) as [->|Hin]; [by left|by right].
Qed.

(** *** Where objects are after a move *)

Lemma NoDup_concat_lookup {A : Type} (ls : list (list A)) i l :
  NoDup (concat ls) → ls !! i = Some l → NoDup l.
Proof.
  revert i. induction ls as [|l' ls IH]; intros i Hnd Hi; [done|].
  simpl in Hnd. apply NoDup_app in Hnd as (Hl' & _ & Hnd).
  destruct i as [|i]; simpl in Hi; [by injection Hi as <-|by eapply IH].
Qed.

Lemma tracked_NoDup partitions obj_to_batch :
  tracked partitions obj_to_batch → NoDup (concat partitions).
Proof. intros (Hnd & _). by eapply NoDup_fmap_1. Qed.

Lemma concat_remove (partitions : list (list DatabaseObject)) c i p :
  partitions !! i = Some p → c ∈ p →
  concat partitions ≡ₚ c :: concat (alter (remove_first c) i partitions).
Proof.
  revert i. induction partitions as [|q partitions IH]; intros i Hi Hc; [done|].
  destruct i as [|i]; simpl in *.
  - injection Hi as ->.
    etrans; [apply Permutation_app_tail, (remove_first_perm c p Hc)|done].
  - change (list_alter ?f i partitions) with (alter f i partitions).
    etrans; [apply Permutation_app_head, (IH i Hi Hc)|].
    by rewrite Permutation_middle.
Qed.

Lemma batch_of_remove partitions obj_to_batch c i p o j :
  tracked partitions obj_to_batch → partitions !! i = Some p → c ∈ p →
  (batch_of (alter (remove_first c) i partitions) o j
   ↔ batch_of partitions o j ∧ o ≠ c).
Proof.
  intros Htr Hp Hc. unfold batch_of. destruct (decide (i = j)) as [<-|Hne].
  - rewrite list_lookup_alter_eq, Hp. simpl. split.
    + intros (p' & [= <-] & Ho).
      apply elem_of_remove_first in Ho as [Ho Hoc];
        [|by eapply NoDup_concat_lookup; [eapply tracked_NoDup|]].
      split; [by exists p|done].
    + intros [(p' & [= <-] & Ho) Hoc]. eexists. split; [done|].
      apply elem_of_remove_first; [|done].
      by eapply NoDup_concat_lookup; [eapply tracked_NoDup|].
  - rewrite list_lookup_alter_ne by done. split; [|by intros [? _]].
    intros (p' & Hp' & Ho). split; [by exists p'|]. intros ->. apply Hne.
    eapply (tracked_unique partitions obj_to_batch c); [done|by exists p|by exists p'].
Qed.

(** *** One move of [_rebalance] *)

Lemma rebalance_step_preserves imbalance_le self graph total st st' :
  tracked st.1 st.2 → respects_dependencies st.1 → dependents_known graph st.1 →
  rebalance_step imbalance_le self graph total st = Some st' →
  length st'.1 = length st.1 ∧ concat st'.1 ≡ₚ concat st.1
  ∧ tracked st'.1 st'.2 ∧ respects_dependencies st'.1.
Proof.
  destruct st as [partitions otb]. simpl. intros Htr Hresp Hknown.
  unfold rebalance_step. simpl.
  set (sizes := length <$> partitions).
  destruct (imbalance_le _ _ _ _ _); [done|].
  set (li := index_of (list_max sizes) sizes).
  set (si := index_of (list_min sizes) sizes).
  destruct (decide (li = si)) as [|Hne]; [done|].
  destruct (find _ _) as [c|] eqn:Hfind; [|done].
  intros [= <-]. simpl.
  apply find_some in Hfind as [Hc Hcan].
  assert (sizes ≠ []) as Hsizes.
  { intros Hnil. apply Hne. unfold li, si. by rewrite Hnil. }
  assert (li < length partitions)%nat as Hli.
  { unfold li. rewrite <- (length_fmap length partitions).
    apply index_of_lt, list_max_elem, Hsizes. }
  assert (si < length partitions)%nat as Hsi.
  { unfold si. rewrite <- (length_fmap length partitions).
    apply index_of_lt, list_min_elem, Hsizes. }
  destruct (lookup_lt_is_Some_2 partitions li Hli) as [p Hp].
  rewrite (list_lookup_total_correct _ _ _ Hp) in Hc.
  apply list_elem_of_In in Hc. rewrite sorted_by_perm in Hc.
  assert (batch_of partitions c li) as Hcli by (by exists p).
  pose proof Htr as (Hnd & Hto & Hfrom).
  set (Q := alter (remove_first c) li partitions).
  assert (length Q = length partitions) as HlenQ by apply length_alter.
  assert (∀ o j, batch_of (alter (λ p, p ++ [c]) si Q) o j
                 ↔ (batch_of partitions o j ∧ o ≠ c) ∨ (o = c ∧ j = si)) as Hchar.
  { intros o j. rewrite batch_of_append by lia. unfold Q.
    by rewrite (batch_of_remove partitions otb c li p o j Htr Hp Hc). }
  assert (concat (alter (λ p, p ++ [c]) si Q) ≡ₚ concat partitions) as Hperm.
  { rewrite concat_append by lia. symmetry. by eapply concat_remove. }
  assert (∀ o, o ∈ concat partitions → o ≠ c → qualified_name o ≠ qualified_name c)
    as Hnames.
  { intros o Ho Hoc Hq. apply Hoc.
    eapply (tracked_same_name partitions otb); [done..| |done].
    apply batch_of_concat. by exists li. }
  apply andb_true_iff in Hcan as [Hdeps Hdependents].
  split; [by rewrite length_alter|]. split; [done|]. split; [split; [|split]|].
  - by rewrite Hperm.
  - intros o j [[Ho Hoc]|[-> ->]]%Hchar; [|by rewrite lookup_insert_eq].
    rewrite lookup_insert_ne; [by apply Hto|].
    intros Hq. apply (Hnames o); [|done..]. apply batch_of_concat. by exists j.
  - intros q j. destruct (decide (q = qualified_name c)) as [->|Hq].
    + rewrite lookup_insert_eq. intros [= <-]. exists c. split; [done|].
      apply Hchar. by right.
    + rewrite lookup_insert_ne by done. intros (o & Hqo & Ho)%Hfrom.
      exists o. split; [done|]. apply Hchar. left. split; [done|].
      intros ->. by apply Hq.
  - intros o d i j [[Ho Hoc]|[-> ->]]%Hchar [[Hd Hdc]|[-> ->]]%Hchar Hdep.
    + by eapply Hresp.
    + (* the moved object is the dependency *)
      pose proof (Hresp o c i li Ho Hcli Hdep) as Hold.
      destruct (Nat.ltb_spec li si) as [Hlt|Hge]; [|lia].
      rewrite forallb_forall in Hdependents.
      assert (qualified_name o ∈ get_dependents graph (qualified_name c)) as Hin.
      { apply Hknown; [|by apply batch_of_concat; exists li|done].
        apply batch_of_concat. by exists i. }
      apply elem_of_elements, list_elem_of_In, Hdependents in Hin.
      rewrite (Hto o i Ho) in Hin. simpl in Hin.
      apply negb_true_iff, Z.ltb_ge in Hin. lia.
    + (* the moved object is the dependent *)
      pose proof (Hresp c d li j Hcli Hd Hdep) as Hold.
      destruct (Nat.ltb_spec si li) as [Hlt|Hge]; [|lia].
      rewrite forallb_forall in Hdeps.
      apply list_elem_of_In, Hdeps in Hdep.
      rewrite (Hto d j Hd) in Hdep. simpl in Hdep.
      apply negb_true_iff, Z.ltb_ge in Hdep. lia.
    + done.
Qed.

Lemma dependents_known_perm graph partitions partitions' :
  concat partitions' ≡ₚ concat partitions →
  dependents_known graph partitions → dependents_known graph partitions'.
Proof.
  intros Hperm Hknown o d Ho Hd. rewrite Hperm in Ho, Hd. by apply Hknown.
Qed.

(** Any number of iterations of the loop of [_rebalance]. *)
Lemma rebalance_loop_preserves imbalance_le self graph total iterations :
  ∀ st,
    tracked st.1 st.2 → respects_dependencies st.1 → dependents_known graph st.1 →
    length (rebalance_loop imbalance_le self graph total iterations st).1 = length st.1
    ∧ concat (rebalance_loop imbalance_le self graph total iterations st).1
        ≡ₚ concat st.1
    ∧ tracked (rebalance_loop imbalance_le self graph total iterations st).1
              (rebalance_loop imbalance_le self graph total iterations st).2
    ∧ respects_dependencies
        (rebalance_loop imbalance_le self graph total iterations st).1.
Proof.
  induction iterations as [|k IH]; intros st Htr Hresp Hknown; simpl; [done|].
  destruct (rebalance_step imbalance_le self graph total st) as [st1|] eqn:Hstep; [|done].
  destruct (rebalance_step_preserves _ _ _ _ _ _ Htr Hresp Hknown Hstep)
    as (Hlen1 & Hperm1 & Htr1 & Hresp1).
  destruct (IH st1 Htr1 Hresp1) as (Hlen & Hperm & Htr' & Hresp').
  { by eapply dependents_known_perm. }
  split; [congruence|]. split; [by rewrite Hperm|done].
Qed.

Lemma _rebalance_preserves imbalance_le self graph partitions obj_to_batch :
  tracked partitions obj_to_batch → respects_dependencies partitions →
  dependents_known graph partitions →
  length (_rebalance imbalance_le self partitions obj_to_batch graph) = length partitions
  ∧ concat (_rebalance imbalance_le self partitions obj_to_batch graph)
      ≡ₚ concat partitions
  ∧ respects_dependencies (_rebalance imbalance_le self partitions obj_to_batch graph).
Proof.
  intros Htr Hresp Hknown. unfold _rebalance.
  destruct partitions as [|p partitions]; [done|].
  destruct (length (concat (p :: partitions))) as [|n] eqn:Htotal; [done|].
  destruct (rebalance_loop_preserves imbalance_le self graph (S n) (S n)
              (p :: partitions, obj_to_batch) Htr Hresp Hknown) as (? & ? & _ & ?).
  done.
Qed.

(** *** The greedy placement on an acyclic graph *)

Lemma qualified_name_nonempty o : qualified_name o ≠ EmptyString.
Proof. unfold qualified_name. by destruct (schema_name o). Qed.

(** A dependency sorts strictly before the object that declares it. *)
Lemma layer_key_dependency all_objects layers o d :
  ¬ cyclic (__init__ all_objects) →
  get_layers (__init__ all_objects) = Returned layers →
  o ∈ all_objects →
  qualified_name d ∈ dependencies o →
  strip (qualified_name d) = qualified_name d →
  layer_key (node_to_layer_of layers) d < layer_key (node_to_layer_of layers) o.
Proof.
  intros Hacyc Hrun Ho Hdep Hstrip.
  destruct (LayerFacts.get_layers_facts _ (init_wf all_objects))
    as (layers' & Hrun' & Hnd & _ & Hdeps & _ & Hcover).
  rewrite Hrun in Hrun'. injection Hrun' as <-.
  assert (edge (__init__ all_objects) (qualified_name o) (qualified_name d)) as Hedge.
  { rewrite <- Hstrip. apply GraphMembership.init_explicit_edge; [done..|].
    rewrite Hstrip. apply qualified_name_nonempty. }
  assert (qualified_name o ∈ concat layers) as Hin.
  { apply Hcover; [done|]. by apply (wf_closed _ (init_wf all_objects)) in Hedge as [? _]. }
  apply LayerFacts.elem_of_concat_lookup in Hin as (i & layer & Hi & Hoi).
  destruct (Hdeps i layer _ _ Hi Hoi Hedge) as (j & layer' & Hji & Hj & Hdj).
  assert (∀ k l n, layers !! k = Some l → n ∈ l →
            node_to_layer_of layers !! n = Some k) as Hlookup.
  { intros k l n Hk Hn.
    destruct (node_to_layer_of_spec layers n) as [_ Hspec].
    destruct Hspec as (k' & l' & Hk' & Hn' & ->).
    { apply LayerFacts.elem_of_concat_lookup. by exists k, l. }
    f_equal. by eapply NoDup_concat_unique. }
  unfold layer_key. rewrite (Hlookup _ _ _ Hi Hoi), (Hlookup _ _ _ Hj Hdj). simpl. lia.
Qed.

Lemma greedy_placement_spec all_objects objects num_batches layers :
  ¬ cyclic (__init__ all_objects) →
  get_layers (__init__ all_objects) = Returned layers →
  (0 < num_batches)%nat →
  objects ⊆ all_objects →
  NoDup (qualified_name <$> objects) →
  (∀ o, o ∈ objects → strip (qualified_name o) = qualified_name o) →
  ∃ st, greedy_placement objects num_batches layers = Returned st
        ∧ placement_inv num_batches objects st.
Proof.
  intros Hacyc Hrun Hnb Hsub Hnd Hstrip. unfold greedy_placement.
  set (ntl := node_to_layer_of layers).
  set (sorted_objs := sorted_by (placement_le ntl) objects).
  assert (sorted_objs ≡ₚ objects) as Hperm by apply sorted_by_perm.
  destruct (placement_loop num_batches sorted_objs Hnb) with
    (rest := sorted_objs) (placed := @nil DatabaseObject)
    (st := (replicate num_batches (@nil DatabaseObject), (∅ : gmap string nat)))
    as (st & Hst & Hinv).
  - by rewrite Hperm.
  - intros pre x post o Heq Ho Hdep.
    apply list_elem_of_split in Ho as (pre1 & pre2 & ->).
    rewrite <- app_assoc in Heq. simpl in Heq.
    assert (layer_key ntl o ≤ layer_key ntl x) as Hle.
    { eapply (sorted_by_later (placement_le ntl) (layer_key ntl));
        [apply placement_le_total|apply placement_le_key|exact Heq|].
      apply elem_of_app. right. by left. }
    assert (o ∈ objects ∧ x ∈ objects) as [Ho Hx].
    { rewrite <- !Hperm. unfold sorted_objs in *. rewrite Heq. split.
      - apply elem_of_app. right. by left.
      - apply elem_of_app. right. right. apply elem_of_app. right. by left. }
    pose proof (layer_key_dependency all_objects layers o x Hacyc Hrun
                  (Hsub _ Ho) Hdep (Hstrip _ Hx)) as Hlt.
    fold ntl in Hlt. lia.
  - done.
  - apply placement_inv_initial.
  - exists st. split; [done|]. destruct Hinv as [Hlen Hp Htr Hresp].
    split; [done| |done..]. by rewrite Hp.
Qed.

(** Objects of a graph built from them are known to it as dependents. *)
Lemma init_dependents_known all_objects partitions :
  (∀ o, o ∈ concat partitions → o ∈ all_objects) →
  (∀ o, o ∈ concat partitions → strip (qualified_name o) = qualified_name o) →
  dependents_known (__init__ all_objects) partitions.
Proof.
  intros Hsub Hstrip o d Ho Hd Hdep. unfold get_dependents.
  apply (wf_mirror _ (init_wf all_objects)).
  rewrite <- (Hstrip d Hd). apply GraphMembership.init_explicit_edge; [by apply Hsub|done|].
  rewrite (Hstrip d Hd). apply qualified_name_nonempty.
Qed.

(** *** [_partition_balanced] as a whole *)

Lemma _partition_balanced_spec imbalance_le self all_objects objects num_batches :
  ¬ cyclic (__init__ all_objects) →
  objects ⊆ all_objects →
  NoDup (qualified_name <$> objects) →
  (∀ o, o ∈ objects → strip (qualified_name o) = qualified_name o) →
  ∃ partitions,
    _partition_balanced imbalance_le self objects num_batches (__init__ all_objects)
      = Returned partitions
    ∧ respects_dependencies partitions
    ∧ length partitions = Z.to_nat num_batches
    ∧ (0 < num_batches → concat partitions ≡ₚ objects).
Proof.
  intros Hacyc Hsub Hnd Hstrip. unfold _partition_balanced.
  destruct (Z.leb_spec num_batches 0) as [Hle|Hpos].
  { exists []. split; [done|]. split; [|split; [simpl; lia|lia]].
    intros o d i j (p & Hp & _). done. }
  destruct (Z.eqb_spec num_batches 1) as [->|Hne].
  { exists [objects]. split; [done|]. split; [|split; [done|]].
    - intros o d i j (p & Hp & _) (q & Hq & _) _.
      apply lookup_lt_Some in Hp, Hq. simpl in *. lia.
    - intros _. simpl. by rewrite app_nil_r. }
  destruct (LayerFacts.get_layers_facts _ (init_wf all_objects)) as (layers & Hrun & _).
  rewrite Hrun. simpl.
  destruct (greedy_placement_spec all_objects objects (Z.to_nat num_batches) layers)
    as (st & Hst & [Hlen Hperm Htr Hresp]); [done|done|lia|done..|].
  rewrite Hst. simpl. eexists. split; [done|].
  destruct (_rebalance_preserves imbalance_le self (__init__ all_objects) st.1 st.2)
    as (Hlen' & Hperm' & Hresp'); [done|done| |].
  { apply init_dependents_known; intros o Ho; rewrite Hperm in Ho; auto. }
  split; [done|]. split; [congruence|]. intros _. by rewrite Hperm'.
Qed.

End RebalanceFacts.


(** ** Layer indices, acyclicity by sorting, the clock, the analyzer *)

Module PlanFacts.
Import DependencyGraph DependencyGraphFacts KahnFacts LayerFacts.
Import BalancedBatchingStrategy PartitionFacts.

Lemma find_layer_member layers i layer n :
  NoDup (concat layers) → layers !! i = Some layer → n ∈ layer →
  find_layer n layers 0 = Z.of_nat i.
Proof.
  intros Hnd Hi Hn.
  destruct (find_layer_spec n layers 0)
    as [[Hno _]|(i' & layer' & Hi' & Hn' & -> & _)]; [lia| |].
  - exfalso. apply Hno, elem_of_concat_lookup. by exists i, layer.
  - rewrite (NoDup_concat_unique layers i' i layer' layer n); [lia|done..].
Qed.

Lemma find_layer_absent layers n :
  n ∉ concat layers → find_layer n layers 0 = -1.
Proof.
  intros Hno.
  destruct (find_layer_spec n layers 0)
    as [[_ ?]|(i' & layer' & Hi' & Hn' & _)]; [lia|done|].
  exfalso. apply Hno, elem_of_concat_lookup. by exists i', layer'.
Qed.

(** A graph that [topological_sort] sorts has no cycle. *)
Lemma sorted_graph_acyclic objects order :
  topological_sort (__init__ objects) = Returned order →
  ¬ cyclic (__init__ objects).
Proof.
  intros Hrun.
  destruct (topological_sort_wf _ (init_wf objects))
    as [(? & _ & _ & _ & _ & H)|(? & ? & He & _)]; [done|congruence].
Qed.


(** Under the policy ["error"] the first cycle that [detect_cycles]
    reports ends the planning. *)
Lemma create_plan_error_policy set_iter imbalance_le now self objects graph
    engagement_name cycle cycles :
  _circular_resolution self = "error" →
  detect_cycles set_iter graph = Returned (cycle :: cycles) →
  create_plan set_iter imbalance_le now self objects graph engagement_name
  = Raised (ValueError_circular (cycle_message cycle)).
Proof.
  intros Herror Hcycles. unfold create_plan. rewrite Hcycles. simpl.
  unfold handle_cycles. simpl. by rewrite decide_True by done.
Qed.

End PlanFacts.

Module AnalyzerFacts.
Import DependencyAnalyzer BfsFacts.

Lemma descendant_within_descendant g max_depth n v :
  descendant_within g max_depth n v → descendant g n v.
Proof.
  intros (Hne & k & Hk & _ & Hreach). split; [done|]. by eapply reach_tc.
Qed.

(** What the constructor computes when scoring is enabled. *)
Lemma init_scores objs max_depth :
  ∃ a,
    __init__ objs max_depth true = Returned a
    ∧ graph a = (build_graph objs).1
    ∧ log a = (build_graph objs).2
    ∧ objects a
      = (λ obj, AssessmentObject.with_impact_score obj
                  (default 0 (_impact_scores a !! key_of obj))) <$> objs
    ∧ (∀ o, o ∈ objs → AssessmentObject.is_failed o = true →
         ∃ D : gset string,
           (∀ v, v ∈ D ↔ descendant_within (graph a) max_depth (key_of o) v)
           ∧ _impact_scores a !! key_of o = Some (Z.of_nat (size D)))
    ∧ (∀ k, (∀ o, o ∈ objs → AssessmentObject.is_failed o = true → key_of o ≠ k) →
         _impact_scores a !! k = None).
Proof.
  unfold __init__.
  destruct (calculate_impact_scores_spec objs (build_graph objs).1 max_depth)
    as (scores & Hrun & Hfailed & Hother).
  rewrite Hrun. simpl. eexists. split; [done|]. simpl.
  split; [done|]. split; [done|]. split; [done|]. split; [|done].
  intros o Ho Hf. destruct (Hfailed o Ho Hf) as (D & HD & Hscore).
  destruct (_get_descendants_spec (build_graph objs).1 max_depth (key_of o))
    as (D' & HD' & Hspec).
  rewrite HD in HD'. injection HD' as <-. by exists D.
Qed.

End AnalyzerFacts.


(** ** Cycle detection returns *)

Module TarjanFacts.
Import DependencyGraph DependencyGraphFacts TarjanInvariant.

Lemma later_refl st : later st st.
Proof. split; [done|]. by exists []. Qed.

Lemma later_trans st1 st2 st3 : later st1 st2 → later st2 st3 → later st1 st3.
Proof.
  intros [Hi1 [a1 Hs1]] [Hi2 [a2 Hs2]]. split; [auto|].
  exists (a2 ++ a1). by rewrite Hs2, Hs1, app_assoc.
Qed.

Lemma later_unindexed g st st' :
  later st st' → (size (unindexed g st') ≤ size (unindexed g st))%nat.
Proof.
  intros [Hi _]. apply subseteq_size. unfold unindexed.
  intros n [Hn Hout]%elem_of_difference. apply elem_of_difference. split; [done|].
  intros Hin. apply Hout. apply elem_of_dom. apply Hi. by apply elem_of_dom.
Qed.

Lemma set_lowlink_numbered st node v :
  is_Some (indices st !! node) → numbered st → numbered (set_lowlink st node v).
Proof.
  intros Hnode Hnum n. unfold set_lowlink. simpl.
  destruct (decide (n = node)) as [->|Hne].
  - rewrite lookup_insert_eq. split; [done|]. by intros _; eexists.
  - rewrite lookup_insert_ne by done. apply Hnum.
Qed.

Lemma set_lowlink_later st node v : later st (set_lowlink st node v).
Proof. split; [done|]. by exists []. Qed.

Lemma getitem_numbered {V : Type} (d : gmap string V) key :
  is_Some (d !! key) → ∃ v, getitem d key = Returned v.
Proof. intros [v Hv]. exists v. unfold getitem. by rewrite Hv. Qed.

(** The loop that pops a component stops at [node], which is on the stack. *)
Lemma pop_scc_returns node above rest :
  ∀ on_stack scc,
    ∃ popped, pop_scc node (above ++ node :: rest) on_stack scc = Returned popped
              ∧ ∃ above', popped.1.2 = above' ++ rest.
Proof.
  induction above as [|w above IH]; intros on_stack scc; simpl.
  - rewrite decide_True by done. eexists. split; [done|]. by exists [].
  - destruct (decide (w = node)) as [->|Hne].
    + eexists. split; [done|]. simpl. exists (above ++ [node]).
      by rewrite <- app_assoc.
    + apply IH.
Qed.

Section returns.

Context (set_iter : gset string → list string) (g : t).
Hypothesis set_iter_sound : ∀ s x, x ∈ set_iter s → x ∈ s.
Hypothesis Hwf : wf g.

(** A call on a node that is not numbered returns when the fuel covers the
    nodes that are not numbered. *)
Lemma strongconnect_returns fuel :
  ∀ node st,
    node ∈ _nodes g → indices st !! node = None → numbered st →
    (size (unindexed g st) ≤ fuel)%nat →
    ∃ st', strongconnect set_iter fuel g node st = Returned st'
           ∧ numbered st' ∧ later st st' ∧ is_Some (indices st' !! node).
Proof.
  induction fuel as [|fuel IH]; intros node st Hnode Hfresh Hnum Hfuel.
  { exfalso. assert (node ∈ unindexed g st) as Hin.
    { unfold unindexed. apply elem_of_difference. split; [done|].
      by apply not_elem_of_dom. }
    assert (unindexed g st = ∅) as Hempty.
    { apply leibniz_equiv, size_empty_inv. lia. }
    rewrite Hempty in Hin. set_solver. }
  cbn [strongconnect].
  set (st1 := {| index_counter := index_counter st + 1;
                 stack := node :: stack st;
                 on_stack := on_stack st ∪ {[node]};
                 indices := <[node := index_counter st]> (indices st);
                 lowlinks := <[node := index_counter st]> (lowlinks st);
                 sccs := sccs st |}).
  assert (numbered st1) as Hnum1.
  { intros n. unfold st1. simpl. destruct (decide (n = node)) as [->|Hne].
    - by rewrite !lookup_insert_eq.
    - rewrite !lookup_insert_ne by done. apply Hnum. }
  assert (later st st1) as Hlater1.
  { split.
    - intros n Hn. unfold st1. simpl. destruct (decide (n = node)) as [->|Hne].
      + by rewrite lookup_insert_eq.
      + by rewrite lookup_insert_ne.
    - by exists [node]. }
  assert (is_Some (indices st1 !! node)) as Hnode1.
  { unfold st1. simpl. by rewrite lookup_insert_eq. }
  assert (size (unindexed g st1) ≤ fuel)%nat as Hfuel1.
  { assert (unindexed g st1 ⊂ unindexed g st) as Hsub.
    { unfold unindexed, st1. simpl. rewrite dom_insert_L.
      apply not_elem_of_dom in Hfresh. set_solver. }
    apply subset_size in Hsub. lia. }
  set (body := λ (st : tarjan_state) (successor : string),
         match indices st !! successor with
         | None =>
             st ← strongconnect set_iter fuel g successor st;
             low_node ← getitem (lowlinks st) node;
             low_succ ← getitem (lowlinks st) successor;
             Returned (set_lowlink st node (Z.min low_node low_succ))
         | Some index_succ =>
             if decide (successor ∈ on_stack st) then
               low_node ← getitem (lowlinks st) node;
               Returned (set_lowlink st node (Z.min low_node index_succ))
             else Returned st
         end).
  assert (∀ l st2,
            (∀ x, x ∈ l → x ∈ _nodes g) → numbered st2 → later st1 st2 →
            ∃ st3, for_each body l st2 = Returned st3
                   ∧ numbered st3 ∧ later st1 st3) as Hloop.
  { induction l as [|x l IHl]; intros st2 Hl Hnum2 Hlater2.
    { by exists st2. }
    cbn [for_each].
    assert (is_Some (indices st2 !! node)) as Hnode2
      by (by apply (lt_indices _ _ Hlater2)).
    assert (∃ st2', body st2 x = Returned st2' ∧ numbered st2' ∧ later st2 st2')
      as (st2' & Hbody & Hnum2' & Hlater2').
    { unfold body. destruct (indices st2 !! x) as [index_succ|] eqn:Hx.
      - destruct (decide (x ∈ on_stack st2)); [|by exists st2; auto using later_refl].
        destruct (getitem_numbered (lowlinks st2) node) as [low Hlow];
          [by apply Hnum2|].
        rewrite Hlow. simpl. eexists. split; [done|].
        split; [by apply set_lowlink_numbered|apply set_lowlink_later].
      - destruct (IH x st2) as (st' & Hcall & Hnum' & Hlater' & Hx');
          [apply Hl; by left|done|done| |].
        { pose proof (later_unindexed g st1 st2 Hlater2). lia. }
        rewrite Hcall. simpl.
        assert (is_Some (indices st' !! node)) as Hnode'
          by (by apply (lt_indices _ _ Hlater')).
        destruct (getitem_numbered (lowlinks st') node) as [low Hlow];
          [by apply Hnum'|].
        destruct (getitem_numbered (lowlinks st') x) as [lowx Hlowx];
          [by apply Hnum'|].
        rewrite Hlow. simpl. rewrite Hlowx. simpl. eexists. split; [done|].
        split; [by apply set_lowlink_numbered|].
        eapply later_trans; [exact Hlater'|apply set_lowlink_later]. }
    rewrite Hbody. simpl.
    destruct (IHl st2') as (st3 & Hrun & Hnum3 & Hlater3);
      [intros; apply Hl; by right|done|by eapply later_trans|].
    by exists st3. }
  destruct (Hloop (set_iter (get_set (_depends_on g) node)) st1)
    as (st3 & Hrun & Hnum3 & Hlater3); [|done|apply later_refl|].
  { intros x Hx%set_iter_sound. by apply (wf_closed _ Hwf) in Hx as [_ ?]. }
  fold body. rewrite Hrun. simpl.
  assert (is_Some (indices st3 !! node)) as Hnode3
    by (by apply (lt_indices _ _ Hlater3)).
  destruct (getitem_numbered (lowlinks st3) node) as [low Hlow]; [by apply Hnum3|].
  destruct (getitem_numbered (indices st3) node) as [idx Hidx]; [done|].
  rewrite Hlow. simpl. rewrite Hidx. simpl.
  destruct (lt_stack _ _ Hlater3) as [above Habove]. simpl in Habove.
  destruct (decide (low = idx)) as [_|_].
  - destruct (pop_scc_returns node above (stack st) (on_stack st3) [])
      as (popped & Hpop & above' & Hrest).
    rewrite Habove, Hpop. simpl. eexists. split; [done|]. split; [done|]. split; [|done].
    split; simpl.
    + intros n Hn. by apply (lt_indices _ _ Hlater3), (lt_indices _ _ Hlater1).
    + by exists above'.
  - exists st3. split; [done|]. split; [done|]. split; [|done].
    by eapply later_trans.
Qed.

(** [detect_cycles] returns a list of cycles. *)
Lemma detect_cycles_returns :
  ∃ cycles, detect_cycles set_iter g = Returned cycles.
Proof.
  unfold detect_cycles.
  set (body := λ (st : tarjan_state) (node : string),
         match indices st !! node with
         | None => strongconnect set_iter (size (_nodes g)) g node st
         | Some _ => Returned st
         end).
  assert (∀ l st, (∀ x, x ∈ l → x ∈ _nodes g) → numbered st →
                  ∃ st', for_each body l st = Returned st') as Hloop.
  { induction l as [|x l IHl]; intros st Hl Hnum; [by exists st|].
    cbn [for_each].
    assert (∃ st1, body st x = Returned st1 ∧ numbered st1) as (st1 & Hbody & Hnum1).
    { unfold body. destruct (indices st !! x) eqn:Hx; [by exists st|].
      destruct (strongconnect_returns (size (_nodes g)) x st)
        as (st' & Hcall & Hnum' & _); [apply Hl; by left|done|done| |by exists st'].
      apply subseteq_size. unfold unindexed. set_solver. }
    rewrite Hbody. simpl. apply IHl; [intros; apply Hl; by right|done]. }
  destruct (Hloop (set_iter (_nodes g))
              {| index_counter := 0; stack := []; on_stack := ∅; indices := ∅;
                 lowlinks := ∅; sccs := [] |}) as (st' & Hrun).
  - intros x. apply set_iter_sound.
  - intros n. simpl. by rewrite !lookup_empty.
  - fold body. rewrite Hrun. simpl. by eexists.
Qed.

(** [summary] returns its dictionary. *)
Lemma summary_returns : ∃ s, summary set_iter g = Returned s.
Proof.
  unfold summary.
  destruct (LayerFacts.get_layers_facts g Hwf) as (layers & Hlayers & _).
  destruct detect_cycles_returns as (cycles & Hcycles).
  rewrite Hlayers. simpl. rewrite Hcycles. simpl. by eexists.
Qed.

End returns.

End TarjanFacts.


(** ** Transitive dependencies and dependents *)

Module ClosureFacts.
Import DependencyGraph DependencyGraphFacts ClosureInvariant.

Lemma iterates_sets_elem set_iter s x :
  iterates_sets set_iter → x ∈ set_iter s ↔ x ∈ s.
Proof. intros Hperm. by rewrite (Hperm s), elem_of_elements. Qed.

Lemma iterates_sets_length set_iter s :
  iterates_sets set_iter → length (set_iter s) = size s.
Proof. intros Hperm. by rewrite (Hperm s). Qed.

Lemma filter_all {A : Type} (P : A → Prop) `{∀ x, Decision (P x)} (l : list A) :
  (∀ x, x ∈ l → P x) → filter P l = l.
Proof.
  induction l as [|x l IH]; intros Hall; [done|].
  rewrite filter_cons_True by (apply Hall; by left).
  f_equal. apply IH. intros y Hy. apply Hall. by right.
Qed.

Lemma unvisited_edges_empty adj :
  unvisited_edges adj ∅
  = sum_list_with (λ kv : string * gset string, size kv.2) (map_to_list adj).
Proof.
  unfold unvisited_edges. rewrite filter_all; [done|]. intros kv _. set_solver.
Qed.

(** Visiting a name takes its outgoing edges out of the count. *)
Lemma unvisited_edges_visit adj visited current :
  current ∉ visited →
  (unvisited_edges adj (visited ∪ {[current]}) + size (get_set adj current)
   = unvisited_edges adj visited)%nat.
Proof.
  intros Hfresh. unfold unvisited_edges, get_set.
  destruct (adj !! current) as [s|] eqn:Hcur; cbn [from_option id].
  - rewrite <- (map_to_list_delete adj current s Hcur).
    rewrite filter_cons_False by (simpl; set_solver).
    rewrite filter_cons_True by done. cbn [sum_list_with id snd].
    rewrite (KahnFacts.filter_ext_in
               (λ kv : string * gset string, kv.1 ∉ visited ∪ {[current]})
               (λ kv, kv.1 ∉ visited) (map_to_list (delete current adj))); [lia|].
    intros [k v] Hkv%elem_of_map_to_list. simpl. split; [set_solver|].
    intros Hk. apply not_elem_of_union. split; [done|].
    intros ->%elem_of_singleton. by rewrite lookup_delete_eq in Hkv.
  - rewrite size_empty, Nat.add_0_r. f_equal.
    apply KahnFacts.filter_ext_in. intros [k v] Hkv%elem_of_map_to_list. simpl.
    split; [set_solver|]. intros Hk. apply not_elem_of_union. split; [done|].
    intros ->%elem_of_singleton. congruence.
Qed.

Section closure.

Context (set_iter : gset string → list string) (adj : gmap string (gset string)).
Context (node : string).
Hypothesis set_iter_perm : iterates_sets set_iter.

Local Abbreviation R := (λ a b : string, b ∈ get_set adj a).

Lemma closure_inv_initial :
  closure_inv adj node ∅ (set_iter (get_set adj node)).
Proof.
  split.
  - intros v [Hv|Hv]; [set_solver|]. apply tc_once.
    by apply (iterates_sets_elem set_iter) in Hv.
  - intros d Hd. right. by apply (iterates_sets_elem set_iter).
  - intros u w Hu. set_solver.
Qed.

Lemma closure_loop_spec fuel :
  ∀ visited queue,
    closure_inv adj node visited queue →
    (length queue + unvisited_edges adj visited ≤ fuel)%nat →
    ∃ res, closure_loop set_iter fuel adj visited queue = Returned res
           ∧ closure_inv adj node res [].
Proof.
  induction fuel as [|fuel IH]; intros visited queue Hinv Hfuel.
  { destruct queue as [|x queue]; [by exists visited|simpl in Hfuel; lia]. }
  destruct queue as [|current queue]; [by exists visited|].
  destruct Hinv as [Hsound Hstart Hclosed]. cbn [closure_loop].
  destruct (decide (current ∈ visited)) as [Hseen|Hfresh].
  - apply IH; [|simpl in Hfuel; lia]. split.
    + intros v [Hv|Hv]; apply Hsound; [by left|right; by right].
    + intros d Hd. destruct (Hstart d Hd) as [?|[->|?]%elem_of_cons]; auto.
    + intros u w Hu Hw.
      destruct (Hclosed u w Hu Hw) as [?|[->|?]%elem_of_cons]; auto.
  - cbv zeta. apply IH.
    + split.
      * intros v [[Hv| ->%elem_of_singleton]%elem_of_union
                 |[Hv|Hv]%elem_of_app].
        -- apply Hsound. by left.
        -- apply Hsound. right. by left.
        -- apply Hsound. right. by right.
        -- apply list_elem_of_filter in Hv as [_ Hv].
           apply (iterates_sets_elem set_iter) in Hv; [|done].
           eapply tc_r; [|exact Hv]. apply Hsound. right. by left.
      * intros d Hd. destruct (Hstart d Hd) as [?|[->|?]%elem_of_cons].
        -- left. set_solver.
        -- left. set_solver.
        -- right. apply elem_of_app. by left.
      * intros u w [Hu| ->%elem_of_singleton]%elem_of_union Hw.
        -- destruct (Hclosed u w Hu Hw) as [?|[->|?]%elem_of_cons].
           ++ left. set_solver.
           ++ left. set_solver.
           ++ right. apply elem_of_app. by left.
        -- destruct (decide (w ∈ visited ∪ {[current]})) as [|Hnew]; [by left|].
           right. apply elem_of_app. right. apply list_elem_of_filter.
           split; [done|]. by apply (iterates_sets_elem set_iter).
    + pose proof (unvisited_edges_visit adj visited current Hfresh) as Hedges.
      rewrite length_app.
      pose proof (length_filter (λ dep, dep ∉ visited ∪ {[current]})
                    (set_iter (get_set adj current))) as Hlen.
      rewrite (iterates_sets_length set_iter) in Hlen by done.
      simpl in Hfuel. lia.
Qed.

(** When the queue is empty the visited names are the names reached from
    [node] along one or more edges. *)
Lemma closure_inv_final res v :
  closure_inv adj node res [] → v ∈ res ↔ tc R node v.
Proof.
  intros [Hsound Hstart Hclosed]. split.
  - intros Hv. apply Hsound. by left.
  - revert v. apply (tc_ind_r (λ v, v ∈ res) node).
    + intros z Hz. destruct (Hstart z Hz) as [?|?%elem_of_nil]; done.
    + intros y z _ Hyz Hy. destruct (Hclosed y z Hy Hyz) as [?|?%elem_of_nil]; done.
Qed.

Lemma closure_returns :
  ∃ res,
    closure_loop set_iter (closure_fuel adj node) adj ∅
      (set_iter (get_set adj node)) = Returned res
    ∧ ∀ v, v ∈ res ↔ tc R node v.
Proof.
  destruct (closure_loop_spec (closure_fuel adj node) ∅
              (set_iter (get_set adj node)) closure_inv_initial)
    as (res & Hrun & Hinv).
  - rewrite (iterates_sets_length set_iter), unvisited_edges_empty by done.
    unfold closure_fuel. lia.
  - exists res. split; [done|]. intros v. by apply closure_inv_final.
Qed.

End closure.

(** The transitive closure of the mirrored adjacency is the converse of the
    closure of the adjacency. *)
Lemma tc_flip g a b :
  wf g →
  tc (λ x y : string, y ∈ get_set (_depended_by g) x) a b ↔ tc (edge g) b a.
Proof.
  intros Hwf. split.
  - induction 1 as [x y Hxy|x y z Hxy _ IH].
    + apply tc_once. by apply (wf_mirror _ Hwf).
    + eapply tc_r; [exact IH|]. by apply (wf_mirror _ Hwf).
  - induction 1 as [x y Hxy|x y z Hxy _ IH].
    + apply tc_once. by apply (wf_mirror _ Hwf).
    + eapply tc_r; [exact IH|]. by apply (wf_mirror _ Hwf) in Hxy.
Qed.

End ClosureFacts.


(** ** Cycle detection on an acyclic graph *)

Module TarjanAcyclicFacts.
Import DependencyGraph DependencyGraphFacts TarjanInvariant TarjanAcyclic TarjanFacts.

Lemma unchanged_refl st : unchanged st st.
Proof. split; done. Qed.

Lemma unchanged_trans st1 st2 st3 :
  unchanged st1 st2 → unchanged st2 st3 → unchanged st1 st3.
Proof.
  intros [Hi1 Hl1 Hs1 Ho1 Hc1 Hn1] [Hi2 Hl2 Hs2 Ho2 Hc2 Hn2]. split.
  - intros n i Hn. by apply Hi2, Hi1.
  - intros n [i Hn]. rewrite Hl2 by (exists i; by apply Hi1). apply Hl1. by exists i.
  - congruence.
  - congruence.
  - congruence.
  - lia.
Qed.

Lemma unchanged_unindexed g st st' :
  unchanged st st' → (size (unindexed g st') ≤ size (unindexed g st))%nat.
Proof.
  intros [Hi _ _ _ _ _]. apply subseteq_size. unfold unindexed.
  intros n [Hn Hout]%elem_of_difference. apply elem_of_difference. split; [done|].
  intros [i Hin]%elem_of_dom. apply Hout. apply elem_of_dom. exists i. by apply Hi.
Qed.

Lemma set_lowlink_same st node v :
  lowlinks st !! node = Some v → set_lowlink st node v = st.
Proof.
  intros Hlow. destruct st. unfold set_lowlink. simpl in *. f_equal.
  by apply insert_id.
Qed.

Section acyclic.

Context (set_iter : gset string → list string) (g : t).
Hypothesis set_iter_sound : ∀ s x, x ∈ set_iter s → x ∈ s.
Hypothesis Hwf : wf g.
Hypothesis Hacyclic : ¬ cyclic g.

(** On an acyclic graph a call numbers the nodes it reaches and pops its
    own node alone: no component is recorded. *)
Lemma strongconnect_acyclic fuel :
  ∀ node st,
    node ∈ _nodes g → indices st !! node = None → quiet st →
    (∀ x, x ∈ on_stack st → tc (edge g) x node) →
    (size (unindexed g st) ≤ fuel)%nat →
    ∃ st', strongconnect set_iter fuel g node st = Returned st'
           ∧ quiet st' ∧ unchanged st st'
           ∧ indices st' !! node = Some (index_counter st)
           ∧ lowlinks st' !! node = Some (index_counter st).
Proof.
  induction fuel as [|fuel IH]; intros node st Hnode Hfresh Hq Hreach Hfuel.
  { exfalso. assert (node ∈ unindexed g st) as Hin.
    { unfold unindexed. apply elem_of_difference. split; [done|].
      by apply not_elem_of_dom. }
    assert (unindexed g st = ∅) as Hempty.
    { apply leibniz_equiv, size_empty_inv. lia. }
    rewrite Hempty in Hin. set_solver. }
  cbn [strongconnect].
  set (st1 := {| index_counter := index_counter st + 1;
                 stack := node :: stack st;
                 on_stack := on_stack st ∪ {[node]};
                 indices := <[node := index_counter st]> (indices st);
                 lowlinks := <[node := index_counter st]> (lowlinks st);
                 sccs := sccs st |}).
  set (idx := index_counter st).
  destruct Hq as [Hnum Hstacked Hcounter].
  assert (node ∉ on_stack st) as Hoff.
  { intros [i Hi]%Hstacked. congruence. }
  assert (quiet st1) as Hq1.
  { split.
    - intros n. unfold st1. simpl. destruct (decide (n = node)) as [->|Hne].
      + by rewrite !lookup_insert_eq.
      + rewrite !lookup_insert_ne by done. apply Hnum.
    - intros x [Hx| ->%elem_of_singleton]%elem_of_union; unfold st1; simpl.
      + destruct (decide (x = node)) as [->|Hne].
        * by rewrite lookup_insert_eq.
        * rewrite lookup_insert_ne by done. by apply Hstacked.
      + by rewrite lookup_insert_eq.
    - intros n i. unfold st1. simpl. destruct (decide (n = node)) as [->|Hne].
      + rewrite lookup_insert_eq. intros [= <-]. lia.
      + rewrite lookup_insert_ne by done. intros Hn%Hcounter. lia. }
  assert (indices st1 !! node = Some idx) as Hidx1.
  { unfold st1. simpl. by rewrite lookup_insert_eq. }
  assert (lowlinks st1 !! node = Some idx) as Hlow1.
  { unfold st1. simpl. by rewrite lookup_insert_eq. }
  assert (size (unindexed g st1) ≤ fuel)%nat as Hfuel1.
  { assert (unindexed g st1 ⊂ unindexed g st) as Hsub.
    { unfold unindexed, st1. simpl. rewrite dom_insert_L.
      apply not_elem_of_dom in Hfresh. set_solver. }
    apply subset_size in Hsub. lia. }
  set (body := λ (st : tarjan_state) (successor : string),
         match indices st !! successor with
         | None =>
             st ← strongconnect set_iter fuel g successor st;
             low_node ← getitem (lowlinks st) node;
             low_succ ← getitem (lowlinks st) successor;
             Returned (set_lowlink st node (Z.min low_node low_succ))
         | Some index_succ =>
             if decide (successor ∈ on_stack st) then
               low_node ← getitem (lowlinks st) node;
               Returned (set_lowlink st node (Z.min low_node index_succ))
             else Returned st
         end).
  assert (∀ l st2,
            (∀ x, x ∈ l → edge g node x) → quiet st2 → unchanged st1 st2 →
            ∃ st3, for_each body l st2 = Returned st3
                   ∧ quiet st3 ∧ unchanged st1 st3) as Hloop.
  { induction l as [|x l IHl]; intros st2 Hl Hq2 Hun2; [by exists st2|].
    cbn [for_each].
    assert (edge g node x) as Hedge by (apply Hl; by left).
    assert (∀ y, y ∈ on_stack st2 → tc (edge g) y x) as Hreach2.
    { intros y. rewrite (un_on_stack _ _ Hun2). unfold st1. simpl.
      intros [Hy| ->%elem_of_singleton]%elem_of_union.
      - eapply tc_r; [by apply Hreach|done].
      - by apply tc_once. }
    assert (∃ st2', body st2 x = Returned st2' ∧ quiet st2' ∧ unchanged st2 st2')
      as (st2' & Hbody & Hq2' & Hun2').
    { unfold body. destruct (indices st2 !! x) as [index_succ|] eqn:Hx.
      - destruct (decide (x ∈ on_stack st2)) as [Hon|_].
        + exfalso. apply Hacyclic. exists x. by apply Hreach2.
        + exists st2. auto using unchanged_refl.
      - destruct (IH x st2) as (st' & Hcall & Hq' & Hun' & Hix & Hlx);
          [by apply (wf_closed _ Hwf) in Hedge as [_ ?]|done|done|done| |].
        { pose proof (unchanged_unindexed g st1 st2 Hun2). lia. }
        rewrite Hcall. cbn [mbind outcome_bind]. unfold getitem.
        assert (lowlinks st' !! node = Some idx) as Hlow'.
        { rewrite (un_lowlinks _ _ Hun') by (exists idx; by apply (un_indices _ _ Hun2)).
          rewrite (un_lowlinks _ _ Hun2) by by exists idx. done. }
        rewrite Hlow'. cbn [mbind outcome_bind]. rewrite Hlx. cbn [mbind outcome_bind].
        assert (idx < index_counter st2) as Hlt.
        { apply (qt_counter _ Hq2 node). by apply (un_indices _ _ Hun2). }
        rewrite Z.min_l by lia. rewrite set_lowlink_same by done.
        by exists st'. }
    rewrite Hbody. cbn [mbind outcome_bind].
    destruct (IHl st2') as (st3 & Hrun & Hq3 & Hun3);
      [intros; apply Hl; by right|done|by eapply unchanged_trans|].
    by exists st3. }
  destruct (Hloop (set_iter (get_set (_depends_on g) node)) st1)
    as (st3 & Hrun & Hq3 & Hun3); [|done|apply unchanged_refl|].
  { intros x Hx%set_iter_sound. exact Hx. }
  fold body. rewrite Hrun. cbn [mbind outcome_bind]. unfold getitem.
  rewrite (un_lowlinks _ _ Hun3), Hlow1 by by exists idx.
  cbn [mbind outcome_bind].
  rewrite (un_indices _ _ Hun3 node idx Hidx1). cbn [mbind outcome_bind].
  rewrite decide_True by done.
  rewrite (un_stack _ _ Hun3). unfold st1 at 1. cbn [stack pop_scc].
  rewrite decide_True by done. cbn [mbind outcome_bind fst snd app length].
  change (1 <? 1)%nat with false. cbv iota.
  eexists. split; [done|]. split; [|split; [|split]]; simpl.
  - split; simpl.
    + apply (qt_numbered _ Hq3).
    + intros x [Hx _]%elem_of_difference. by apply (qt_on_stack _ Hq3).
    + apply (qt_counter _ Hq3).
  - split; simpl.
    + intros n i Hn. apply (un_indices _ _ Hun3). unfold st1. simpl.
      rewrite lookup_insert_ne; [done|]. intros ->. congruence.
    + intros n [i Hn]. assert (n ≠ node) as Hne by (intros ->; congruence).
      rewrite (un_lowlinks _ _ Hun3).
      * unfold st1. simpl. by rewrite lookup_insert_ne.
      * exists i. unfold st1. simpl. by rewrite lookup_insert_ne.
    + done.
    + rewrite (un_on_stack _ _ Hun3). unfold st1. simpl. set_solver.
    + by rewrite (un_sccs _ _ Hun3).
    + pose proof (un_counter _ _ Hun3) as Hc. unfold st1 in Hc. simpl in Hc. lia.
  - by apply (un_indices _ _ Hun3).
  - rewrite (un_lowlinks _ _ Hun3) by by exists idx. done.
Qed.

(** [detect_cycles] reports nothing on an acyclic graph. *)
Lemma detect_cycles_acyclic : detect_cycles set_iter g = Returned [].
Proof.
  unfold detect_cycles.
  set (body := λ (st : tarjan_state) (node : string),
         match indices st !! node with
         | None => strongconnect set_iter (size (_nodes g)) g node st
         | Some _ => Returned st
         end).
  assert (∀ l st, (∀ x, x ∈ l → x ∈ _nodes g) → quiet st →
                  on_stack st = ∅ → sccs st = [] →
                  ∃ st', for_each body l st = Returned st' ∧ sccs st' = [])
    as Hloop.
  { induction l as [|x l IHl]; intros st Hl Hq Hon Hsccs; [by exists st|].
    cbn [for_each].
    assert (∃ st1, body st x = Returned st1 ∧ quiet st1 ∧ on_stack st1 = ∅
                   ∧ sccs st1 = []) as (st1 & Hbody & Hq1 & Hon1 & Hsccs1).
    { unfold body. destruct (indices st !! x) eqn:Hx; [by exists st|].
      destruct (strongconnect_acyclic (size (_nodes g)) x st)
        as (st' & Hcall & Hq' & Hun' & _); [apply Hl; by left|done|done| | |].
      - intros y. rewrite Hon. set_solver.
      - apply subseteq_size. unfold unindexed. set_solver.
      - exists st'. split; [done|]. split; [done|].
        rewrite (un_on_stack _ _ Hun'), (un_sccs _ _ Hun'). done. }
    rewrite Hbody. cbn [mbind outcome_bind].
    apply IHl; [intros; apply Hl; by right|done..]. }
  destruct (Hloop (set_iter (_nodes g))
              {| index_counter := 0; stack := []; on_stack := ∅; indices := ∅;
                 lowlinks := ∅; sccs := [] |}) as (st' & Hrun & Hsccs).
  - intros x. apply set_iter_sound.
  - split; cbn [indices lowlinks on_stack index_counter].
    + intros n. cbn [indices lowlinks]. by rewrite !lookup_empty.
    + intros x. set_solver.
    + intros n i Hn. by rewrite lookup_empty in Hn.
  - done.
  - done.
  - fold body. rewrite Hrun. cbn [mbind outcome_bind]. by rewrite Hsccs.
Qed.

End acyclic.

(** *** What is reported *)

Lemma for_each_preserves {S A : Type} (P : S → Prop) (body : S → A → outcome S)
    (l : list A) :
  (∀ s x s', P s → body s x = Returned s' → P s') →
  ∀ s s', P s → for_each body l s = Returned s' → P s'.
Proof.
  intros Hstep. induction l as [|x l IH]; intros s s' Hs Hrun.
  { simpl in Hrun. by injection Hrun as <-. }
  cbn [for_each] in Hrun. destruct (body s x) as [s1| |] eqn:Hbody; [|done..].
  cbn [mbind outcome_bind] in Hrun. eapply IH; [|exact Hrun]. by eapply Hstep.
Qed.

(** Only components of more than one node are recorded. *)
Lemma strongconnect_sccs set_iter g fuel :
  ∀ node st st',
    Forall (λ scc, (2 ≤ length scc)%nat) (sccs st) →
    strongconnect set_iter fuel g node st = Returned st' →
    Forall (λ scc, (2 ≤ length scc)%nat) (sccs st').
Proof.
  induction fuel as [|fuel IH]; intros node st st' Hst Hrun; [done|].
  cbn [strongconnect] in Hrun.
  match type of Hrun with
  | (mbind _ (for_each ?body ?l ?s0)) = _ =>
      destruct (for_each body l s0) as [st1| |] eqn:Hloop; [|done..];
      assert (Forall (λ scc, (2 ≤ length scc)%nat) (sccs st1)) as Hst1
  end.
  { eapply (for_each_preserves
              (λ s, Forall (λ scc, (2 ≤ length scc)%nat) (sccs s)));
      [| |exact Hloop]; [|cbn [sccs]; exact Hst].
    intros s x s' Hs Hbody. cbv beta in Hbody.
    destruct (indices s !! x).
    - destruct (decide (x ∈ on_stack s)); [|by injection Hbody as <-].
      destruct (getitem (lowlinks s) node); [|done..].
      cbn [mbind outcome_bind] in Hbody. by injection Hbody as <-.
    - destruct (strongconnect set_iter fuel g x s) as [s1| |] eqn:Hcall; [|done..].
      cbn [mbind outcome_bind] in Hbody.
      destruct (getitem (lowlinks s1) node); [|done..].
      cbn [mbind outcome_bind] in Hbody.
      destruct (getitem (lowlinks s1) x); [|done..].
      cbn [mbind outcome_bind] in Hbody. injection Hbody as <-.
      by apply (IH x s s1). }
  cbn [mbind outcome_bind] in Hrun.
  destruct (getitem (lowlinks st1) node) as [low| |]; [|done..].
  cbn [mbind outcome_bind] in Hrun.
  destruct (getitem (indices st1) node) as [idx| |]; [|done..].
  cbn [mbind outcome_bind] in Hrun.
  destruct (decide (low = idx)); [|by injection Hrun as <-].
  destruct (pop_scc node (stack st1) (on_stack st1) []) as [popped| |]; [|done..].
  cbn [mbind outcome_bind] in Hrun. injection Hrun as <-. cbn [sccs].
  destruct (Nat.ltb_spec 1 (length popped.1.1)); [|done].
  apply Forall_app. split; [done|]. constructor; [lia|done].
Qed.

Lemma detect_cycles_sccs set_iter g cycles :
  detect_cycles set_iter g = Returned cycles →
  Forall (λ scc, (2 ≤ length scc)%nat) cycles.
Proof.
  unfold detect_cycles. intros Hrun.
  match type of Hrun with
  | (mbind _ (for_each ?body ?l ?s0)) = _ =>
      destruct (for_each body l s0) as [st1| |] eqn:Hloop; [|done..]
  end.
  cbn [mbind outcome_bind] in Hrun. injection Hrun as <-.
  eapply (for_each_preserves
            (λ s, Forall (λ scc, (2 ≤ length scc)%nat) (sccs s)));
    [| |exact Hloop]; [|by constructor].
  intros s x s' Hs Hbody. cbv beta in Hbody.
  destruct (indices s !! x); [by injection Hbody as <-|].
  by eapply strongconnect_sccs.
Qed.

End TarjanAcyclicFacts.


(** ** Layers read in order *)

Module LayerOrderFacts.
Import DependencyGraph DependencyGraphFacts KahnFacts LayerFacts.

Lemma sorted_nonempty x l : sorted (x :: l) ≠ [].
Proof.
  intros Hnil. pose proof (sorted_perm (x :: l)) as Hperm. rewrite Hnil in Hperm.
  by apply Permutation_nil_cons in Hperm.
Qed.

(** The loop of [get_layers] appends no empty layer. *)
Lemma layers_loop_nonempty fuel :
  ∀ g m current layers res,
    Forall (λ layer, layer ≠ []) layers →
    layers_loop fuel g m current layers = Returned res →
    Forall (λ layer, layer ≠ []) res.
Proof.
  induction fuel as [|fuel IH]; intros g m current layers res Hall Hrun.
  - destruct current; simpl in Hrun; [by injection Hrun as <-|done].
  - destruct current as [|x current]; simpl in Hrun; [by injection Hrun as <-|].
    destruct (next_layer g m (x :: current)) as [st| |]; simpl in Hrun; [|done..].
    eapply IH; [|exact Hrun]. destruct (st.2) as [|y next]; [done|].
    apply Forall_app. split; [done|]. constructor; [|done]. apply sorted_nonempty.
Qed.

Lemma get_layers_nonempty g layers :
  get_layers g = Returned layers → Forall (λ layer, layer ≠ []) layers.
Proof.
  unfold get_layers. apply layers_loop_nonempty.
  destruct (zero_in_degree g (initial_in_degree g)); [done|].
  constructor; [|done]. apply sorted_nonempty.
Qed.

(** A member of an earlier layer comes first in the concatenation. *)
Lemma before_concat (layers : list (list string)) i j li lj a b :
  layers !! j = Some lj → layers !! i = Some li → (j < i)%nat →
  b ∈ lj → a ∈ li → before (concat layers) b a.
Proof.
  revert i j. induction layers as [|l layers IH]; intros i j Hj Hi Hlt Hb Ha; [done|].
  destruct i as [|i]; [lia|]. simpl in Hi. destruct j as [|j]; simpl in Hj.
  - injection Hj as <-. apply list_elem_of_lookup in Hb as [p Hp].
    assert (a ∈ concat layers) as Hin.
    { apply elem_of_concat_lookup. by exists i, li. }
    apply list_elem_of_lookup in Hin as [q Hq].
    exists p, (length l + q)%nat. simpl. split; [|split].
    + by apply lookup_app_l_Some.
    + rewrite lookup_app_r by lia. by replace (length l + q - length l)%nat with q by lia.
    + apply lookup_lt_Some in Hp. lia.
  - destruct (IH i j Hj Hi) as (p & q & Hp & Hq & Hpq); [lia|done..|].
    exists (length l + p)%nat, (length l + q)%nat. simpl. split; [|split; [|lia]].
    + rewrite lookup_app_r by lia. by replace (length l + p - length l)%nat with p by lia.
    + rewrite lookup_app_r by lia. by replace (length l + q - length l)%nat with q by lia.
Qed.

End LayerOrderFacts.


(** ** Batch counts and what a partition holds *)

Module PartitionCoverFacts.
Import DependencyGraph DependencyGraphFacts PartitionInvariant.
Import BalancedBatchingStrategy PartitionFacts RebalanceFacts.

(** *** [_determine_batch_count] *)

(** The loop stops at the greatest count, if any, for which the objects
    suffice, and at 1 otherwise. *)
Lemma reduce_count_spec len min_batch_size count_pred :
  let r := reduce_count len min_batch_size count_pred in
  1 ≤ r ≤ Z.of_nat (S count_pred)
  ∧ (1 < r → min_batch_size * r ≤ len)
  ∧ (∀ k, r < k ≤ Z.of_nat (S count_pred) → len < min_batch_size * k).
Proof.
  induction count_pred as [|n IH]; cbn [reduce_count].
  - cbv zeta. split; [lia|]. split; lia.
  - cbv zeta in *. destruct (Z.ltb_spec len (min_batch_size * Z.of_nat (S (S n)))).
    + destruct IH as (Hrange & Hfits & Hmax). split; [lia|]. split; [done|].
      intros k Hk. destruct (decide (k = Z.of_nat (S (S n)))) as [->|Hne]; [done|].
      apply Hmax. lia.
    + split; [lia|]. split; [lia|]. intros k Hk. lia.
Qed.

(** *** The placement loop on any graph *)

Lemma place_returns num_batches st x :
  (0 < num_batches)%nat →
  length st.1 = num_batches →
  (∀ q i, st.2 !! q = Some i → (i < num_batches)%nat) →
  ∃ st', place num_batches st x = Returned st'
         ∧ length st'.1 = num_batches
         ∧ concat st'.1 ≡ₚ x :: concat st.1
         ∧ (∀ q i, st'.2 !! q = Some i → (i < num_batches)%nat).
Proof.
  intros Hnb Hlen Hbound. destruct st as [partitions obj_to_batch]. simpl in *.
  destruct (min_batch_for_spec obj_to_batch x) as [_ Hmin_or].
  set (min_batch := min_batch_for obj_to_batch x) in *.
  assert (min_batch < num_batches)%nat as Hmin_lt.
  { destruct Hmin_or as [->|(dep & Hdep)]; [done|]. by eapply Hbound. }
  destruct (best_batch_for_range partitions min_batch num_batches) as [_ Hbest_lt].
  specialize (Hbest_lt Hmin_lt).
  set (best_batch := best_batch_for partitions min_batch num_batches) in *.
  unfold place. simpl. fold min_batch. fold best_batch.
  rewrite (proj2 (Nat.ltb_lt _ _)) by lia.
  eexists. split; [done|]. simpl. split; [by rewrite length_alter|].
  split; [apply concat_append; lia|].
  intros q i. destruct (decide (q = qualified_name x)) as [->|Hne].
  - rewrite lookup_insert_eq. by intros [= <-].
  - rewrite lookup_insert_ne by done. apply Hbound.
Qed.

Lemma placement_returns num_batches objs :
  (0 < num_batches)%nat →
  ∀ st,
    length st.1 = num_batches →
    (∀ q i, st.2 !! q = Some i → (i < num_batches)%nat) →
    ∃ st', for_each (place num_batches) objs st = Returned st'
           ∧ length st'.1 = num_batches
           ∧ concat st'.1 ≡ₚ objs ++ concat st.1.
Proof.
  intros Hnb. induction objs as [|x objs IH]; intros st Hlen Hbound.
  - by exists st.
  - destruct (place_returns num_batches st x Hnb Hlen Hbound)
      as (st1 & Hplace & Hlen1 & Hperm1 & Hbound1).
    destruct (IH st1 Hlen1 Hbound1) as (st' & Hrun & Hlen' & Hperm').
    exists st'. split; [|split; [done|]].
    + cbn [for_each]. by rewrite Hplace.
    + rewrite Hperm', Hperm1. simpl. by rewrite Permutation_middle.
Qed.

Lemma concat_replicate_nil {A : Type} n : concat (replicate n (@nil A)) = [].
Proof. induction n as [|n IH]; [done|]. simpl. done. Qed.

Lemma greedy_placement_returns objects num_batches all_layers :
  (0 < num_batches)%nat →
  ∃ st, greedy_placement objects num_batches all_layers = Returned st
        ∧ length st.1 = num_batches ∧ concat st.1 ≡ₚ objects.
Proof.
  intros Hnb. unfold greedy_placement.
  destruct (placement_returns num_batches
              (sorted_by (placement_le (node_to_layer_of all_layers)) objects) Hnb
              (replicate num_batches [], ∅)) as (st & Hrun & Hlen & Hperm).
  - apply length_replicate.
  - intros q i Hq. cbn [snd] in Hq. by rewrite lookup_empty in Hq.
  - exists st. split; [done|]. split; [done|].
    rewrite Hperm. cbn [fst]. rewrite concat_replicate_nil, app_nil_r.
    apply sorted_by_perm.
Qed.

(** *** A move of [_rebalance] on any state *)

Lemma rebalance_step_keeps imbalance_le self graph total st st' :
  rebalance_step imbalance_le self graph total st = Some st' →
  length st'.1 = length st.1 ∧ concat st'.1 ≡ₚ concat st.1.
Proof.
  destruct st as [partitions otb]. unfold rebalance_step. simpl.
  set (sizes := length <$> partitions).
  destruct (imbalance_le _ _ _ _ _); [done|].
  set (li := index_of (list_max sizes) sizes).
  set (si := index_of (list_min sizes) sizes).
  destruct (decide (li = si)) as [|Hne]; [done|].
  destruct (find _ _) as [c|] eqn:Hfind; [|done].
  intros [= <-]. simpl.
  apply find_some in Hfind as [Hc _].
  assert (sizes ≠ []) as Hsizes.
  { intros Hnil. apply Hne. unfold li, si. by rewrite Hnil. }
  assert (li < length partitions)%nat as Hli.
  { unfold li. rewrite <- (length_fmap length partitions).
    apply index_of_lt, list_max_elem, Hsizes. }
  assert (si < length partitions)%nat as Hsi.
  { unfold si. rewrite <- (length_fmap length partitions).
    apply index_of_lt, list_min_elem, Hsizes. }
  destruct (lookup_lt_is_Some_2 partitions li Hli) as [p Hp].
  rewrite (list_lookup_total_correct _ _ _ Hp) in Hc.
  apply list_elem_of_In in Hc. rewrite sorted_by_perm in Hc.
  split; [by rewrite !length_alter|].
  rewrite concat_append by (by rewrite length_alter).
  symmetry. by eapply concat_remove.
Qed.

Lemma rebalance_loop_keeps imbalance_le self graph total iterations :
  ∀ st,
    length (rebalance_loop imbalance_le self graph total iterations st).1 = length st.1
    ∧ concat (rebalance_loop imbalance_le self graph total iterations st).1
        ≡ₚ concat st.1.
Proof.
  induction iterations as [|k IH]; intros st; simpl; [done|].
  destruct (rebalance_step imbalance_le self graph total st) as [st1|] eqn:Hstep; [|done].
  destruct (rebalance_step_keeps _ _ _ _ _ _ Hstep) as [Hlen1 Hperm1].
  destruct (IH st1) as [Hlen Hperm]. split; [congruence|by rewrite Hperm].
Qed.

Lemma _rebalance_keeps imbalance_le self graph partitions obj_to_batch :
  length (_rebalance imbalance_le self partitions obj_to_batch graph) = length partitions
  ∧ concat (_rebalance imbalance_le self partitions obj_to_batch graph)
      ≡ₚ concat partitions.
Proof.
  unfold _rebalance. destruct partitions as [|p partitions]; [done|].
  destruct (length (concat (p :: partitions))) as [|n]; [done|].
  apply (rebalance_loop_keeps imbalance_le self graph (S n) (S n)
           (p :: partitions, obj_to_batch)).
Qed.

(** *** [_partition_balanced] on any graph whose layers are computed *)

Lemma _partition_balanced_returns imbalance_le self objects num_batches graph :
  wf graph → 0 < num_batches →
  ∃ partitions,
    _partition_balanced imbalance_le self objects num_batches graph
      = Returned partitions
    ∧ length partitions = Z.to_nat num_batches
    ∧ concat partitions ≡ₚ objects.
Proof.
  intros Hwf Hpos. unfold _partition_balanced.
  destruct (Z.leb_spec num_batches 0) as [|_]; [lia|].
  destruct (Z.eqb_spec num_batches 1) as [->|Hne].
  { exists [objects]. split; [done|]. split; [done|]. simpl. by rewrite app_nil_r. }
  destruct (LayerFacts.get_layers_facts graph Hwf) as (layers & Hrun & _).
  rewrite Hrun. simpl.
  destruct (greedy_placement_returns objects (Z.to_nat num_batches) layers)
    as (st & Hst & Hlen & Hperm); [lia|].
  rewrite Hst. simpl. eexists. split; [done|].
  destruct (_rebalance_keeps imbalance_le self graph st.1 st.2) as [Hlen' Hperm'].
  split; [congruence|]. by rewrite Hperm'.
Qed.

End PartitionCoverFacts.


(** ** The batches of a plan *)

Module PlanStructureFacts.
Import DependencyGraph DependencyGraphFacts PlanInvariant.
Import BalancedBatchingStrategy PartitionCoverFacts.

Lemma for_each_app {S A : Type} (body : S → A → outcome S) (l1 l2 : list A) (s : S) :
  for_each body (l1 ++ l2) s = (s' ← for_each body l1 s; for_each body l2 s').
Proof.
  revert s. induction l1 as [|x l1 IH]; intros s; [done|].
  cbn [app for_each]. destruct (body s x); simpl; [apply IH|done..].
Qed.

(** *** The five groups *)

Lemma groups_perm objects :
  foundation_of objects ++ tables_of objects ++ views_of objects
    ++ procedures_of objects ++ cleanup_of objects ≡ₚ objects.
Proof.
  unfold foundation_of, tables_of, views_of, procedures_of, cleanup_of.
  induction objects as [|x objects IH]; [done|].
  rewrite !filter_cons.
  destruct (decide (in_group FOUNDATION_TYPES x)) as [Hf|Hf];
    [|destruct (decide (in_group TABLE_TYPES x)) as [Ht|Ht];
      [|destruct (decide (in_group VIEW_TYPES x)) as [Hv|Hv];
        [|destruct (decide (in_group PROCEDURE_TYPES x)) as [Hp|Hp]]]];
    repeat first [rewrite decide_True by tauto | rewrite decide_False by tauto];
    rewrite <- ?app_comm_cons; repeat rewrite <- Permutation_middle;
    by rewrite IH.
Qed.

(** *** Sprints *)

Lemma sprint_at_returns sprint_list i :
  sprint_list ≠ [] → ∃ s, sprint_at sprint_list i = Returned s.
Proof.
  intros Hne. unfold sprint_at. destruct (sprint_list !! i); [by eexists|].
  destruct (last sprint_list) eqn:Hlast; [by eexists|].
  by apply last_None in Hlast.
Qed.

Lemma sprint_at_empty i : sprint_at [] i = Raised IndexError.
Proof. done. Qed.

(** *** One batch more *)

Lemma batches_inv_initial mapping : batches_inv mapping [] 0 0 ([], 1).
Proof. split; simpl; try done. intros b d Hb. by apply elem_of_nil in Hb. Qed.

Lemma batch_ids_of_bound mapping placed t v st group d :
  batches_inv mapping placed t v st →
  d ∈ batch_ids_of group st.1 → 1 ≤ d < st.2.
Proof.
  intros [Hids Hcounter _ _ _]. unfold batch_ids_of.
  intros (b & -> & [_ Hb]%list_elem_of_filter)%list_elem_of_fmap.
  apply list_elem_of_lookup in Hb as [i Hi]. rewrite (Hids i b Hi), Hcounter.
  apply lookup_lt_Some in Hi. lia.
Qed.

(** What [batches_inv] asks of a batch that is appended. *)
Lemma batches_inv_snoc mapping placed t v st b t' v' :
  batches_inv mapping placed t v st →
  Batch.batch_id b = st.2 →
  (∀ d, d ∈ Batch.dependencies b → 1 ≤ d < st.2) →
  assign_sprint mapping (st.1, t, v) b = Returned (st.1 ++ [b], t', v') →
  batches_inv mapping (placed ++ Batch.objects b) t' v' (st.1 ++ [b], st.2 + 1).
Proof.
  intros [Hids Hcounter Hobjs Hdeps Hsprints] Hid Hbdeps Hassign. split; simpl.
  - intros i b' Hi. apply lookup_app_Some in Hi as [Hi|[Hlen Hi]]; [by apply Hids|].
    apply list_lookup_singleton_Some in Hi as [Hi <-]. rewrite Hid, Hcounter. lia.
  - rewrite length_app. simpl. lia.
  - rewrite fmap_app, concat_app. simpl. by rewrite app_nil_r, Hobjs.
  - intros b' d [Hb'| ->%list_elem_of_singleton]%elem_of_app Hd.
    + by apply Hdeps.
    + rewrite Hid. by apply Hbdeps.
  - rewrite for_each_app, Hsprints. simpl. by rewrite Hassign.
Qed.

Lemma add_single_batch_inv mapping placed t v st batch_name group sprint deps objs :
  batches_inv mapping placed t v st →
  (∀ d, d ∈ deps → 1 ≤ d < st.2) →
  (group = "foundation" ∧ sprint = default 1 (foundation mapping))
  ∨ (group = "procedure" ∧ sprint = default 8 (procedures mapping))
  ∨ (group = "cleanup" ∧ sprint = default 9 (cleanup mapping)) →
  batches_inv mapping (placed ++ objs) t v
    (add_single_batch batch_name group sprint deps objs st).
Proof.
  intros Hinv Hdeps Hgroup. unfold add_single_batch.
  destruct objs as [|o objs]; [by rewrite app_nil_r|].
  set (b := {| Batch.batch_id := st.2; Batch.batch_name := batch_name;
               Batch.sprint_number := sprint; Batch.object_type_group := group;
               Batch.objects := sorted_by _ (o :: objs);
               Batch.dependencies := deps |}).
  assert (batches_inv mapping (placed ++ Batch.objects b) t v (st.1 ++ [b], st.2 + 1))
    as [H1 H2 H3 H4 H5].
  { apply (batches_inv_snoc mapping placed t v st b t v Hinv); [done|done|].
    unfold assign_sprint. cbn [Batch.object_type_group b fst snd].
    destruct Hgroup as [[-> ->]|[[-> ->]|[-> ->]]].
    - by rewrite decide_True by done.
    - do 3 (rewrite decide_False by done). by rewrite decide_True by done.
    - do 4 (rewrite decide_False by done). by rewrite decide_True by done. }
  split; try done. rewrite H3. unfold b. cbn [Batch.objects].
  apply Permutation_app_head, sorted_by_perm.
Qed.

(** *** The batches of a partition *)

Lemma add_table_batches_inv mapping placed v deps (bound : Z) :
  let sprint_list := default [2; 3; 4; 5] (table_batches mapping) in
  (∀ d, d ∈ deps → 1 ≤ d < bound) →
  sprint_list ≠ [] →
  ∀ partitions k st0,
    batches_inv mapping placed k v st0 → bound ≤ st0.2 →
    ∃ st',
      for_each (λ (st : list Batch.t * Z) (ip : nat * list DatabaseObject),
          sprint_num ← sprint_at sprint_list ip.1;
          Returned
            (st.1 ++ [{| Batch.batch_id := st.2;
                         Batch.batch_name :=
                           fstring ["Table Batch "; pretty (ip.1 + 1)%nat];
                         Batch.sprint_number := sprint_num;
                         Batch.object_type_group := "table";
                         Batch.objects := ip.2;
                         Batch.dependencies := deps |}],
             st.2 + 1))
        (imap (λ i p, ((k + i)%nat, p)) partitions) st0 = Returned st'
      ∧ batches_inv mapping (placed ++ concat partitions)
          (k + length partitions) v st'
      ∧ bound ≤ st'.2.
Proof.
  intros sprint_list Hdeps Hne partitions. revert placed.
  induction partitions as [|p partitions IH]; intros placed k st0 Hinv Hle.
  { exists st0. split; [done|]. split; [|done]. simpl.
    by rewrite app_nil_r, Nat.add_0_r. }
  cbn [imap for_each]. rewrite Nat.add_0_r. cbn [fst snd].
  destruct (sprint_at_returns sprint_list k Hne) as [s Hs]. rewrite Hs.
  cbn [mbind outcome_bind].
  set (b := {| Batch.batch_id := st0.2;
               Batch.batch_name := fstring ["Table Batch "; pretty (k + 1)%nat];
               Batch.sprint_number := s; Batch.object_type_group := "table";
               Batch.objects := p; Batch.dependencies := deps |}).
  assert (batches_inv mapping (placed ++ p) (S k) v (st0.1 ++ [b], st0.2 + 1)) as Hinv1.
  { apply (batches_inv_snoc mapping placed k v st0 b (S k) v Hinv); [done| |].
    - intros d Hd. specialize (Hdeps d Hd). lia.
    - unfold assign_sprint. cbn [Batch.object_type_group b fst snd].
      rewrite decide_False by done. rewrite decide_True by done.
      fold sprint_list. rewrite Hs. done. }
  destruct (IH (placed ++ p) (S k) (st0.1 ++ [b], st0.2 + 1) Hinv1)
    as (st' & Hrun & Hinv' & Hle'); [simpl; lia|].
  exists st'. split; [|split; [|done]].
  - rewrite <- Hrun. f_equal. apply imap_ext. intros i x _. simpl. f_equal. lia.
  - simpl. rewrite <- app_assoc in Hinv'.
    by replace (k + S (length partitions))%nat with (S k + length partitions)%nat by lia.
Qed.

Lemma add_view_batches_inv mapping placed t deps (bound : Z) :
  let sprint_list := default [6; 7] (view_batches mapping) in
  (∀ d, d ∈ deps → 1 ≤ d < bound) →
  sprint_list ≠ [] →
  ∀ partitions k st0,
    batches_inv mapping placed t k st0 → bound ≤ st0.2 →
    ∃ st',
      for_each (λ (st : list Batch.t * Z) (ip : nat * list DatabaseObject),
          sprint_num ← sprint_at sprint_list ip.1;
          Returned
            (st.1 ++ [{| Batch.batch_id := st.2;
                         Batch.batch_name :=
                           fstring ["View Batch "; pretty (ip.1 + 1)%nat];
                         Batch.sprint_number := sprint_num;
                         Batch.object_type_group := "view";
                         Batch.objects := ip.2;
                         Batch.dependencies := deps |}],
             st.2 + 1))
        (imap (λ i p, ((k + i)%nat, p)) partitions) st0 = Returned st'
      ∧ batches_inv mapping (placed ++ concat partitions)
          t (k + length partitions) st'
      ∧ bound ≤ st'.2.
Proof.
  intros sprint_list Hdeps Hne partitions. revert placed.
  induction partitions as [|p partitions IH]; intros placed k st0 Hinv Hle.
  { exists st0. split; [done|]. split; [|done]. simpl.
    by rewrite app_nil_r, Nat.add_0_r. }
  cbn [imap for_each]. rewrite Nat.add_0_r. cbn [fst snd].
  destruct (sprint_at_returns sprint_list k Hne) as [s Hs]. rewrite Hs.
  cbn [mbind outcome_bind].
  set (b := {| Batch.batch_id := st0.2;
               Batch.batch_name := fstring ["View Batch "; pretty (k + 1)%nat];
               Batch.sprint_number := s; Batch.object_type_group := "view";
               Batch.objects := p; Batch.dependencies := deps |}).
  assert (batches_inv mapping (placed ++ p) t (S k) (st0.1 ++ [b], st0.2 + 1)) as Hinv1.
  { apply (batches_inv_snoc mapping placed t k st0 b t (S k) Hinv); [done| |].
    - intros d Hd. specialize (Hdeps d Hd). lia.
    - unfold assign_sprint. cbn [Batch.object_type_group b fst snd].
      do 2 (rewrite decide_False by done). rewrite decide_True by done.
      fold sprint_list. rewrite Hs. done. }
  destruct (IH (placed ++ p) (S k) (st0.1 ++ [b], st0.2 + 1) Hinv1)
    as (st' & Hrun & Hinv' & Hle'); [simpl; lia|].
  exists st'. split; [|split; [|done]].
  - rewrite <- Hrun. f_equal. apply imap_ext. intros i x _. simpl. f_equal. lia.
  - simpl. rewrite <- app_assoc in Hinv'.
    by replace (k + S (length partitions))%nat with (S k + length partitions)%nat by lia.
Qed.

End PlanStructureFacts.


(** ** How [create_plan] ends *)

Module PlanOutcomeFacts.
Import DependencyGraph DependencyGraphFacts PlanInvariant.
Import BalancedBatchingStrategy PartitionCoverFacts PlanStructureFacts.

Lemma handle_cycles_spec self cycles warnings :
  handle_cycles self cycles warnings =
    if decide (_circular_resolution self = "error") then
      match cycles with
      | [] => Returned warnings
      | c :: _ => Raised (ValueError_circular (cycle_message c))
      end
    else if decide (_circular_resolution self = "warn") then
      Returned (warnings ++ ((λ c, Text (cycle_message c)) <$> cycles))
    else Returned warnings.
Proof.
  unfold handle_cycles. revert warnings.
  induction cycles as [|c cycles IH]; intros warnings.
  { simpl. repeat case_decide; by rewrite ?app_nil_r. }
  cbn [for_each]. destruct (decide (_circular_resolution self = "error")); [done|].
  destruct (decide (_circular_resolution self = "warn")).
  - cbn [mbind outcome_bind]. rewrite IH. simpl. by rewrite <- app_assoc.
  - apply IH.
Qed.

Lemma _determine_batch_count_spec self objects desired_count :
  objects ≠ [] →
  let r := _determine_batch_count self objects desired_count in
  let len := Z.of_nat (length objects) in
  1 ≤ r ≤ Z.max desired_count 1
  ∧ (1 < r → _min_batch_size self * r ≤ len)
  ∧ (∀ k, r < k ≤ desired_count → len < _min_batch_size self * k).
Proof.
  intros Hne. unfold _determine_batch_count.
  destruct objects as [|o objects]; [done|]. cbv zeta.
  destruct (Z.leb_spec desired_count 1) as [Hle|Hlt].
  { split; [lia|]. split; [lia|]. intros k Hk. lia. }
  pose proof (reduce_count_spec (Z.of_nat (length (o :: objects)))
                (_min_batch_size self) (Z.to_nat desired_count - 1)) as Hspec.
  cbv zeta in Hspec. destruct Hspec as (Hrange & Hfits & Hmax).
  replace (Z.of_nat (S (Z.to_nat desired_count - 1))) with desired_count in * by lia.
  rewrite Z.max_l by lia. split; [lia|]. split; [done|]. done.
Qed.

Lemma sum_total_objects batches :
  fold_right Nat.add 0%nat (Batch.total_objects <$> batches)
  = length (concat (Batch.objects <$> batches)).
Proof.
  induction batches as [|b batches IH]; [done|].
  rewrite !fmap_cons. cbn [foldr concat]. rewrite length_app, <- IH. done.
Qed.

Section outcome.

Context (set_iter : gset string → list string).
Context (imbalance_le : nat → nat → nat → nat → Z → bool) (now : string).
Context (self : t) (objects : list DatabaseObject) (graph : DependencyGraph.t).
Context (engagement_name : string).

(** Under ["error"] the first reported cycle ends the run. *)
Lemma create_plan_raises_circular c cycles :
  _circular_resolution self = "error" →
  detect_cycles set_iter graph = Returned (c :: cycles) →
  create_plan set_iter imbalance_le now self objects graph engagement_name
  = Raised (ValueError_circular (cycle_message c)).
Proof.
  intros Hpolicy Hcycles. unfold create_plan. rewrite Hcycles.
  cbn [mbind outcome_bind]. rewrite handle_cycles_spec.
  by rewrite decide_True by done.
Qed.

Hypothesis set_iter_sound : ∀ s x, x ∈ set_iter s → x ∈ s.
Hypothesis Hwf : wf graph.

Lemma split_batches_raise label group deps partitions st :
  partitions ≠ [] →
  add_split_batches label group [] deps partitions st = Raised IndexError.
Proof. intros Hne. destruct partitions; done. Qed.

Lemma create_plan_outcome cycles :
  detect_cycles set_iter graph = Returned cycles →
  (_circular_resolution self = "error" → cycles = []) →
  (((tables_of objects ≠ [] ∧ default [2; 3; 4; 5] (table_batches (_sprint_mapping self)) = [])
    ∨ (views_of objects ≠ [] ∧ default [6; 7] (view_batches (_sprint_mapping self)) = []))
   ∧ create_plan set_iter imbalance_le now self objects graph engagement_name
     = Raised IndexError)
  ∨ ((tables_of objects = [] ∨ default [2; 3; 4; 5] (table_batches (_sprint_mapping self)) ≠ [])
     ∧ (views_of objects = [] ∨ default [6; 7] (view_batches (_sprint_mapping self)) ≠ [])
     ∧ ∃ plan st table_count view_count,
         create_plan set_iter imbalance_le now self objects graph engagement_name
           = Returned plan
         ∧ BatchPlan.batches plan = st.1
         ∧ batches_inv (_sprint_mapping self) objects table_count view_count st
         ∧ BatchPlan.total_objects plan = length objects
         ∧ BatchPlan.total_batches plan = length (BatchPlan.batches plan)
         ∧ (_circular_resolution self = "warn" →
            ∀ c, c ∈ cycles → Text (cycle_message c) ∈ BatchPlan.warnings plan)
         ∧ summary set_iter graph = Returned (BatchPlan.dependency_summary plan)).
Proof.
  intros Hcycles Hpolicy. unfold create_plan.
  rewrite Hcycles. cbn [mbind outcome_bind]. rewrite handle_cycles_spec.
  set (mapping := _sprint_mapping self).
  set (w0 := unrecognized_warnings objects).
  assert (∃ w1, (if decide (_circular_resolution self = "error")
                 then match cycles with
                      | [] => Returned w0
                      | c :: _ => Raised (ValueError_circular (cycle_message c))
                      end
                 else if decide (_circular_resolution self = "warn")
                      then Returned (w0 ++ ((λ c, Text (cycle_message c)) <$> cycles))
                      else Returned w0) = Returned w1
               ∧ (_circular_resolution self = "warn" →
                  ∀ c, c ∈ cycles → Text (cycle_message c) ∈ w1))
    as (w1 & -> & Hw1).
  { destruct (decide (_circular_resolution self = "error")) as [He|He].
    - rewrite (Hpolicy He). exists w0. split; [done|].
      intros _ c Hc. by apply elem_of_nil in Hc.
    - destruct (decide (_circular_resolution self = "warn")) as [Hw|Hw].
      + eexists. split; [done|]. intros _ c Hc. apply elem_of_app. right.
        apply list_elem_of_fmap. by exists c.
      + by exists w0. }
  cbn [outcome_bind].
  (* foundation *)
  set (st0 := add_single_batch "Foundation" "foundation"
                (default 1 (foundation mapping)) [] (foundation_of objects) ([], 1)).
  assert (batches_inv mapping ([] ++ foundation_of objects) 0 0 st0) as Hinv0.
  { apply add_single_batch_inv; [apply batches_inv_initial| |by left].
    intros d Hd. by apply elem_of_nil in Hd. }
  simpl app in Hinv0.
  set (fids := batch_ids_of "foundation" st0.1).
  assert (∀ d, d ∈ fids → 1 ≤ d < st0.2) as Hfids.
  { intros d Hd. by eapply batch_ids_of_bound. }
  (* tables *)
  set (tstage := match tables_of objects with
                 | [] => Returned st0
                 | _ :: _ => _
                 end).
  assert ((tstage = Raised IndexError ∧ tables_of objects ≠ [] ∧ default [2; 3; 4; 5] (table_batches (_sprint_mapping self)) = [])
          ∨ ∃ st1 table_count,
              tstage = Returned st1
              ∧ batches_inv mapping (foundation_of objects ++ tables_of objects)
                  table_count 0 st1
              ∧ st0.2 ≤ st1.2
              ∧ (tables_of objects = [] ∨ default [2; 3; 4; 5] (table_batches (_sprint_mapping self)) ≠ []))
    as [(-> & Hne & Hnil)|(st1 & table_count & -> & Hinv1 & Hle1 & Htables)];
    [|by left; split; [left|]|].
  { unfold tstage. destruct (tables_of objects) as [|o tobjs] eqn:Htobjs.
    { right. exists st0, 0%nat. rewrite app_nil_r.
      split; [done|]. split; [done|]. split; [lia|by left]. }
    destruct (_partition_balanced_returns imbalance_le self (o :: tobjs)
                (_determine_batch_count self (o :: tobjs) (_table_batch_count self))
                graph Hwf) as (partitions & -> & Hlen & Hperm).
    { pose proof (_determine_batch_count_spec self (o :: tobjs)
                    (_table_batch_count self)) as Hcount.
      cbv zeta in Hcount. destruct Hcount as ([? _] & _); [done|lia]. }
    cbn [mbind outcome_bind].
    destruct (decide (default [2; 3; 4; 5] (table_batches (_sprint_mapping self)) = [])) as [Hnil|Hne].
    { left. fold mapping in Hnil |- *. rewrite Hnil. split; [|done].
      apply split_batches_raise. intros ->. simpl in Hperm.
      by apply Permutation_nil_cons in Hperm. }
    right. unfold add_split_batches.
    destruct (add_table_batches_inv mapping (foundation_of objects) 0 fids st0.2
                Hfids Hne partitions 0 st0 Hinv0) as (st1 & Hrun & Hinv1 & Hle1); [lia|].
    exists st1, (0 + length partitions)%nat. split; [exact Hrun|].
    split; [|by split; [|right]].
    destruct Hinv1 as [H1 H2 H3 H4 H5]. split; try done. by rewrite H3, Hperm. }
  cbn [mbind outcome_bind].
  set (tids := batch_ids_of "table" st1.1).
  assert (∀ d, d ∈ fids → 1 ≤ d < st1.2) as Hfids1.
  { intros d Hd. specialize (Hfids d Hd). lia. }
  assert (∀ d, d ∈ tids → 1 ≤ d < st1.2) as Htids.
  { intros d Hd. by eapply batch_ids_of_bound. }
  (* views *)
  set (vstage := match views_of objects with
                 | [] => Returned st1
                 | _ :: _ => _
                 end).
  assert ((vstage = Raised IndexError ∧ views_of objects ≠ [] ∧ default [6; 7] (view_batches (_sprint_mapping self)) = [])
          ∨ ∃ st2 view_count,
              vstage = Returned st2
              ∧ batches_inv mapping
                  (foundation_of objects ++ tables_of objects ++ views_of objects)
                  table_count view_count st2
              ∧ st1.2 ≤ st2.2
              ∧ (views_of objects = [] ∨ default [6; 7] (view_batches (_sprint_mapping self)) ≠ []))
    as [(-> & Hne & Hnil)|(st2 & view_count & -> & Hinv2 & Hle2 & Hviews)];
    [|by left; split; [right|]|].
  { unfold vstage. destruct (views_of objects) as [|o vobjs] eqn:Hvobjs.
    { right. exists st1, 0%nat. rewrite app_nil_r.
      split; [done|]. split; [done|]. split; [lia|by left]. }
    destruct (_partition_balanced_returns imbalance_le self (o :: vobjs)
                (_determine_batch_count self (o :: vobjs) (_view_batch_count self))
                graph Hwf) as (partitions & -> & Hlen & Hperm).
    { pose proof (_determine_batch_count_spec self (o :: vobjs)
                    (_view_batch_count self)) as Hcount.
      cbv zeta in Hcount. destruct Hcount as ([? _] & _); [done|lia]. }
    cbn [mbind outcome_bind].
    destruct (decide (default [6; 7] (view_batches (_sprint_mapping self)) = [])) as [Hnil|Hne].
    { left. fold mapping in Hnil |- *. rewrite Hnil. split; [|done].
      apply split_batches_raise. intros ->. simpl in Hperm.
      by apply Permutation_nil_cons in Hperm. }
    right. unfold add_split_batches.
    destruct (add_view_batches_inv mapping
                (foundation_of objects ++ tables_of objects) table_count
                (tids ++ fids) st1.2) with (partitions := partitions) (k := 0%nat)
                (st0 := st1) as (st2 & Hrun & Hinv2 & Hle2); [|done|done|lia|].
    { intros d [Hd|Hd]%elem_of_app; [by apply Htids|by apply Hfids1]. }
    exists st2, (0 + length partitions)%nat. split; [exact Hrun|].
    split; [|by split; [|right]].
    destruct Hinv2 as [H1 H2 H3 H4 H5]. split; try done.
    by rewrite H3, Hperm, <- app_assoc. }
  cbn [mbind outcome_bind].
  set (vids := batch_ids_of "view" st2.1).
  assert (∀ d, d ∈ fids → 1 ≤ d < st2.2) as Hfids2.
  { intros d Hd. specialize (Hfids1 d Hd). lia. }
  assert (∀ d, d ∈ tids → 1 ≤ d < st2.2) as Htids2.
  { intros d Hd. specialize (Htids d Hd). lia. }
  assert (∀ d, d ∈ vids → 1 ≤ d < st2.2) as Hvids.
  { intros d Hd. by eapply batch_ids_of_bound. }
  (* procedures *)
  set (st3 := add_single_batch "Stored Procedures" "procedure"
                (default 8 (procedures mapping)) (tids ++ vids ++ fids)
                (procedures_of objects) st2).
  assert (batches_inv mapping
            ((foundation_of objects ++ tables_of objects ++ views_of objects)
               ++ procedures_of objects) table_count view_count st3) as Hinv3.
  { apply add_single_batch_inv; [done| |by right; left].
    intros d [Hd|[Hd|Hd]%elem_of_app]%elem_of_app; auto. }
  assert (st2.2 ≤ st3.2) as Hle3.
  { unfold st3, add_single_batch. destruct (procedures_of objects); simpl; lia. }
  set (pids := batch_ids_of "procedure" st3.1).
  assert (∀ d, d ∈ pids → 1 ≤ d < st3.2) as Hpids.
  { intros d Hd. by eapply batch_ids_of_bound. }
  (* cleanup *)
  set (st4 := add_single_batch "Cleanup & External" "cleanup"
                (default 9 (cleanup mapping)) (fids ++ tids ++ vids ++ pids)
                (cleanup_of objects) st3).
  assert (batches_inv mapping objects table_count view_count st4) as Hinv4.
  { assert (batches_inv mapping
              (((foundation_of objects ++ tables_of objects ++ views_of objects)
                  ++ procedures_of objects) ++ cleanup_of objects)
              table_count view_count st4) as [H1 H2 H3 H4 H5].
    { apply add_single_batch_inv; [done| |by right; right].
      intros d [Hd|[Hd|[Hd|Hd]%elem_of_app]%elem_of_app]%elem_of_app.
      - specialize (Hfids2 d Hd). lia.
      - specialize (Htids2 d Hd). lia.
      - specialize (Hvids d Hd). lia.
      - by apply Hpids. }
    split; try done. etrans; [exact H3|]. etrans; [|exact (groups_perm objects)].
    by rewrite <- !app_assoc. }
  destruct (TarjanFacts.summary_returns set_iter graph set_iter_sound Hwf)
    as (s & Hsummary).
  rewrite Hsummary. cbn [mbind outcome_bind].
  right. split; [done|]. split; [done|].
  eexists _, st4, table_count, view_count. split; [reflexivity|].
  cbn [BatchPlan.batches BatchPlan.total_objects BatchPlan.total_batches
       BatchPlan.warnings BatchPlan.dependency_summary].
  split; [done|]. split; [done|]. split.
  { rewrite sum_total_objects. by rewrite (bi_objects _ _ _ _ _ Hinv4). }
  split; [done|]. split; [|done].
  intros Hw c Hc. rewrite !elem_of_app. left. left.
  specialize (Hw1 Hw c Hc). destruct (foundation_of objects); [|done].
  apply elem_of_app. by left.
Qed.

(** What a returned plan tells about the run. *)
Lemma create_plan_returned plan :
  create_plan set_iter imbalance_le now self objects graph engagement_name
    = Returned plan →
  ∃ st table_count view_count cycles,
    detect_cycles set_iter graph = Returned cycles
    ∧ (_circular_resolution self = "error" → cycles = [])
    ∧ (tables_of objects = [] ∨ default [2; 3; 4; 5] (table_batches (_sprint_mapping self)) ≠ [])
    ∧ (views_of objects = [] ∨ default [6; 7] (view_batches (_sprint_mapping self)) ≠ [])
    ∧ BatchPlan.batches plan = st.1
    ∧ batches_inv (_sprint_mapping self) objects table_count view_count st
    ∧ BatchPlan.total_objects plan = length objects
    ∧ BatchPlan.total_batches plan = length (BatchPlan.batches plan)
    ∧ (_circular_resolution self = "warn" →
       ∀ c, c ∈ cycles → Text (cycle_message c) ∈ BatchPlan.warnings plan)
    ∧ summary set_iter graph = Returned (BatchPlan.dependency_summary plan).
Proof.
  intros Hplan.
  destruct (TarjanFacts.detect_cycles_returns set_iter graph set_iter_sound Hwf)
    as (cycles & Hcycles).
  assert (_circular_resolution self = "error" → cycles = []) as Hpolicy.
  { intros Herror. destruct cycles as [|c cycles]; [done|].
    by rewrite (create_plan_raises_circular c cycles Herror Hcycles) in Hplan. }
  destruct (create_plan_outcome cycles Hcycles Hpolicy)
    as [[_ Hraised]|(Htables & Hviews & plan' & st & tc & vc & Hrun & Hrest)].
  { by rewrite Hraised in Hplan. }
  rewrite Hrun in Hplan. injection Hplan as ->.
  exists st, tc, vc, cycles. by repeat (split; [done|]).
Qed.

End outcome.

(** The two counts of a batch add up to its size. *)
Lemma passed_failed_total (objs : list DatabaseObject) :
  (length (filter (λ obj, passed obj = true) objs)
   + length (filter (λ obj, passed obj = false) objs) = length objs)%nat.
Proof.
  induction objs as [|o objs IH]; [done|]. rewrite !filter_cons.
  destruct (passed o);
    repeat first [rewrite decide_True by done | rewrite decide_False by done];
    simpl; lia.
Qed.

End PlanOutcomeFacts.


(** ** [_validate_batch_dependencies] *)

Module ValidatorFacts.
Import DependencyGraph ClosureInvariant BalancedBatchingStrategy.

(** The dictionary filled by the two loops, as one run over the entries. *)
Lemma obj_to_batch_flat (batches : list Batch.t) (m : gmap string Z) :
  fold_left (λ m batch,
      fold_left (λ m obj, <[qualified_name obj := Batch.batch_id batch]> m)
        (Batch.objects batch) m)
    batches m
  = fold_left (λ m (kv : string * Z), <[kv.1 := kv.2]> m)
      (batch ← batches;
       (λ obj, (qualified_name obj, Batch.batch_id batch)) <$> Batch.objects batch)
      m.
Proof.
  revert m. induction batches as [|b batches IH]; intros m; [done|].
  cbn [fold_left mbind list_bind]. rewrite fold_left_app, <- IH. f_equal.
  generalize (Batch.objects b). intros objs. revert m.
  induction objs as [|o objs IHo]; intros m; [done|]. simpl. apply IHo.
Qed.

Lemma entries_keys (batches : list Batch.t) :
  (batch ← batches;
   (λ obj, (qualified_name obj, Batch.batch_id batch)) <$> Batch.objects batch).*1
  = qualified_name <$> concat (Batch.objects <$> batches).
Proof.
  induction batches as [|b batches IH]; [done|].
  cbn [mbind list_bind]. rewrite fmap_app, IH. simpl. rewrite fmap_app. f_equal.
  rewrite <- list_fmap_compose. done.
Qed.

Lemma fold_insert_origin (entries : list (string * Z)) (m : gmap string Z) k v :
  fold_left (λ m (kv : string * Z), <[kv.1 := kv.2]> m) entries m !! k = Some v →
  (k, v) ∈ entries ∨ m !! k = Some v.
Proof.
  revert m. induction entries as [|[k' v'] entries IH]; intros m Hk; [by right|].
  simpl in Hk. apply IH in Hk as [Hk|Hk]; [left; by right|].
  destruct (decide (k' = k)) as [->|Hne].
  - rewrite lookup_insert_eq in Hk. injection Hk as ->. left. by left.
  - rewrite lookup_insert_ne in Hk by done. by right.
Qed.

Lemma fold_insert_keeps (entries : list (string * Z)) (m : gmap string Z) k v :
  k ∉ entries.*1 → m !! k = Some v →
  fold_left (λ m (kv : string * Z), <[kv.1 := kv.2]> m) entries m !! k = Some v.
Proof.
  revert m. induction entries as [|[k' v'] entries IH]; intros m Hk Hm; [done|].
  simpl. simpl in Hk. apply not_elem_of_cons in Hk as [Hne Hk].
  apply IH; [done|]. by rewrite lookup_insert_ne.
Qed.

Lemma fold_insert_member (entries : list (string * Z)) (m : gmap string Z) k v :
  NoDup entries.*1 → (k, v) ∈ entries →
  fold_left (λ m (kv : string * Z), <[kv.1 := kv.2]> m) entries m !! k = Some v.
Proof.
  revert m. induction entries as [|[k' v'] entries IH]; intros m Hnd Hin.
  { by apply elem_of_nil in Hin. }
  simpl in Hnd. apply NoDup_cons in Hnd as [Hfresh Hnd].
  apply elem_of_cons in Hin as [Heq|Hin].
  - injection Heq as <- <-. simpl. apply fold_insert_keeps; [done|].
    apply lookup_insert_eq.
  - simpl. by apply IH.
Qed.

Lemma elem_of_entries (batches : list Batch.t) k v :
  (k, v) ∈ (batch ← batches;
            (λ obj, (qualified_name obj, Batch.batch_id batch)) <$> Batch.objects batch)
  ↔ ∃ b o, b ∈ batches ∧ o ∈ Batch.objects b
           ∧ qualified_name o = k ∧ Batch.batch_id b = v.
Proof.
  rewrite list_elem_of_bind. split.
  - intros (b & (o & Heq & Ho)%list_elem_of_fmap & Hb). injection Heq as -> ->.
    by exists b, o.
  - intros (b & o & Hb & Ho & <- & <-). exists b. split; [|done].
    apply list_elem_of_fmap. by exists o.
Qed.

Lemma bind_nil {A B : Type} (f : A → list B) (l : list A) :
  l ≫= f = [] ↔ ∀ x, x ∈ l → f x = [].
Proof.
  induction l as [|x l IH]; cbn [mbind list_bind].
  - split; [|done]. intros _ x Hx. by apply elem_of_nil in Hx.
  - split.
    + intros [Hx Hl]%app_eq_nil y [->|Hy]%elem_of_cons; [done|]. by apply IH.
    + intros Hall. rewrite (Hall x) by by left. simpl. apply IH.
      intros y Hy. apply Hall. by right.
Qed.

(** With distinct names in the batches, the validator is silent exactly when
    no object has a dependency in a batch of greater id. *)
Lemma _validate_batch_dependencies_spec set_iter batches graph :
  (∀ s x, x ∈ set_iter s ↔ x ∈ s) →
  NoDup (qualified_name <$> concat (Batch.objects <$> batches)) →
  _validate_batch_dependencies set_iter batches graph = []
  ↔ ∀ b o b' o',
      b ∈ batches → o ∈ Batch.objects b →
      b' ∈ batches → o' ∈ Batch.objects b' →
      qualified_name o' ∈ get_dependencies graph (qualified_name o) →
      Batch.batch_id b' ≤ Batch.batch_id b.
Proof.
  intros Hiter Hnd. unfold _validate_batch_dependencies. cbv zeta.
  rewrite obj_to_batch_flat.
  set (entries := batch ← batches;
                  (λ obj, (qualified_name obj, Batch.batch_id batch))
                    <$> Batch.objects batch).
  assert (∀ k v, fold_left (λ (m : gmap string Z) (kv : string * Z),
                              <[kv.1 := kv.2]> m) entries ∅
                   !! k = Some v
                 ↔ ∃ b o, b ∈ batches ∧ o ∈ Batch.objects b
                          ∧ qualified_name o = k ∧ Batch.batch_id b = v) as Hmap.
  { intros k v. rewrite <- elem_of_entries. fold entries. split.
    - intros [Hin|Hempty]%fold_insert_origin; [done|]. by rewrite lookup_empty in Hempty.
    - apply fold_insert_member. unfold entries. by rewrite entries_keys. }
  generalize dependent (fold_left (λ (m : gmap string Z) (kv : string * Z),
                                     <[kv.1 := kv.2]> m) entries ∅).
  intros obj_to_batch Hmap. rewrite bind_nil. split.
  - intros Hsilent b o b' o' Hb Ho Hb' Ho' Hdep.
    specialize (Hsilent b Hb). rewrite bind_nil in Hsilent.
    specialize (Hsilent o Ho). rewrite bind_nil in Hsilent.
    specialize (Hsilent (qualified_name o')).
    rewrite Hiter in Hsilent. specialize (Hsilent Hdep).
    assert (obj_to_batch !! qualified_name o' = Some (Batch.batch_id b')) as Hlook.
    { apply Hmap. by exists b', o'. }
    rewrite Hlook in Hsilent.
    destruct (Z.ltb_spec (Batch.batch_id b) (Batch.batch_id b')); [done|lia].
  - intros Hordered b Hb. rewrite bind_nil. intros o Ho. rewrite bind_nil.
    intros dep_name Hdep%Hiter.
    destruct (obj_to_batch !! dep_name) as [id|] eqn:Hlook; [|done].
    apply Hmap in Hlook as (b' & o' & Hb' & Ho' & <- & <-).
    specialize (Hordered b o b' o' Hb Ho Hb' Ho' Hdep).
    destruct (Z.ltb_spec (Batch.batch_id b) (Batch.batch_id b')); [lia|done].
Qed.

End ValidatorFacts.


(** ** Primary and dependent failures *)

Module FailureFacts.
Import DependencyAnalyzer BfsInvariant DiGraphFacts BfsFacts.

(** [_get_ancestors] returns, and returns the nodes reached from the start
    node through at most [max_depth] dependency edges. *)
Lemma _get_ancestors_spec g max_depth node_key :
  ∃ A, _get_ancestors g max_depth node_key = Returned A
       ∧ ∀ v, v ∈ A ↔ ancestor_within g max_depth node_key v.
Proof.
  unfold _get_ancestors.
  destruct (bfs_returns (DiGraph.successors g) node_key max_depth
              ((λ e, e.1.2) <$> DiGraph.edges g) (bfs_fuel g)) with
    (visited := (∅ : gset string)) (processed := @nil (string * Z))
    (queue := [(node_key, 0)]) as (A & processed & Hrun & Hinv).
  - intros a w Hw. unfold DiGraph.successors in Hw.
    apply list_elem_of_fmap in Hw as (e & -> & [_ He]%list_elem_of_filter).
    apply list_elem_of_fmap. by exists e.
  - apply bfs_inv_initial.
  - unfold bfs_fuel. rewrite length_fmap. simpl. lia.
  - exists A. split; [done|]. intros v.
    rewrite (bfs_inv_final _ _ _ A processed v Hinv). done.
Qed.

(** A loop that appends the elements passing a test is [filter]. *)
Lemma for_each_append {A : Type} (test : A → outcome bool) (p : A → bool)
    (l : list A) (acc : list A) :
  (∀ x, x ∈ l → test x = Returned (p x)) →
  for_each (λ acc x, keep ← test x; Returned (if (keep : bool) then acc ++ [x] else acc)) l acc
  = Returned (acc ++ filter (λ x, p x = true) l).
Proof.
  revert acc. induction l as [|x l IH]; intros acc Htest.
  { simpl. by rewrite app_nil_r. }
  cbn [for_each]. rewrite (Htest x) by (by left). cbn [mbind outcome_bind].
  rewrite filter_cons. destruct (p x) eqn:Hp.
  - rewrite decide_True by done. rewrite IH by (intros y Hy; apply Htest; by right).
    by rewrite <- app_assoc.
  - rewrite decide_False by done. apply IH. intros y Hy. apply Htest. by right.
Qed.

Lemma filter_split {A : Type} (p q : A → bool) (l : list A) :
  filter (λ x, p x && negb (q x) = true) l ++ filter (λ x, p x && q x = true) l
  ≡ₚ filter (λ x, p x = true) l.
Proof.
  induction l as [|x l IH]; [done|]. rewrite !filter_cons.
  destruct (p x), (q x); cbn [andb negb];
    repeat first [rewrite decide_True by done | rewrite decide_False by done];
    rewrite <- ?Permutation_middle; simpl; by rewrite ?IH.
Qed.

Lemma sorted_descending (l : list AssessmentObject.t) :
  StronglySorted
    (λ x y, AssessmentObject.impact_score y ≤ AssessmentObject.impact_score x)
    (sorted_by by_impact_descending l).
Proof.
  assert (StronglySorted
            (λ x y, - AssessmentObject.impact_score x ≤ - AssessmentObject.impact_score y)
            (sorted_by by_impact_descending l)) as Hsorted.
  { apply (PartitionFacts.sorted_by_sorted by_impact_descending
             (λ o, - AssessmentObject.impact_score o)).
    - intros x y. unfold by_impact_descending. rewrite Z.leb_gt, Z.leb_le. lia.
    - intros x y. unfold by_impact_descending. rewrite Z.leb_le. lia. }
  induction Hsorted as [|x l' Hl' IH Hx]; constructor; [done|].
  eapply Forall_impl; [exact Hx|]. intros y Hy. simpl in Hy. lia.
Qed.

Section failures.

Context (a : t).

(** The test of the two loops: a failed node among the ancestors found. *)
Lemma upstream_failure_spec key :
  ∃ found,
    ancestors_or_error (graph a) (max_depth a) key = Returned found
    ∧ (match found with
       | Some ancestors => has_failed (graph a) ancestors
       | None => false
       end = true
       ↔ DiGraph.has_node (graph a) key = true
         ∧ ∃ n, ancestor_within (graph a) (max_depth a) key n
                ∧ _is_failed_node (graph a) n = true).
Proof.
  unfold ancestors_or_error.
  destruct (_get_ancestors_spec (graph a) (max_depth a) key) as (A & Hrun & HA).
  destruct (Z.ltb_spec 0 (max_depth a)) as [Hpos|Hnonpos];
    destruct (DiGraph.has_node (graph a) key) eqn:Hnode; simpl.
  - rewrite Hrun. simpl. eexists. split; [done|]. unfold has_failed.
    rewrite bool_decide_eq_true. split.
    + intros (n & Hn%HA & Hfailed). split; [done|]. by exists n.
    + intros (_ & n & Hn%HA & Hfailed). by exists n.
  - eexists. split; [done|]. split; [done|]. by intros [? _].
  - rewrite Hrun. simpl. eexists. split; [done|]. unfold has_failed.
    rewrite bool_decide_eq_true. split.
    + intros (n & Hn%HA & Hfailed). split; [done|]. by exists n.
    + intros (_ & n & Hn%HA & Hfailed). by exists n.
  - rewrite Hrun. simpl. eexists. split; [done|]. unfold has_failed.
    rewrite bool_decide_eq_true. split.
    + intros (n & (_ & k & Hk1 & Hk & _)%HA & _). lia.
    + by intros [? _].
Qed.

Lemma for_each_ext {S A : Type} (f g : S → A → outcome S) (l : list A) (s : S) :
  (∀ s x, f s x = g s x) → for_each f l s = for_each g l s.
Proof.
  intros Heq. revert s. induction l as [|x l IH]; intros s; [done|].
  cbn [for_each]. rewrite Heq. destruct (g s x); simpl; [apply IH|done..].
Qed.

(** Every failed object is a primary or a dependent failure; the dependent
    ones are those with a failed node among their ancestors. *)
Lemma identify_failures_spec :
  ∃ primary dependent,
    identify_primary_failures a = Returned primary
    ∧ identify_dependent_failures a = Returned dependent
    ∧ primary ++ dependent
      ≡ₚ filter (λ o, AssessmentObject.is_failed o = true) (objects a)
    ∧ (∀ o, o ∈ dependent
            ↔ o ∈ objects a ∧ AssessmentObject.is_failed o = true
              ∧ DiGraph.has_node (graph a) (key_of o) = true
              ∧ ∃ n, ancestor_within (graph a) (max_depth a) (key_of o) n
                     ∧ _is_failed_node (graph a) n = true)
    ∧ StronglySorted
        (λ x y, AssessmentObject.impact_score y ≤ AssessmentObject.impact_score x)
        primary
    ∧ StronglySorted
        (λ x y, AssessmentObject.impact_score y ≤ AssessmentObject.impact_score x)
        dependent.
Proof.
  set (up := λ o : AssessmentObject.t,
         match ancestors_or_error (graph a) (max_depth a) (key_of o) with
         | Returned (Some ancestors) => has_failed (graph a) ancestors
         | _ => false
         end).
  assert (∀ o, up o = true
               ↔ DiGraph.has_node (graph a) (key_of o) = true
                 ∧ ∃ n, ancestor_within (graph a) (max_depth a) (key_of o) n
                        ∧ _is_failed_node (graph a) n = true) as Hup.
  { intros o. unfold up.
    destruct (upstream_failure_spec (key_of o)) as (found & -> & Hfound).
    by destruct found. }
  set (test := λ (keep : bool → bool) (o : AssessmentObject.t),
         if AssessmentObject.is_failed o
         then found ← ancestors_or_error (graph a) (max_depth a) (key_of o);
              Returned (keep match found with
                             | Some ancestors => has_failed (graph a) ancestors
                             | None => false
                             end)
         else Returned false).
  assert (∀ keep o, test keep o
                    = Returned (AssessmentObject.is_failed o && keep (up o))) as Htest.
  { intros keep o. unfold test, up.
    destruct (AssessmentObject.is_failed o); [|done].
    destruct (upstream_failure_spec (key_of o)) as (found & -> & _).
    by destruct found. }
  exists (sorted_by by_impact_descending
            (filter (λ o, AssessmentObject.is_failed o && negb (up o) = true)
               (objects a))),
         (sorted_by by_impact_descending
            (filter (λ o, AssessmentObject.is_failed o && up o = true) (objects a))).
  split; [|split; [|split; [|split; [|split]]]].
  - unfold identify_primary_failures.
    rewrite (for_each_ext _
               (λ acc x, keep ← test negb x;
                         Returned (if (keep : bool) then acc ++ [x] else acc))).
    + rewrite (for_each_append (test negb)
                 (λ o, AssessmentObject.is_failed o && negb (up o))); [done|].
      intros o _. apply Htest.
    + intros acc o. unfold test. destruct (AssessmentObject.is_failed o); [|done].
      destruct (ancestors_or_error (graph a) (max_depth a) (key_of o))
        as [[ancestors|]| |]; simpl; [|done..].
      by destruct (has_failed (graph a) ancestors).
  - unfold identify_dependent_failures.
    rewrite (for_each_ext _
               (λ acc x, keep ← test id x;
                         Returned (if (keep : bool) then acc ++ [x] else acc))).
    + rewrite (for_each_append (test id)
                 (λ o, AssessmentObject.is_failed o && up o)); [done|].
      intros o _. apply Htest.
    + intros acc o. unfold test. destruct (AssessmentObject.is_failed o); [|done].
      destruct (ancestors_or_error (graph a) (max_depth a) (key_of o))
        as [[ancestors|]| |]; simpl; [|done..].
      by destruct (has_failed (graph a) ancestors).
  - rewrite !sorted_by_perm. apply filter_split.
  - intros o. rewrite sorted_by_perm, list_elem_of_filter.
    rewrite andb_true_iff, Hup. tauto.
  - apply sorted_descending.
  - apply sorted_descending.
Qed.

End failures.

End FailureFacts.


(** ** [_trace_path] *)

Module TraceFacts.
Import DependencyGraph DependencyGraphFacts ClosureInvariant ClosureFacts.
Import batch_planner.

Section trace.

Context (set_iter : gset string → list string) (graph : DependencyGraph.t).
Hypothesis set_iter_perm : iterates_sets set_iter.

Lemma get_ancestors_returns node :
  ∃ ancestors, get_ancestors set_iter graph node = Returned ancestors.
Proof.
  destruct (closure_returns set_iter (_depends_on graph) node set_iter_perm)
    as (res & Hres & _).
  by exists res.
Qed.

(** [max] returns one of the candidates. *)
Lemma most_ancestors_returns deps :
  ∀ best,
    ∃ best',
      for_each (λ best d,
          ancestors ← get_ancestors set_iter graph d;
          Returned
            match best with
            | Some (_, best_key) =>
                if (best_key <? size ancestors)%nat then Some (d, size ancestors)
                else best
            | None => Some (d, size ancestors)
            end)
        deps best = Returned best'
      ∧ (best' = best ∧ deps = []
         ∨ ∃ d k, best' = Some (d, k) ∧ (d ∈ deps ∨ ∃ k', best = Some (d, k'))).
Proof.
  induction deps as [|d deps IH]; intros best.
  { exists best. split; [done|]. by left. }
  cbn [for_each]. destruct (get_ancestors_returns d) as (ancestors & ->).
  cbn [mbind outcome_bind].
  set (best1 := match best with
                | Some (_, best_key) =>
                    if (best_key <? size ancestors)%nat then Some (d, size ancestors)
                    else best
                | None => Some (d, size ancestors)
                end).
  assert (∃ d1 k1, best1 = Some (d1, k1) ∧ (d1 = d ∨ ∃ k', best = Some (d1, k')))
    as (d1 & k1 & Hbest1 & Hd1).
  { unfold best1. destruct best as [[d0 k0]|].
    - destruct (k0 <? size ancestors)%nat; [by exists d, (size ancestors); split; [|left]|].
      exists d0, k0. split; [done|]. right. by exists k0.
    - exists d, (size ancestors). split; [done|]. by left. }
  destruct (IH best1) as (best' & Hrun & Hbest').
  exists best'. split; [done|]. right.
  destruct Hbest' as [[-> ->]|(d2 & k2 & -> & Hd2)].
  - exists d1, k1. split; [done|]. destruct Hd1 as [->|?]; [left; by left|by right].
  - exists d2, k2. split; [done|]. destruct Hd2 as [Hd2|[k' Hk']].
    + left. by right.
    + rewrite Hbest1 in Hk'. injection Hk' as -> _.
      destruct Hd1 as [->|?]; [left; by left|by right].
Qed.

Lemma most_ancestors_member deps :
  deps ≠ [] →
  ∃ d k, most_ancestors set_iter graph deps = Returned (Some (d, k)) ∧ d ∈ deps.
Proof.
  intros Hne. unfold most_ancestors.
  destruct (most_ancestors_returns deps None) as (best' & Hrun & Hbest').
  destruct Hbest' as [[_ ?]|(d & k & -> & [Hd|[k' ?]])]; [done| |done].
  by exists d, k.
Qed.

Hypothesis Hwf : wf graph.

(** The walk from [target]: [path] lists the nodes visited, each a
    dependency of the one before it. *)
Lemma trace_loop_spec target fuel :
  ∀ path current visited,
    visited = list_to_set path →
    NoDup path →
    last path = Some current →
    head path = Some target →
    (∀ i a b, path !! i = Some a → path !! S i = Some b →
              b ∈ get_dependencies graph a) →
    (size (_nodes graph ∖ visited) ≤ fuel)%nat →
    ∃ path' root,
      trace_loop set_iter fuel graph path current visited = Returned path'
      ∧ NoDup path'
      ∧ last path' = Some root
      ∧ head path' = Some target
      ∧ (∀ i a b, path' !! i = Some a → path' !! S i = Some b →
                  b ∈ get_dependencies graph a)
      ∧ get_dependencies graph root ⊆ list_to_set path'.
Proof.
  induction fuel as [|fuel IH];
    intros path current visited Hvisited Hnd Hlast Hhead Hchain Hfuel.
  - assert (get_dependencies graph current ∖ visited = ∅) as Hdone.
    { apply set_eq. intros d. split; [|set_solver]. intros [Hd Hfresh]%elem_of_difference.
      assert (d ∈ _nodes graph ∖ visited) as Hin.
      { apply elem_of_difference. split; [|done]. by apply (wf_closed graph Hwf current d). }
      assert (size (_nodes graph ∖ visited) ≠ 0%nat) as Hsize.
      { apply size_non_empty_iff. set_solver. }
      lia. }
    exists path, current. unfold trace_loop. rewrite decide_True by done.
    repeat split; try done. subst visited. set_solver.
  - cbn [trace_loop].
    destruct (decide (get_dependencies graph current ∖ visited = ∅)) as [Hdone|Hmore].
    { exists path, current. repeat split; try done. subst visited. set_solver. }
    destruct (most_ancestors_member
                (set_iter (get_dependencies graph current ∖ visited)))
      as (d & k & -> & Hd).
    { intros Hnil. apply Hmore. apply set_eq. intros x. split; [|set_solver].
      intros Hx%(iterates_sets_elem set_iter _ _ set_iter_perm).
      rewrite Hnil in Hx. by apply elem_of_nil in Hx. }
    apply (iterates_sets_elem set_iter _ _ set_iter_perm) in Hd.
    apply elem_of_difference in Hd as [Hdep Hfresh].
    cbn [mbind outcome_bind].
    apply IH.
    + subst visited. rewrite list_to_set_app_L. simpl. set_solver.
    + apply NoDup_app. split; [done|]. split; [|apply NoDup_singleton].
      intros x Hx ->%list_elem_of_singleton. apply Hfresh. subst visited.
      by apply elem_of_list_to_set.
    + by rewrite last_snoc.
    + destruct path; [done|]. done.
    + intros i a b Ha Hb.
      apply lookup_app_Some in Hb as [Hb|[Hlen Hb]].
      * apply (Hchain i a b); [|done].
        apply lookup_app_Some in Ha as [Ha|[Hlen _]]; [done|].
        apply lookup_lt_Some in Hb. lia.
      * apply list_lookup_singleton_Some in Hb as [Hi <-].
        assert (i = (length path - 1)%nat) as -> by lia.
        rewrite lookup_app_l in Ha by lia.
        rewrite last_lookup in Hlast.
        replace (Nat.pred (length path)) with (length path - 1)%nat in Hlast by lia.
        rewrite Hlast in Ha. by injection Ha as <-.
    + assert (d ∈ _nodes graph ∖ visited) as Hin.
      { apply elem_of_difference. split; [|done]. by apply (wf_closed graph Hwf current d). }
      assert (_nodes graph ∖ (visited ∪ {[d]}) ⊂ _nodes graph ∖ visited) as Hsub.
      { set_solver. }
      apply subset_size in Hsub. lia.
Qed.

(** [_trace_path] returns a path without repetition that ends at [target],
    along which every node is a dependency of the next, and that starts at
    a node with no dependency outside the path. *)
Lemma _trace_path_spec target :
  ∃ path root,
    _trace_path set_iter graph target = Returned path
    ∧ NoDup path
    ∧ head path = Some root
    ∧ last path = Some target
    ∧ (∀ i a b, path !! i = Some a → path !! S i = Some b →
                a ∈ get_dependencies graph b)
    ∧ get_dependencies graph root ⊆ list_to_set path.
Proof.
  unfold _trace_path.
  destruct (trace_loop_spec target (size (_nodes graph)) [target] target {[target]})
    as (path' & root & -> & Hnd & Hlast & Hhead & Hchain & Hroot).
  - simpl. set_solver.
  - apply NoDup_singleton.
  - done.
  - done.
  - intros i a b Ha Hb. by destruct i.
  - apply subseteq_size. set_solver.
  - cbn [mbind outcome_bind]. exists (reverse path'), root.
    split; [done|]. split; [by rewrite reverse_Permutation|].
    split; [by rewrite head_reverse|]. split; [by rewrite last_reverse|]. split.
    + intros i a b Ha Hb.
      pose proof (lookup_lt_Some _ _ _ Hb) as Hlen. rewrite length_reverse in Hlen.
      rewrite reverse_lookup in Ha by lia. rewrite reverse_lookup in Hb by lia.
      apply (Hchain (length path' - S (S i))%nat b a); [done|].
      by replace (S (length path' - S (S i))) with (length path' - S i)%nat by lia.
    + intros x Hx%Hroot. rewrite elem_of_list_to_set in Hx.
      rewrite elem_of_list_to_set. by apply elem_of_reverse.
Qed.

End trace.

End TraceFacts.


(** * Further properties of the code *)

Module Extras.
Import DependencyGraph DependencyGraphFacts ClosureInvariant PlanInvariant.
Import BalancedBatchingStrategy Examples.

(** ** The dependency graph *)

(** X1: when iterating over a set visits each of its elements once,
    [get_ancestors] returns, and returns exactly the nodes that [node]
    reaches along one or more dependency edges; [node] itself is among
    them exactly when it lies on a cycle. *)
Theorem X1_get_ancestors_transitive_dependencies
    (set_iter : gset string → list string) (g : DependencyGraph.t) (node : string) :
  iterates_sets set_iter →
  ∃ ancestors,
    get_ancestors set_iter g node = Returned ancestors
    ∧ (∀ v, v ∈ ancestors ↔ tc (edge g) node v)
    ∧ (node ∈ ancestors ↔ on_cycle g node).
Proof.
  intros Hperm.
  destruct (ClosureFacts.closure_returns set_iter (_depends_on g) node Hperm)
    as (res & Hrun & Hres).
  exists res. split; [exact Hrun|]. split.
  - intros v. apply Hres.
  - unfold on_cycle. apply Hres.
Qed.

(** The ancestors of [dbo.D] among the four layered tables. *)
Lemma X1_layered_tables_ancestors :
  iterates_sets elements
  ∧ ∃ ancestors,
      get_ancestors elements (__init__ layered_tables) "dbo.D" = Returned ancestors
      ∧ (∀ v, v ∈ ancestors ↔ tc (edge (__init__ layered_tables)) "dbo.D" v)
      ∧ ("dbo.D" ∈ ancestors ↔ on_cycle (__init__ layered_tables) "dbo.D").
Proof.
  assert (iterates_sets elements) as Hperm.
  { intros s. reflexivity. }
  split; [exact Hperm|].
  exact (X1_get_ancestors_transitive_dependencies elements
           (__init__ layered_tables) "dbo.D" Hperm).
Defined.

(** X2: in the graph built from a list of objects, [get_descendants]
    returns, and returns exactly the nodes that reach [node] along one or
    more dependency edges. *)
Theorem X2_get_descendants_transitive_dependents
    (set_iter : gset string → list string) (objects : list DatabaseObject)
    (node : string) :
  iterates_sets set_iter →
  let g := __init__ objects in
  ∃ descendants,
    get_descendants set_iter g node = Returned descendants
    ∧ ∀ v, v ∈ descendants ↔ tc (edge g) v node.
Proof.
  intros Hperm. cbv zeta.
  destruct (ClosureFacts.closure_returns set_iter
              (_depended_by (__init__ objects)) node Hperm)
    as (res & Hrun & Hres).
  exists res. split; [exact Hrun|]. intros v.
  rewrite (Hres v). apply ClosureFacts.tc_flip, init_wf.
Qed.

(** The descendants of [dbo.A] among the four layered tables. *)
Lemma X2_layered_tables_descendants :
  iterates_sets elements
  ∧ ∃ descendants,
      get_descendants elements (__init__ layered_tables) "dbo.A"
        = Returned descendants
      ∧ ∀ v, v ∈ descendants ↔ tc (edge (__init__ layered_tables)) v "dbo.A".
Proof.
  assert (iterates_sets elements) as Hperm.
  { intros s. reflexivity. }
  split; [exact Hperm|].
  exact (X2_get_descendants_transitive_dependents elements layered_tables
           "dbo.A" Hperm).
Defined.

(** X3: whenever [detect_cycles] returns on the graph built from a list of
    objects, whatever the order in which sets are iterated, every cycle it
    reports has at least two nodes, and it reports no cycle when no node
    reaches itself. *)
Theorem X3_detect_cycles_silent_without_cycle
    (set_iter : gset string → list string) (objects : list DatabaseObject)
    (cycles : list (list string)) :
  (∀ s x, x ∈ set_iter s → x ∈ s) →
  let g := __init__ objects in
  detect_cycles set_iter g = Returned cycles →
  Forall (λ cycle, (2 ≤ length cycle)%nat) cycles
  ∧ (¬ cyclic g → cycles = []).
Proof.
  intros Hsound. cbv zeta. intros Hrun. split.
  { by apply (TarjanAcyclicFacts.detect_cycles_sccs set_iter (__init__ objects)). }
  intros Hacyclic.
  pose proof (TarjanAcyclicFacts.detect_cycles_acyclic set_iter (__init__ objects)
                Hsound (init_wf objects) Hacyclic) as Hnone.
  rewrite Hrun in Hnone. by injection Hnone.
Qed.

(** What is reported for the four layered tables. *)
Lemma X3_layered_tables_no_cycle :
  (∀ (s : gset string) x, x ∈ elements s → x ∈ s)
  ∧ ∃ cycles,
      detect_cycles elements (__init__ layered_tables) = Returned cycles
      ∧ Forall (λ cycle, (2 ≤ length cycle)%nat) cycles
      ∧ (¬ cyclic (__init__ layered_tables) → cycles = []).
Proof.
  assert (∀ (s : gset string) x, x ∈ elements s → x ∈ s) as Hsound.
  { intros s x Hx. by apply elem_of_elements. }
  split; [exact Hsound|].
  assert (∃ cycles,
            detect_cycles elements (__init__ layered_tables) = Returned cycles)
    as [cycles Hrun].
  { eexists. vm_compute. reflexivity. }
  exists cycles. split; [exact Hrun|].
  exact (X3_detect_cycles_silent_without_cycle elements layered_tables cycles
           Hsound Hrun).
Defined.

(** X4: [get_layers] returns no empty layer and no node twice, and the
    layers read one after the other are a dependency order: every
    dependency of a listed node is listed before it. *)
Theorem X4_layers_in_dependency_order (objects : list DatabaseObject) :
  let g := __init__ objects in
  ∃ layers,
    get_layers g = Returned layers
    ∧ Forall (λ layer, layer ≠ []) layers
    ∧ NoDup (concat layers)
    ∧ (∀ n d, n ∈ concat layers → edge g n d → before (concat layers) d n).
Proof.
  cbv zeta.
  destruct (LayerFacts.get_layers_facts _ (init_wf objects))
    as (layers & Hrun & Hnd & _ & Hdeps & _).
  exists layers. split; [exact Hrun|]. split; [|split; [exact Hnd|]].
  - by apply LayerOrderFacts.get_layers_nonempty with (__init__ objects).
  - intros n d Hn Hedge.
    apply LayerFacts.elem_of_concat_lookup in Hn as (i & layer & Hi & Hin).
    destruct (Hdeps i layer n d Hi Hin Hedge) as (j & layer' & Hlt & Hj & Hd).
    by apply (LayerOrderFacts.before_concat layers i j layer layer' n d).
Qed.

(** X5: in the graph built from a list of objects the two directions
    mirror each other: [b] is a dependency of [a] exactly when [a] is a
    dependent of [b], and then both are nodes. *)
Theorem X5_dependencies_mirror_dependents (objects : list DatabaseObject)
    (a b : string) :
  let g := __init__ objects in
  (b ∈ get_dependencies g a ↔ a ∈ get_dependents g b)
  ∧ (b ∈ get_dependencies g a → has_node g a = true ∧ has_node g b = true).
Proof.
  cbv zeta. pose proof (init_wf objects) as [Hmirror Hclosed]. split.
  - apply Hmirror.
  - intros Hdep. destruct (Hclosed a b Hdep) as [Ha Hb].
    unfold has_node. by rewrite !bool_decide_eq_true.
Qed.

(** ** The balanced strategy *)

(** X6: [_determine_batch_count] is 0 without objects; with objects it is
    at least 1 and at most the desired count (or 1), a count above 1 gives
    batches of at least the minimum size on average, and no greater count
    up to the desired one does. *)
Theorem X6_batch_count_bounds (self : BalancedBatchingStrategy.t)
    (objects : list DatabaseObject) (desired_count : Z) :
  let r := _determine_batch_count self objects desired_count in
  let len := Z.of_nat (length objects) in
  (objects = [] → r = 0)
  ∧ (objects ≠ [] →
     1 ≤ r ≤ Z.max desired_count 1
     ∧ (1 < r → _min_batch_size self * r ≤ len)
     ∧ (∀ k, r < k ≤ desired_count → len < _min_batch_size self * k)).
Proof.
  cbv zeta. split.
  - by intros ->.
  - intros Hne. by apply PlanOutcomeFacts._determine_batch_count_spec.
Qed.

(** X7: asked for a positive number of batches, [_partition_balanced]
    returns that many batches, and together they hold the objects it was
    given, each as often as it was given. *)
Theorem X7_partition_keeps_objects
    (imbalance_le : nat → nat → nat → nat → Z → bool)
    (self : BalancedBatchingStrategy.t)
    (objects graph_objects : list DatabaseObject) (num_batches : Z) :
  0 < num_batches →
  ∃ partitions,
    _partition_balanced imbalance_le self objects num_batches
      (__init__ graph_objects) = Returned partitions
    ∧ length partitions = Z.to_nat num_batches
    ∧ concat partitions ≡ₚ objects.
Proof.
  intros Hpos.
  apply PartitionCoverFacts._partition_balanced_returns; [|exact Hpos].
  apply init_wf.
Qed.

(** The four layered tables in two batches. *)
Lemma X7_layered_tables_in_two_batches :
  0 < 2
  ∧ ∃ partitions,
      _partition_balanced imbalance_le_exact (two_batches "warn") layered_tables 2
        (__init__ layered_tables) = Returned partitions
      ∧ length partitions = Z.to_nat 2
      ∧ concat partitions ≡ₚ layered_tables.
Proof.
  split; [lia|].
  apply (X7_partition_keeps_objects imbalance_le_exact (two_batches "warn")
           layered_tables layered_tables 2).
  lia.
Defined.

(** ** Plans *)

(** X8: a plan that [create_plan] returns holds every object it was given
    in one of its batches, as often as it was given, and its totals are the
    number of objects and the number of batches. *)
Theorem X8_plan_holds_every_object
    (set_iter : gset string → list string)
    (imbalance_le : nat → nat → nat → nat → Z → bool) (now : string)
    (self : BalancedBatchingStrategy.t)
    (objects graph_objects : list DatabaseObject) (engagement_name : string)
    (plan : BatchPlan.t) :
  (∀ s x, x ∈ set_iter s → x ∈ s) →
  create_plan set_iter imbalance_le now self objects (__init__ graph_objects)
    engagement_name = Returned plan →
  concat (Batch.objects <$> BatchPlan.batches plan) ≡ₚ objects
  ∧ BatchPlan.total_objects plan = length objects
  ∧ BatchPlan.total_batches plan = length (BatchPlan.batches plan).
Proof.
  intros Hsound Hplan.
  destruct (PlanOutcomeFacts.create_plan_returned set_iter imbalance_le now self
              objects (__init__ graph_objects) engagement_name Hsound
              (init_wf graph_objects) plan Hplan)
    as (st & tc & vc & cycles & _ & _ & _ & _ & Hbatches & Hinv & Htotal & Hcount & _).
  split; [|by split]. rewrite Hbatches. apply (bi_objects _ _ _ _ _ Hinv).
Qed.

(** The plan for the four layered tables. *)
Lemma X8_layered_tables_plan :
  (∀ (s : gset string) x, x ∈ elements s → x ∈ s)
  ∧ ∃ plan,
      create_plan elements imbalance_le_exact "2024-01-01" (two_batches "warn")
        layered_tables (__init__ layered_tables) "demo" = Returned plan
      ∧ concat (Batch.objects <$> BatchPlan.batches plan) ≡ₚ layered_tables
      ∧ BatchPlan.total_objects plan = length layered_tables
      ∧ BatchPlan.total_batches plan = length (BatchPlan.batches plan).
Proof.
  assert (∀ (s : gset string) x, x ∈ elements s → x ∈ s) as Hsound.
  { intros s x Hx. by apply elem_of_elements. }
  split; [exact Hsound|].
  assert (∃ plan,
            create_plan elements imbalance_le_exact "2024-01-01" (two_batches "warn")
              layered_tables (__init__ layered_tables) "demo" = Returned plan)
    as [plan Hplan].
  { eexists. vm_compute. reflexivity. }
  exists plan. split; [exact Hplan|].
  exact (X8_plan_holds_every_object elements imbalance_le_exact "2024-01-01"
           (two_batches "warn") layered_tables layered_tables "demo" plan
           Hsound Hplan).
Defined.

(** X9: in a plan that [create_plan] returns the batch ids are 1, 2, ... in
    the order of the batches, and every id a batch lists as a dependency is
    the id of a batch of the plan that comes before it. *)
Theorem X9_batches_depend_on_earlier_batches
    (set_iter : gset string → list string)
    (imbalance_le : nat → nat → nat → nat → Z → bool) (now : string)
    (self : BalancedBatchingStrategy.t)
    (objects graph_objects : list DatabaseObject) (engagement_name : string)
    (plan : BatchPlan.t) :
  (∀ s x, x ∈ set_iter s → x ∈ s) →
  create_plan set_iter imbalance_le now self objects (__init__ graph_objects)
    engagement_name = Returned plan →
  (∀ i b, BatchPlan.batches plan !! i = Some b →
          Batch.batch_id b = Z.of_nat i + 1)
  ∧ (∀ b d, b ∈ BatchPlan.batches plan → d ∈ Batch.dependencies b →
            d < Batch.batch_id b
            ∧ ∃ b', b' ∈ BatchPlan.batches plan ∧ Batch.batch_id b' = d).
Proof.
  intros Hsound Hplan.
  destruct (PlanOutcomeFacts.create_plan_returned set_iter imbalance_le now self
              objects (__init__ graph_objects) engagement_name Hsound
              (init_wf graph_objects) plan Hplan)
    as (st & tc & vc & cycles & _ & _ & _ & _ & Hbatches & Hinv & _).
  rewrite Hbatches. destruct Hinv as [Hids _ _ Hdeps _]. split; [exact Hids|].
  intros b d Hb Hd. destruct (Hdeps b d Hb Hd) as [Hlow Hhigh].
  split; [exact Hhigh|].
  apply list_elem_of_lookup in Hb as [i Hi]. rewrite (Hids i b Hi) in Hhigh.
  destruct (lookup_lt_is_Some_2 st.1 (Z.to_nat (d - 1))) as [b' Hb'].
  { apply lookup_lt_Some in Hi. lia. }
  exists b'. split; [by eapply list_elem_of_lookup_2|].
  rewrite (Hids _ b' Hb'). lia.
Qed.

(** The batches of the plan for a view on a table. *)
Lemma X9_view_batch_after_table_batch :
  (∀ (s : gset string) x, x ∈ elements s → x ∈ s)
  ∧ ∃ plan,
      create_plan elements imbalance_le_exact "2024-01-01" (two_batches "warn")
        [db_object TABLE "A" []; db_object VIEW "V" ["dbo.A"]]
        (__init__ [db_object TABLE "A" []; db_object VIEW "V" ["dbo.A"]]) "demo"
        = Returned plan
      ∧ (∀ i b, BatchPlan.batches plan !! i = Some b →
                Batch.batch_id b = Z.of_nat i + 1)
      ∧ (∀ b d, b ∈ BatchPlan.batches plan → d ∈ Batch.dependencies b →
                d < Batch.batch_id b
                ∧ ∃ b', b' ∈ BatchPlan.batches plan ∧ Batch.batch_id b' = d).
Proof.
  assert (∀ (s : gset string) x, x ∈ elements s → x ∈ s) as Hsound.
  { intros s x Hx. by apply elem_of_elements. }
  split; [exact Hsound|].
  assert (∃ plan,
            create_plan elements imbalance_le_exact "2024-01-01" (two_batches "warn")
              [db_object TABLE "A" []; db_object VIEW "V" ["dbo.A"]]
              (__init__ [db_object TABLE "A" []; db_object VIEW "V" ["dbo.A"]])
              "demo" = Returned plan)
    as [plan Hplan].
  { eexists. vm_compute. reflexivity. }
  exists plan. split; [exact Hplan|].
  exact (X9_batches_depend_on_earlier_batches elements imbalance_le_exact
           "2024-01-01" (two_batches "warn") _ _ "demo" plan Hsound Hplan).
Defined.

(** X10: how [create_plan] ends once [detect_cycles] has returned its
    cycles.  Under ["error"] the first reported cycle is raised.  Otherwise
    an empty sprint list for the tables or the views, while there are such
    objects, ends in an [IndexError]; with sprints for every group the plan
    is returned as soon as [summary] returns, and holds that summary.  A
    plan is returned in no other case. *)
Theorem X10_create_plan_outcome
    (set_iter : gset string → list string)
    (imbalance_le : nat → nat → nat → nat → Z → bool) (now : string)
    (self : BalancedBatchingStrategy.t)
    (objects graph_objects : list DatabaseObject) (engagement_name : string)
    (cycles : list (list string)) :
  (∀ s x, x ∈ set_iter s → x ∈ s) →
  let graph := __init__ graph_objects in
  let run := create_plan set_iter imbalance_le now self objects graph
               engagement_name in
  let sprints_suffice :=
    (tables_of objects = []
     ∨ default [2; 3; 4; 5] (table_batches (_sprint_mapping self)) ≠ [])
    ∧ (views_of objects = []
       ∨ default [6; 7] (view_batches (_sprint_mapping self)) ≠ []) in
  detect_cycles set_iter graph = Returned cycles →
  (_circular_resolution self = "error" →
   ∀ c rest, cycles = c :: rest →
             run = Raised (ValueError_circular (cycle_message c)))
  ∧ ((_circular_resolution self = "error" → cycles = []) →
     ¬ sprints_suffice → run = Raised IndexError)
  ∧ ((_circular_resolution self = "error" → cycles = []) →
     sprints_suffice →
     ∀ s, summary set_iter graph = Returned s →
          ∃ plan, run = Returned plan ∧ BatchPlan.dependency_summary plan = s)
  ∧ (∀ plan, run = Returned plan →
             (_circular_resolution self = "error" → cycles = [])
             ∧ sprints_suffice
             ∧ summary set_iter graph
               = Returned (BatchPlan.dependency_summary plan)).
Proof.
  intros Hsound. cbv zeta. intros Hcycles.
  pose proof (init_wf graph_objects) as Hwf.
  split; [|split; [|split]].
  - intros Herror c rest ->.
    by apply PlanOutcomeFacts.create_plan_raises_circular with rest.
  - intros Hpolicy Hnot.
    destruct (PlanOutcomeFacts.create_plan_outcome set_iter imbalance_le now
                self objects (__init__ graph_objects) engagement_name Hsound
                Hwf cycles Hcycles Hpolicy)
      as [[_ Hraised]|(Htables & Hviews & _)]; [exact Hraised|].
    by destruct Hnot.
  - intros Hpolicy [Htables Hviews] s Hsummary.
    destruct (PlanOutcomeFacts.create_plan_outcome set_iter imbalance_le now
                self objects (__init__ graph_objects) engagement_name Hsound
                Hwf cycles Hcycles Hpolicy)
      as [[[[Hne Hnil]|[Hne Hnil]] _]
         |(_ & _ & plan & st & tc & vc & Hrun & _ & _ & _ & _ & _ & Hstored)].
    + by destruct Htables.
    + by destruct Hviews.
    + exists plan. split; [exact Hrun|].
      rewrite Hsummary in Hstored. by injection Hstored.
  - intros plan Hplan.
    destruct (PlanOutcomeFacts.create_plan_returned set_iter imbalance_le now
                self objects (__init__ graph_objects) engagement_name Hsound
                Hwf plan Hplan)
      as (st & tc & vc & cycles' & Hcycles' & Hpolicy & Htables & Hviews
          & _ & _ & _ & _ & _ & Hstored).
    rewrite Hcycles in Hcycles'. injection Hcycles' as <-. done.
Qed.

(** The two tables that need each other under ["error"]: the cycle that is
    reported is raised. *)
Lemma X10_two_cycle_outcome :
  (∀ (s : gset string) x, x ∈ elements s → x ∈ s)
  ∧ ∃ c rest,
      detect_cycles elements (__init__ two_cycle) = Returned (c :: rest)
      ∧ create_plan elements imbalance_le_exact "2024-01-01"
          (two_batches "error") two_cycle (__init__ two_cycle) "demo"
        = Raised (ValueError_circular (cycle_message c)).
Proof.
  assert (∀ (s : gset string) x, x ∈ elements s → x ∈ s) as Hsound.
  { intros s x Hx. by apply elem_of_elements. }
  split; [exact Hsound|].
  assert (∃ c rest,
            detect_cycles elements (__init__ two_cycle) = Returned (c :: rest))
    as (c & rest & Hrun).
  { eexists _, _. vm_compute. reflexivity. }
  exists c, rest. split; [exact Hrun|].
  destruct (X10_create_plan_outcome elements imbalance_le_exact "2024-01-01"
              (two_batches "error") two_cycle two_cycle "demo" (c :: rest)
              Hsound Hrun) as [Hraised _].
  by apply (Hraised eq_refl c rest).
Defined.

(** X11: under the policy ["warn"] a returned plan carries the warning
    text of every cycle that [detect_cycles] reports. *)
Theorem X11_warn_records_every_cycle
    (set_iter : gset string → list string)
    (imbalance_le : nat → nat → nat → nat → Z → bool) (now : string)
    (self : BalancedBatchingStrategy.t)
    (objects graph_objects : list DatabaseObject) (engagement_name : string)
    (plan : BatchPlan.t) (cycles : list (list string)) :
  (∀ s x, x ∈ set_iter s → x ∈ s) →
  _circular_resolution self = "warn" →
  detect_cycles set_iter (__init__ graph_objects) = Returned cycles →
  create_plan set_iter imbalance_le now self objects (__init__ graph_objects)
    engagement_name = Returned plan →
  ∀ c, c ∈ cycles → Text (cycle_message c) ∈ BatchPlan.warnings plan.
Proof.
  intros Hsound Hwarn Hcycles Hplan.
  destruct (PlanOutcomeFacts.create_plan_returned set_iter imbalance_le now self
              objects (__init__ graph_objects) engagement_name Hsound
              (init_wf graph_objects) plan Hplan)
    as (st & tc & vc & cycles' & Hcycles' & _ & _ & _ & _ & _ & _ & _ & Hrecorded).
  rewrite Hcycles in Hcycles'. injection Hcycles' as <-.
  by apply Hrecorded.
Qed.

(** The warnings of the plan for the two pairs of tables that need each
    other. *)
Lemma X11_two_cycles_recorded :
  (∀ (s : gset string) x, x ∈ elements s → x ∈ s)
  ∧ _circular_resolution (two_batches "warn") = "warn"
  ∧ ∃ cycles plan,
      detect_cycles elements (__init__ two_cycles) = Returned cycles
      ∧ create_plan elements imbalance_le_exact "2024-01-01" (two_batches "warn")
          two_cycles (__init__ two_cycles) "demo" = Returned plan
      ∧ ∀ c, c ∈ cycles → Text (cycle_message c) ∈ BatchPlan.warnings plan.
Proof.
  assert (∀ (s : gset string) x, x ∈ elements s → x ∈ s) as Hsound.
  { intros s x Hx. by apply elem_of_elements. }
  split; [exact Hsound|]. split; [reflexivity|].
  assert (∃ cycles, detect_cycles elements (__init__ two_cycles) = Returned cycles)
    as [cycles Hcycles].
  { eexists. vm_compute. reflexivity. }
  assert (∃ plan,
            create_plan elements imbalance_le_exact "2024-01-01" (two_batches "warn")
              two_cycles (__init__ two_cycles) "demo" = Returned plan)
    as [plan Hplan].
  { eexists. vm_compute. reflexivity. }
  exists cycles, plan. split; [exact Hcycles|]. split; [exact Hplan|].
  exact (X11_warn_records_every_cycle elements imbalance_le_exact "2024-01-01"
           (two_batches "warn") two_cycles two_cycles "demo" plan cycles
           Hsound eq_refl Hcycles Hplan).
Defined.

(** X12: [_assign_sprints] with the strategy's own sprint mapping returns
    the batches of a plan from [create_plan] as they are: the sprints set
    while the plan was built are the ones the re-assignment computes. *)
Theorem X12_assign_sprints_keeps_plan
    (set_iter : gset string → list string)
    (imbalance_le : nat → nat → nat → nat → Z → bool) (now : string)
    (self : BalancedBatchingStrategy.t)
    (objects graph_objects : list DatabaseObject) (engagement_name : string)
    (plan : BatchPlan.t) :
  (∀ s x, x ∈ set_iter s → x ∈ s) →
  create_plan set_iter imbalance_le now self objects (__init__ graph_objects)
    engagement_name = Returned plan →
  _assign_sprints (BatchPlan.batches plan) (_sprint_mapping self)
  = Returned (BatchPlan.batches plan).
Proof.
  intros Hsound Hplan.
  destruct (PlanOutcomeFacts.create_plan_returned set_iter imbalance_le now self
              objects (__init__ graph_objects) engagement_name Hsound
              (init_wf graph_objects) plan Hplan)
    as (st & tc & vc & cycles & _ & _ & _ & _ & Hbatches & Hinv & _).
  unfold _assign_sprints. rewrite Hbatches.
  by rewrite (bi_sprints _ _ _ _ _ Hinv).
Qed.

(** The sprints of the plan for the four layered tables. *)
Lemma X12_layered_tables_sprints :
  (∀ (s : gset string) x, x ∈ elements s → x ∈ s)
  ∧ ∃ plan,
      create_plan elements imbalance_le_exact "2024-01-01" (two_batches "warn")
        layered_tables (__init__ layered_tables) "demo" = Returned plan
      ∧ _assign_sprints (BatchPlan.batches plan)
          (_sprint_mapping (two_batches "warn"))
        = Returned (BatchPlan.batches plan).
Proof.
  assert (∀ (s : gset string) x, x ∈ elements s → x ∈ s) as Hsound.
  { intros s x Hx. by apply elem_of_elements. }
  split; [exact Hsound|].
  assert (∃ plan,
            create_plan elements imbalance_le_exact "2024-01-01" (two_batches "warn")
              layered_tables (__init__ layered_tables) "demo" = Returned plan)
    as [plan Hplan].
  { eexists. vm_compute. reflexivity. }
  exists plan. split; [exact Hplan|].
  exact (X12_assign_sprints_keeps_plan elements imbalance_le_exact "2024-01-01"
           (two_batches "warn") layered_tables layered_tables "demo" plan
           Hsound Hplan).
Defined.

(** X13: for batches whose objects have distinct qualified names,
    [_validate_batch_dependencies] returns no warning exactly when no
    object has, among its dependencies in the graph, an object of a batch
    with a greater id. *)
Theorem X13_validator_silent_iff_ordered
    (set_iter : gset string → list string) (batches : list Batch.t)
    (graph : DependencyGraph.t) :
  (∀ s x, x ∈ set_iter s ↔ x ∈ s) →
  NoDup (qualified_name <$> concat (Batch.objects <$> batches)) →
  _validate_batch_dependencies set_iter batches graph = []
  ↔ ∀ b o b' o',
      b ∈ batches → o ∈ Batch.objects b →
      b' ∈ batches → o' ∈ Batch.objects b' →
      qualified_name o' ∈ get_dependencies graph (qualified_name o) →
      Batch.batch_id b' ≤ Batch.batch_id b.
Proof.
  intros Hiter Hnd.
  by apply ValidatorFacts._validate_batch_dependencies_spec.
Qed.

(** The two batches of the four layered tables. *)
Lemma X13_layered_batches_validated :
  (∀ (s : gset string) x, x ∈ elements s ↔ x ∈ s)
  ∧ NoDup (qualified_name <$> concat (Batch.objects <$> layered_batches))
  ∧ (_validate_batch_dependencies elements layered_batches (__init__ layered_tables)
     = []
     ↔ ∀ b o b' o',
         b ∈ layered_batches → o ∈ Batch.objects b →
         b' ∈ layered_batches → o' ∈ Batch.objects b' →
         qualified_name o' ∈ get_dependencies (__init__ layered_tables)
                                (qualified_name o) →
         Batch.batch_id b' ≤ Batch.batch_id b).
Proof.
  assert (∀ (s : gset string) x, x ∈ elements s ↔ x ∈ s) as Hiter.
  { intros s x. apply elem_of_elements. }
  assert (NoDup (qualified_name <$> concat (Batch.objects <$> layered_batches)))
    as Hnd.
  { compute_done. }
  split; [exact Hiter|]. split; [exact Hnd|].
  exact (X13_validator_silent_iff_ordered elements layered_batches
           (__init__ layered_tables) Hiter Hnd).
Defined.

(** X14: the two counts of a batch add up to its size, and so do their
    sums over any list of batches. *)
Theorem X14_passed_and_failed_add_up (batches : list Batch.t) :
  Forall (λ b, (Batch.passed_count b + Batch.failed_count b
                = Batch.total_objects b)%nat) batches
  ∧ (fold_right Nat.add 0 (Batch.passed_count <$> batches)
     + fold_right Nat.add 0 (Batch.failed_count <$> batches)
     = fold_right Nat.add 0 (Batch.total_objects <$> batches))%nat.
Proof.
  assert (∀ b, (Batch.passed_count b + Batch.failed_count b
                = Batch.total_objects b)%nat) as Hone.
  { intros b. apply PlanOutcomeFacts.passed_failed_total. }
  split.
  - apply Forall_forall. intros b _. apply Hone.
  - induction batches as [|b batches IH]; [done|].
    rewrite !fmap_cons. cbn [foldr]. specialize (Hone b). lia.
Qed.

(** X15: [ObjectType.from_string] reads the value of every member, in
    upper and in lower case, as that member, and reads every alias as the
    member its entry names. *)
Theorem X15_from_string_round_trip :
  (∀ ty, ObjectType_from_string (ObjectType_value ty) = Some ty
         ∧ ObjectType_from_string (lower (ObjectType_value ty)) = Some ty)
  ∧ Forall (λ kv, is_Some (ObjectType_from_string kv.1)
                  ∧ ObjectType_from_string kv.1 = ObjectType_from_string kv.2)
      aliases.
Proof.
  split.
  - intros ty. destruct ty; split; reflexivity.
  - repeat (constructor; [split; [by eexists|reflexivity]|]). constructor.
Qed.

(** ** The planner's command line *)

(** X16: when iterating over a set visits each of its elements once,
    [_trace_path] returns a path without repetition that ends at the
    target, in which every node is a dependency of the node after it, and
    whose first node has no dependency outside the path. *)
Theorem X16_trace_path_follows_dependencies
    (set_iter : gset string → list string) (objects : list DatabaseObject)
    (target : string) :
  iterates_sets set_iter →
  let graph := __init__ objects in
  ∃ path root,
    batch_planner._trace_path set_iter graph target = Returned path
    ∧ NoDup path
    ∧ head path = Some root
    ∧ last path = Some target
    ∧ (∀ i a b, path !! i = Some a → path !! S i = Some b →
                a ∈ get_dependencies graph b)
    ∧ get_dependencies graph root ⊆ list_to_set path.
Proof.
  intros Hperm. cbv zeta.
  apply TraceFacts._trace_path_spec; [exact Hperm|apply init_wf].
Qed.

(** A path to [dbo.D] among the four layered tables. *)
Lemma X16_layered_tables_path :
  iterates_sets elements
  ∧ ∃ path root,
      batch_planner._trace_path elements (__init__ layered_tables) "dbo.D"
        = Returned path
      ∧ NoDup path
      ∧ head path = Some root
      ∧ last path = Some "dbo.D"
      ∧ (∀ i a b, path !! i = Some a → path !! S i = Some b →
                  a ∈ get_dependencies (__init__ layered_tables) b)
      ∧ get_dependencies (__init__ layered_tables) root ⊆ list_to_set path.
Proof.
  assert (iterates_sets elements) as Hperm.
  { intros s. reflexivity. }
  split; [exact Hperm|].
  exact (X16_trace_path_follows_dependencies elements layered_tables "dbo.D" Hperm).
Defined.



(** ** The assessment analyzer *)

(** X18: for a start key that is a node of the graph, or when no depth is
    allowed, the analyzer's [_get_ancestors] returns, and returns exactly
    the nodes other than the start that are reached from it through at
    least one and at most [max_depth] dependency edges. *)
Theorem X18_analyzer_ancestors_within_depth (g : DiGraph.t) (max_depth : Z)
    (node_key : string) :
  DiGraph.has_node g node_key = true ∨ max_depth ≤ 0 →
  ∃ ancestors,
    DependencyAnalyzer._get_ancestors g max_depth node_key = Returned ancestors
    ∧ ∀ v, v ∈ ancestors
           ↔ v ≠ node_key
             ∧ ∃ k, (1 ≤ k)%nat ∧ Z.of_nat k ≤ max_depth
                    ∧ DependencyAnalyzer.reach
                        (λ a b, b ∈ DiGraph.successors g a) k node_key v.
Proof.
  intros _.
  destruct (FailureFacts._get_ancestors_spec g max_depth node_key)
    as (ancestors & Hrun & Hspec).
  exists ancestors. split; [exact Hrun|]. intros v. apply Hspec.
Qed.

(** The ancestors of the last view of the long chain, ten edges deep. *)
Lemma X18_long_chain_ancestors :
  (DiGraph.has_node (DependencyAnalyzer.build_graph long_chain).1 "dbo.n11" = true
   ∨ 10 ≤ 0)
  ∧ ∃ ancestors,
      DependencyAnalyzer._get_ancestors (DependencyAnalyzer.build_graph long_chain).1
        10 "dbo.n11" = Returned ancestors
      ∧ ∀ v, v ∈ ancestors
             ↔ v ≠ "dbo.n11"
               ∧ ∃ k, (1 ≤ k)%nat ∧ Z.of_nat k ≤ 10
                      ∧ DependencyAnalyzer.reach
                          (λ a b, b ∈ DiGraph.successors
                                        (DependencyAnalyzer.build_graph long_chain).1 a)
                          k "dbo.n11" v.
Proof.
  assert (DiGraph.has_node (DependencyAnalyzer.build_graph long_chain).1 "dbo.n11"
          = true ∨ 10 ≤ 0) as Hnode.
  { left. vm_compute. reflexivity. }
  split; [exact Hnode|].
  exact (X18_analyzer_ancestors_within_depth
           (DependencyAnalyzer.build_graph long_chain).1 10 "dbo.n11" Hnode).
Defined.

(** X19: [identify_primary_failures] and [identify_dependent_failures]
    return, each list ordered by falling impact score, and between them
    they hold every failed object once for each time it is listed; the
    dependent failures are the failed objects that are nodes with a failed
    node among their ancestors within the depth bound. *)
Theorem X19_failures_are_primary_or_dependent (a : DependencyAnalyzer.t) :
  ∃ primary dependent,
    DependencyAnalyzer.identify_primary_failures a = Returned primary
    ∧ DependencyAnalyzer.identify_dependent_failures a = Returned dependent
    ∧ primary ++ dependent
      ≡ₚ filter (λ o, AssessmentObject.is_failed o = true)
           (DependencyAnalyzer.objects a)
    ∧ (∀ o, o ∈ dependent
            ↔ o ∈ DependencyAnalyzer.objects a
              ∧ AssessmentObject.is_failed o = true
              ∧ DiGraph.has_node (DependencyAnalyzer.graph a)
                  (DependencyAnalyzer.key_of o) = true
              ∧ ∃ n, DependencyAnalyzer.ancestor_within
                       (DependencyAnalyzer.graph a)
                       (DependencyAnalyzer.max_depth a)
                       (DependencyAnalyzer.key_of o) n
                     ∧ DependencyAnalyzer._is_failed_node
                         (DependencyAnalyzer.graph a) n = true)
    ∧ StronglySorted
        (λ x y, AssessmentObject.impact_score y ≤ AssessmentObject.impact_score x)
        primary
    ∧ StronglySorted
        (λ x y, AssessmentObject.impact_score y ≤ AssessmentObject.impact_score x)
        dependent.
Proof.
  destruct (FailureFacts.identify_failures_spec a)
    as (primary & dependent & Hprimary & Hdependent & Hrest).
  exists primary, dependent. split; [exact Hprimary|]. split; [exact Hdependent|].
  exact Hrest.
Qed.

End Extras.


(** ** Two runs of the planner *)

Module DeterminismFacts.
Import DependencyGraph DependencyGraphFacts ClosureInvariant BalancedBatchingStrategy.





End DeterminismFacts.


(** * The specification, claim by claim *)

Module Claims.
Import PartitionInvariant DependencyGraph DependencyGraphFacts KahnFacts LayerFacts.
Import BalancedBatchingStrategy PartitionFacts RebalanceFacts PlanFacts Examples.

(** ** Dependency order inside a partition *)

(** C1: the claim as worded fails on a cycle.  Tables [X] and [Y] need each
    other; with two batches the greedy placement puts [X] in batch 0 and
    [Y] in batch 1, the rebalance phase moves nothing, and [X] sits before
    its dependency [Y]. *)
Lemma C1_cycle_breaks_batch_order :
  let graph := __init__ two_cycle in
  let X := db_object TABLE "X" ["dbo.Y"] in
  let Y := db_object TABLE "Y" ["dbo.X"] in
  get_layers graph = Returned []
  ∧ (∃ st, greedy_placement two_cycle 2 [] = Returned st ∧ st.1 = [[X]; [Y]])
  ∧ _partition_balanced imbalance_le_exact (two_batches "warn") two_cycle 2 graph
    = Returned [[X]; [Y]]
  ∧ ¬ respects_dependencies [[X]; [Y]].
Proof.
  cbv zeta. split; [by vm_compute|]. split.
  { eexists. split; [vm_compute; reflexivity|]. reflexivity. }
  split; [by vm_compute|].
  intros Hresp.
  assert (1 ≤ 0)%nat as Habs; [|lia].
  apply (Hresp (db_object TABLE "X" ["dbo.Y"]) (db_object TABLE "Y" ["dbo.X"])).
  - eexists. split; [reflexivity|]. by left.
  - eexists. split; [reflexivity|]. by left.
  - by left.
Qed.

(** C1: on an acyclic graph built from objects that include the group
    being partitioned, whose qualified names are distinct and carry no
    outer white space, a dependency of an object (an object of the group
    whose qualified name the dependency list holds) is never in a later
    batch: after the greedy placement, after every move of the rebalance
    loop from a state where it held, and in what [_partition_balanced]
    returns. *)
Theorem C1_partition_respects_dependencies
    (imbalance_le : nat → nat → nat → nat → Z → bool)
    (self : BalancedBatchingStrategy.t)
    (all_objects objects : list DatabaseObject) :
  ¬ cyclic (__init__ all_objects) →
  objects ⊆ all_objects →
  NoDup (qualified_name <$> objects) →
  (∀ o, o ∈ objects → strip (qualified_name o) = qualified_name o) →
  let graph := __init__ all_objects in
  (∀ num_batches layers,
     (0 < num_batches)%nat → get_layers graph = Returned layers →
     ∃ st, greedy_placement objects num_batches layers = Returned st
           ∧ concat st.1 ≡ₚ objects ∧ tracked st.1 st.2
           ∧ respects_dependencies st.1)
  ∧ (∀ total st st',
       concat st.1 ≡ₚ objects → tracked st.1 st.2 → respects_dependencies st.1 →
       rebalance_step imbalance_le self graph total st = Some st' →
       concat st'.1 ≡ₚ objects ∧ tracked st'.1 st'.2
       ∧ respects_dependencies st'.1)
  ∧ (∀ num_batches,
       ∃ partitions,
         _partition_balanced imbalance_le self objects num_batches graph
           = Returned partitions
         ∧ respects_dependencies partitions).
Proof.
  intros Hacyc Hsub Hnd Hstrip. cbv zeta. split; [|split].
  - intros num_batches layers Hnb Hrun.
    destruct (greedy_placement_spec all_objects objects num_batches layers)
      as (st & Hst & [_ Hperm Htr Hresp]); [done..|].
    by exists st.
  - intros total st st' Hperm Htr Hresp Hstep.
    destruct (rebalance_step_preserves imbalance_le self (__init__ all_objects)
                total st st' Htr Hresp) as (_ & Hperm' & Htr' & Hresp'); [|done|].
    + apply init_dependents_known; intros o Ho; rewrite Hperm in Ho; auto.
    + split; [by rewrite Hperm'|done].
  - intros num_batches.
    destruct (_partition_balanced_spec imbalance_le self all_objects objects
                num_batches) as (partitions & Hrun & Hresp & _); [done..|].
    by exists partitions.
Qed.

(** The four layered tables in two batches: the graph is acyclic and the
    batches are in dependency order. *)
Lemma C1_layered_tables_in_order :
  ¬ cyclic (__init__ layered_tables)
  ∧ ∃ partitions,
      _partition_balanced imbalance_le_exact (two_batches "warn") layered_tables 2
        (__init__ layered_tables) = Returned partitions
      ∧ respects_dependencies partitions.
Proof.
  assert (¬ cyclic (__init__ layered_tables)) as Hacyc.
  { eapply sorted_graph_acyclic. vm_compute. reflexivity. }
  split; [exact Hacyc|].
  apply (C1_partition_respects_dependencies imbalance_le_exact (two_batches "warn")
           layered_tables layered_tables).
  - exact Hacyc.
  - done.
  - compute_done.
  - apply Forall_forall. repeat constructor.
Defined.

(** The names have to be distinct.  With the table [dbo.D] listed four
    times and three batches the graph is acyclic, yet [O] ends in the
    second batch and one copy of its dependency in the third. *)
Lemma duplicate_names_break_batch_order :
  ¬ cyclic (__init__ duplicated_tables)
  ∧ ∃ partitions,
      _partition_balanced imbalance_le_exact (table_batches_of 3 "warn")
        duplicated_tables 3 (__init__ duplicated_tables) = Returned partitions
      ∧ map (map name) partitions = [["D"; "D"]; ["D"; "O"]; ["D"]]
      ∧ ¬ respects_dependencies partitions.
Proof.
  split.
  { eapply sorted_graph_acyclic. vm_compute. reflexivity. }
  eexists. split; [vm_compute; reflexivity|]. split; [reflexivity|].
  intros Hresp.
  assert (2 ≤ 1)%nat as Habs; [|lia].
  apply (Hresp (db_object TABLE "O" ["dbo.D"]) (db_object TABLE "D" [])).
  - eexists. split; [reflexivity|]. right. by left.
  - eexists. split; [reflexivity|]. by left.
  - by left.
Qed.

(** ** Impact scores *)

(** C2: the claim as worded fails on a long chain.  With the default bound
    of ten levels the failed table at the head of a chain of eleven views
    scores 10, and eleven nodes depend on it. *)
Lemma C2_long_chain_is_undercounted :
  let g := (DependencyAnalyzer.build_graph long_chain).1 in
  ∃ scores (D : gset string),
    DependencyAnalyzer.calculate_impact_scores long_chain g 10 = Returned scores
    ∧ scores !! "dbo.n00" = Some 10
    ∧ size D = 11%nat
    ∧ ∀ v, v ∈ D → DependencyAnalyzer.descendant g "dbo.n00" v.
Proof.
  cbv zeta.
  destruct (BfsFacts._get_descendants_spec
              (DependencyAnalyzer.build_graph long_chain).1 11 "dbo.n00")
    as (D & HD & Hspec).
  eexists. exists D. split; [vm_compute; reflexivity|]. split; [by vm_compute|].
  split.
  - vm_compute in HD. injection HD as <-. by vm_compute.
  - intros v Hv. eapply AnalyzerFacts.descendant_within_descendant. by apply Hspec.
Qed.

(** C2: the score of a failed object is the number of nodes that depend on
    it through at most [max_depth] edges, and it is the number of all its
    descendants when none lies farther.  The score written back on an
    object is the entry of its lower-cased key, 0 without one; an object
    whose key no failed object has gets no entry and the score 0. *)
Theorem C2_impact_score_counts_bounded_descendants
    (objs : list AssessmentObject.t) (max_depth : Z) :
  ∃ a,
    DependencyAnalyzer.__init__ objs max_depth true = Returned a
    ∧ DependencyAnalyzer.graph a = (DependencyAnalyzer.build_graph objs).1
    ∧ (∀ o, o ∈ objs → AssessmentObject.is_failed o = true →
         ∃ D : gset string,
           DependencyAnalyzer._impact_scores a !! DependencyAnalyzer.key_of o
             = Some (Z.of_nat (size D))
           ∧ (∀ v, v ∈ D ↔
                DependencyAnalyzer.descendant_within (DependencyAnalyzer.graph a)
                  max_depth (DependencyAnalyzer.key_of o) v)
           ∧ ((∀ v, DependencyAnalyzer.descendant (DependencyAnalyzer.graph a)
                      (DependencyAnalyzer.key_of o) v →
                    DependencyAnalyzer.descendant_within (DependencyAnalyzer.graph a)
                      max_depth (DependencyAnalyzer.key_of o) v) →
              ∀ v, v ∈ D ↔
                DependencyAnalyzer.descendant (DependencyAnalyzer.graph a)
                  (DependencyAnalyzer.key_of o) v))
    ∧ (∀ i o, objs !! i = Some o →
         AssessmentObject.impact_score <$> DependencyAnalyzer.objects a !! i
         = Some (default 0 (DependencyAnalyzer._impact_scores a
                              !! DependencyAnalyzer.key_of o)))
    ∧ (∀ i o, objs !! i = Some o →
         (∀ o', o' ∈ objs → AssessmentObject.is_failed o' = true →
                DependencyAnalyzer.key_of o' ≠ DependencyAnalyzer.key_of o) →
         DependencyAnalyzer._impact_scores a !! DependencyAnalyzer.key_of o = None
         ∧ AssessmentObject.impact_score <$> DependencyAnalyzer.objects a !! i
           = Some 0).
Proof.
  destruct (AnalyzerFacts.init_scores objs max_depth)
    as (a & Hrun & Hgraph & _ & Hobjs & Hfailed & Hother).
  exists a. split; [done|]. split; [done|]. split; [|split].
  - intros o Ho Hf. destruct (Hfailed o Ho Hf) as (D & HD & Hscore).
    exists D. split; [done|]. split; [done|]. intros Hnear v. rewrite HD. split.
    + apply AnalyzerFacts.descendant_within_descendant.
    + apply Hnear.
  - intros i o Hi. rewrite Hobjs, list_lookup_fmap, Hi. done.
  - intros i o Hi Hnone. rewrite Hobjs, list_lookup_fmap, Hi. simpl.
    by rewrite (Hother _ Hnone).
Qed.

(** ** Topological order *)


(** ** Cycle policy *)

(** C4: a table that names itself gives a graph with a cycle, the edge
    from [dbo.T] to itself, which [detect_cycles] does not report; under
    the policy ["error"] the plan is created all the same. *)
Theorem C4_error_policy_accepts_self_cycle (now : string) :
  let graph := __init__ self_dependent in
  cyclic graph
  ∧ detect_cycles elements graph = Returned []
  ∧ ∃ plan,
      create_plan elements imbalance_le_exact now (default_strategy "error")
        self_dependent graph "" = Returned plan
      ∧ BatchPlan.total_batches plan = 1%nat
      ∧ BatchPlan.warnings plan
        = [Text "No foundation objects (schemas, security, functions) found."].
Proof.
  cbv zeta. split; [|split].
  - exists "dbo.T". apply tc_once. compute_done.
  - by vm_compute.
  - eexists. split; [vm_compute; reflexivity|]. by split.
Qed.

(** ** Self-loops *)

(** C5: an object whose dependency list holds its own qualified name gets
    an edge to itself in both graphs. *)
Theorem C5_self_reference_builds_self_loop :
  edge (__init__ self_dependent) "dbo.T" "dbo.T"
  ∧ DiGraph.has_edge (DependencyAnalyzer.build_graph self_dependent_assessed).1
      "dbo.t" "dbo.t" = true.
Proof.
  split; [|by vm_compute]. compute_done.
Qed.

(** ** Unknown references *)

(** C6: the claim as worded fails for [DependencyGraph].  The view [V]
    names [dbo.ghost], which no object is; the name becomes a node and
    the end of an edge. *)
Lemma C6_orphan_reference_becomes_node :
  let g := __init__ orphan_reference in
  ¬ GraphInvariant.is_object orphan_reference "dbo.ghost"
  ∧ "dbo.ghost" ∈ _nodes g
  ∧ edge g "dbo.V" "dbo.ghost".
Proof.
  cbv zeta. split; [|split].
  - intros (o & Ho & Hq). apply list_elem_of_singleton in Ho as ->. discriminate.
  - compute_done.
  - compute_done.
Qed.

(** C6: in the analyzer's graph the nodes are the keys of the objects and
    every edge joins two of them; a declared dependency that resolves to no
    key is logged and nothing else is done with it.  In [DependencyGraph]
    the nodes are the objects and every non-empty stripped dependency
    string, and the ends of every edge are nodes. *)
Theorem C6_graph_members
    (assessed_objects : list AssessmentObject.t) (objects : list DatabaseObject) :
  AnalyzerInvariant.confined (AnalyzerInvariant.is_key assessed_objects)
    (DependencyAnalyzer.build_graph assessed_objects).1
  ∧ (∀ obj dep,
       obj ∈ assessed_objects → dep ∈ AssessmentObject.dependencies obj →
       ¬ AnalyzerInvariant.is_key assessed_objects (DependencyAnalyzer.resolve obj dep) →
       DependencyAnalyzer.DependencyNotFound dep (AssessmentObject.qualified_name obj)
         ∈ (DependencyAnalyzer.build_graph assessed_objects).2)
  ∧ (∀ n, n ∈ _nodes (__init__ objects)
          ↔ GraphInvariant.is_object objects n
            ∨ GraphInvariant.is_declared_dependency objects n)
  ∧ (∀ a b, edge (__init__ objects) a b →
            a ∈ _nodes (__init__ objects) ∧ b ∈ _nodes (__init__ objects)).
Proof.
  split; [apply AnalyzerMembership.build_graph_confined|].
  split; [apply AnalyzerMembership.build_graph_logs_dropped|].
  split; [apply GraphMembership.init_nodes|].
  apply (wf_closed _ (init_wf objects)).
Qed.

(** ** Determinism *)




(** ** Layers *)

(** C8: on an acyclic graph [get_layers] returns layers in which every
    node has an index, the one [get_node_layer] returns; layer 0 holds
    the nodes without dependencies and no others; and a node's index is
    greater than the index of each of its dependencies. *)
Theorem C8_layers_of_acyclic_graph (objects : list DatabaseObject) :
  let g := __init__ objects in
  ¬ cyclic g →
  ∃ layers,
    get_layers g = Returned layers
    ∧ (∀ n, n ∈ _nodes g →
         ∃ i layer, layers !! i = Some layer ∧ n ∈ layer
                    ∧ get_node_layer g n = Returned (Z.of_nat i))
    ∧ (∀ n, (∃ layer, layers !! 0%nat = Some layer ∧ n ∈ layer)
            ↔ n ∈ _nodes g ∧ get_dependencies g n = ∅)
    ∧ (∀ n d i j, edge g n d →
         get_node_layer g n = Returned i → get_node_layer g d = Returned j →
         0 ≤ j < i).
Proof.
  cbv zeta. intros Hacyc.
  destruct (get_layers_facts _ (init_wf objects))
    as (layers & Hrun & Hnd & _ & Hdeps & Hzero & Hcover).
  assert (∀ n, n ∈ _nodes (__init__ objects) →
            ∃ i layer, layers !! i = Some layer ∧ n ∈ layer
                       ∧ get_node_layer (__init__ objects) n
                         = Returned (Z.of_nat i)) as Hindex.
  { intros n Hn. apply Hcover, elem_of_concat_lookup in Hn as (i & layer & Hi & Hin);
      [|done].
    exists i, layer. split; [done|]. split; [done|].
    unfold get_node_layer. rewrite Hrun. simpl.
    by rewrite (find_layer_member layers i layer n). }
  exists layers. split; [done|]. split; [done|]. split; [done|].
  intros n d i j Hedge Hi Hj.
  destruct (wf_closed _ (init_wf objects) _ _ Hedge) as [Hn Hd].
  destruct (Hindex n Hn) as (i' & layer & Hl & Hin & Hi').
  destruct (Hindex d Hd) as (j' & layer' & Hl' & Hin' & Hj').
  rewrite Hi in Hi'. rewrite Hj in Hj'.
  injection Hi' as ->. injection Hj' as ->.
  destruct (Hdeps i' layer n d Hl Hin Hedge) as (j'' & layer'' & Hlt & Hl'' & Hin'').
  rewrite (NoDup_concat_unique layers j' j'' layer' layer'' d); [lia|done..].
Qed.

(** The layers of the four layered tables. *)
Lemma C8_layered_tables_layers :
  ¬ cyclic (__init__ layered_tables)
  ∧ ∃ layers,
      get_layers (__init__ layered_tables) = Returned layers
      ∧ (∀ n, n ∈ _nodes (__init__ layered_tables) →
           ∃ i layer, layers !! i = Some layer ∧ n ∈ layer
                      ∧ get_node_layer (__init__ layered_tables) n
                        = Returned (Z.of_nat i))
      ∧ (∀ n, (∃ layer, layers !! 0%nat = Some layer ∧ n ∈ layer)
              ↔ n ∈ _nodes (__init__ layered_tables)
                ∧ get_dependencies (__init__ layered_tables) n = ∅)
      ∧ (∀ n d i j, edge (__init__ layered_tables) n d →
           get_node_layer (__init__ layered_tables) n = Returned i →
           get_node_layer (__init__ layered_tables) d = Returned j →
           0 ≤ j < i).
Proof.
  assert (¬ cyclic (__init__ layered_tables)) as Hacyc.
  { eapply sorted_graph_acyclic. vm_compute. reflexivity. }
  split; [exact Hacyc|].
  exact (C8_layers_of_acyclic_graph layered_tables Hacyc).
Defined.

(** ** External tables *)

(** C9: the claim as worded fails for the analyzer.  It links the external
    table to the data source and not to the file format. *)
Lemma C9_analyzer_skips_file_format :
  let g := (DependencyAnalyzer.build_graph external_assessed).1 in
  DiGraph.has_edge g "dbo.ext" "dbo.src" = true
  ∧ DiGraph.has_edge g "dbo.ext" "dbo.fmt" = false
  ∧ DiGraph.edges g = [("dbo.ext", "dbo.src", "implicit")].
Proof. cbv zeta. split; [by vm_compute|]. split; by vm_compute. Qed.

(** C9: [DependencyGraph] links every external table to every data source
    and every file format of another qualified name; the analyzer links
    every external table to every data source. *)
Theorem C9_external_table_edges
    (objects : list DatabaseObject) (assessed_objects : list AssessmentObject.t) :
  (∀ tbl other,
     tbl ∈ objects → other ∈ objects →
     object_type tbl = EXTERNAL_TABLE →
     object_type other = EXTERNAL_DATA_SOURCE
     ∨ object_type other = EXTERNAL_FILE_FORMAT →
     qualified_name tbl ≠ qualified_name other →
     edge (__init__ objects) (qualified_name tbl) (qualified_name other))
  ∧ (∀ tbl src,
       tbl ∈ assessed_objects → src ∈ assessed_objects →
       AssessmentObject.object_type tbl = "EXTERNAL_TABLE" →
       AssessmentObject.object_type src = "EXTERNAL_DATA_SOURCE" →
       DiGraph.has_edge (DependencyAnalyzer.build_graph assessed_objects).1
         (DependencyAnalyzer.key_of tbl) (DependencyAnalyzer.key_of src) = true).
Proof.
  split.
  - apply GraphMembership.init_external_edge.
  - apply AnalyzerMembership.build_graph_external_edge.
Qed.

(** An external table next to a data source and a file format. *)
Lemma C9_external_objects_linked :
  edge (__init__ external_objects) "dbo.ext" "dbo.src"
  ∧ edge (__init__ external_objects) "dbo.ext" "dbo.fmt"
  ∧ DiGraph.has_edge (DependencyAnalyzer.build_graph external_assessed).1
      "dbo.ext" "dbo.src" = true.
Proof.
  destruct (C9_external_table_edges external_objects external_assessed)
    as [Hgraph Hanalyzer].
  split; [|split].
  - apply (Hgraph (db_object EXTERNAL_TABLE "ext" [])
                  (db_object EXTERNAL_DATA_SOURCE "src" []));
      [by left|right; by left|done|by left|done].
  - apply (Hgraph (db_object EXTERNAL_TABLE "ext" [])
                  (db_object EXTERNAL_FILE_FORMAT "fmt" []));
      [by left|right; right; by left|done|by right|done].
  - apply (Hanalyzer (assessed "EXTERNAL_TABLE" "Passed" "ext" [])
                     (assessed "EXTERNAL_DATA_SOURCE" "Passed" "src" []));
      [by left|right; by left|done..].
Defined.

(** ** Nodes on a cycle *)

(** C10: a node on a cycle is in no layer that [get_layers] returns and
    [get_node_layer] gives it -1; the layers hold every node exactly when
    the graph is acyclic; and the partitioner sorts an object whose name
    is on a cycle under the key 999. *)
Theorem C10_cycle_members_have_no_layer (objects : list DatabaseObject) :
  let g := __init__ objects in
  ∃ layers,
    get_layers g = Returned layers
    ∧ (∀ n, on_cycle g n →
         (n ∉ concat layers) ∧ get_node_layer g n = Returned (-1))
    ∧ ((∀ n, n ∈ concat layers ↔ n ∈ _nodes g) ↔ ¬ cyclic g)
    ∧ (∀ o, on_cycle g (qualified_name o) →
         layer_key (node_to_layer_of layers) o = 999).
Proof.
  cbv zeta.
  destruct (get_layers_facts _ (init_wf objects))
    as (layers & Hrun & Hnd & Hin & _ & _ & Hcover).
  assert (∀ n, on_cycle (__init__ objects) n → n ∉ concat layers) as Hout.
  { intros n Hcyc Hn. by apply Hin in Hn as [_ ?]. }
  exists layers. split; [done|]. split; [|split].
  - intros n Hcyc. split; [by apply Hout|].
    unfold get_node_layer. rewrite Hrun. simpl.
    by rewrite find_layer_absent by by apply Hout.
  - rewrite <- Hcover. split.
    + intros Hall n Hn. by apply Hall.
    + intros Hall n. split; [|by apply Hall]. intros Hn. by apply Hin in Hn as [? _].
  - intros o Hcyc. unfold layer_key.
    destruct (node_to_layer_of_spec layers (qualified_name o)) as [Hnone _].
    rewrite Hnone by by apply Hout. done.
Qed.

(** Two tables that need each other: no layer at all. *)
Lemma C10_two_cycle_has_no_layers :
  on_cycle (__init__ two_cycle) "dbo.X"
  ∧ get_layers (__init__ two_cycle) = Returned []
  ∧ get_node_layer (__init__ two_cycle) "dbo.X" = Returned (-1)
  ∧ layer_key (node_to_layer_of []) (db_object TABLE "X" ["dbo.Y"]) = 999.
Proof.
  assert (on_cycle (__init__ two_cycle) "dbo.X") as Hcyc.
  { apply tc_l with "dbo.Y"; [|apply tc_once]; compute_done. }
  destruct (C10_cycle_members_have_no_layer two_cycle)
    as (layers & Hrun & Hout & _ & Hkey).
  assert (layers = []) as ->.
  { vm_compute in Hrun. by injection Hrun as <-. }
  split; [done|]. split; [done|]. split; [by apply Hout|].
  by apply (Hkey (db_object TABLE "X" ["dbo.Y"])).
Defined.

End Claims.
